(** * cimpy: profile resolution and reference resolution of the CGMES export

    A shallow embedding of [cimpy/cimexport.py] and the properties of its
    export pipeline:

      registry -> [_get_attributes] -> [_get_reference_uuid]
               -> [_sort_classes_to_profile] -> [cim_export] -> renderer.

    Python dictionaries are association lists in insertion order (the
    order of iteration of Python 3.7 and later), the logger and the
    class-level [possibleProfileList] dictionaries (which the export sorts
    in place) form an explicit world that every function threads, and a
    raised exception ends a run while keeping the world as it was when the
    exception was raised. Identifiers, profile names and attribute names
    are strings, the entries of the [possibleProfileList] lists are the
    integer values of the enum [cgmesProfile]; the rendering of a payload
    by the template engine and the writing of the file are not modelled
    beyond the payload that is handed over. *)

From Stdlib Require Import List String Ascii ZArith NArith Bool Lia.
From Stdlib Require Import Permutation Sorted.
Import ListNotations.

Local Open Scope string_scope.
Local Open Scope list_scope.
Set Warnings "-register-all".

(** ** Python dictionaries: association lists in insertion order *)

Module Dict.

Definition dict (V : Type) : Type := list (string * V).

Section Ops.
Context {V : Type}.

(** [d[k]], [None] standing for the [KeyError]. *)
Fixpoint get (d : dict V) (k : string) : option V :=
    match d with
    | [] => None
    | (k', v) :: d' => if String.eqb k' k then Some v else get d' k
    end.

(** [k in d.keys()] *)
Definition has (d : dict V) (k : string) : bool :=
    match get d k with Some _ => true | None => false end.

(** [d[k] = v]: an existing key keeps its place, a new one goes last. *)
Fixpoint set (d : dict V) (k : string) (v : V) : dict V :=
    match d with
    | [] => [(k, v)]
    | (k', v') :: d' =>
        if String.eqb k' k then (k', v) :: d' else (k', v') :: set d' k v
    end.

Definition keys (d : dict V) : list string := map fst d.
End Ops.

End Dict.

Import Dict.

(** ** Python values met by the export *)

(** A float as a signed dyadic number, an infinity or a NaN; only its
    comparison with other numbers is used. *)
Inductive pyfloat : Type :=
| FNaN
| FInf (neg : bool)
| FFinite (neg : bool) (m : N) (e : Z).

(** What the export reads of an object it meets as a value: its identity,
    [__class__.__name__], whether its type is a subclass of [Base], and its
    [mRID] attribute when [hasattr(o, 'mRID')]. *)
Record pyobj : Type := mkObj {
  oid : nat;
  cls_name : string;
  base_subclass : bool;
  mRID_attr : option string
}.

Inductive pyval : Type :=
| VNone
| VBool (b : bool)
| VInt (z : Z)
| VFloat (f : pyfloat)
| VStr (s : string)
| VObj (o : pyobj)
| VList (l : list pyval)
| VReadIn (m : dict string)        (* a readInProfile dictionary *)
| VPossible (classes : list string)
  (* a possibleProfileList dictionary of [_get_attributes]: its keys, each
     bound to the possibleProfileList object of the class of that name *).

(** Literals of the source that values are compared with. *)
Inductive literal : Type :=
| LNone
| LInt (z : Z)
| LFloat (f : pyfloat)
| LStr (s : string).

Inductive pynum : Type :=
| NNaN
| NInf (neg : bool)
| NDyadic (z : Z) (e : Z).          (* z * 2^e *)

Definition num_of_float (f : pyfloat) : pynum :=
  match f with
  | FNaN => NNaN
  | FInf s => NInf s
  | FFinite s m e => NDyadic (if s then - Z.of_N m else Z.of_N m) e
  end.

(** bool is a subclass of int: [False == 0], [True == 1]. *)
Definition num_of_val (v : pyval) : option pynum :=
  match v with
  | VBool b => Some (NDyadic (if b then 1 else 0) 0)
  | VInt z => Some (NDyadic z 0)
  | VFloat f => Some (num_of_float f)
  | _ => None
  end.

Definition num_of_lit (c : literal) : option pynum :=
  match c with
  | LInt z => Some (NDyadic z 0)
  | LFloat f => Some (num_of_float f)
  | _ => None
  end.

(** Numbers compare by their exact value; a NaN equals nothing. *)
Definition num_eq (a b : pynum) : bool :=
  match a, b with
  | NInf s, NInf t => Bool.eqb s t
  | NDyadic z e, NDyadic z' e' =>
      let m := Z.min e e' in
      Z.eqb (z * 2 ^ (e - m)) (z' * 2 ^ (e' - m))
  | _, _ => false
  end.

(** [v == c] *)
Definition py_eq (v : pyval) (c : literal) : bool :=
  match num_of_val v, num_of_lit c with
  | Some a, Some b => num_eq a b
  | _, _ =>
      match v, c with
      | VNone, LNone => true
      | VStr s, LStr t => String.eqb s t
      | _, _ => false
      end
  end.

(** [v in [c1, ..., cn]] *)
Definition py_in (v : pyval) (cs : list literal) : bool :=
  existsb (py_eq v) cs.

(** [type(v).__name__] *)
Definition type_name (v : pyval) : string :=
  match v with
  | VNone => "NoneType"
  | VBool _ => "bool"
  | VInt _ => "int"
  | VFloat _ => "float"
  | VStr _ => "str"
  | VObj o => cls_name o
  | VList _ => "list"
  | VReadIn _ => "dict"
  | VPossible _ => "dict"
  end.

(** [issubclass(type(v), base_class)], with the object at hand. *)
Definition as_Base_instance (v : pyval) : option pyobj :=
  match v with
  | VObj o => if base_subclass o then Some o else None
  | _ => None
  end.

(** [v is None] *)
Definition is_None (v : pyval) : bool :=
  match v with VNone => true | _ => false end.

Definition zero_float : pyfloat := FFinite false 0 0.

(** [['', None, 0.0, 0]] and [['', None, 0.0, 0, 'many']] *)
Definition list_defaults : list literal :=
  [LStr ""; LNone; LFloat zero_float; LInt 0].
Definition scalar_defaults : list literal :=
  [LStr ""; LNone; LFloat zero_float; LInt 0; LStr "many"].

(** ** The world: class-level profile tables and the logger *)

Inductive level : Type := WARNING | INFO.

(** The possibleProfileList of each class, by class name: for the key
    ['class'] and for each attribute name the list of the ranks
    ([cgmesProfile] values) of the profiles it may be written to. These
    lists are objects shared by all instances of the class. *)
Definition class_store : Type := dict (dict (list Z)).

Record world : Type := mkWorld {
  store : class_store;
  log : list (level * string)
}.

Inductive exn : Type :=
| IndexError | KeyError | ValueError | TypeError | AttributeError
| UnboundLocalError.

Definition M (A : Type) : Type := world -> (exn + A) * world.

Definition ret {A} (a : A) : M A := fun w => (inr a, w).
Definition raise {A} (e : exn) : M A := fun w => (inl e, w).
Definition bind {A B} (m : M A) (k : A -> M B) : M B :=
  fun w => match m w with
           | (inr a, w') => k a w'
           | (inl e, w') => (inl e, w')
           end.

Declare Scope py_scope.
Delimit Scope py_scope with py.
Notation "x <- m ;; k" := (bind m (fun x => k))
  (at level 61, m at next level, right associativity) : py_scope.
Notation "m ;; k" := (bind m (fun _ => k))
  (at level 61, right associativity) : py_scope.
Local Open Scope py_scope.

Definition logger (l : level) (msg : string) : M unit :=
  fun w => (inr tt, mkWorld (store w) (log w ++ [(l, msg)])).
Definition logger_warning : string -> M unit := logger WARNING.
Definition logger_info : string -> M unit := logger INFO.

(** A value, or the exception raised in its place. *)
Definition lift {A} (r : exn + A) : M A :=
  match r with inr a => ret a | inl e => raise e end.

(** [o] or the exception [e] when there is none. *)
Definition orelse {A} (o : option A) (e : exn) : M A :=
  match o with Some a => ret a | None => raise e end.

Definition cat (l : list string) : string := String.concat "" l.

(** The string of one double quote. *)
Definition dquote : string := String (ascii_of_nat 34) EmptyString.

(** ** The registry and the records of the reference resolver *)

(** A model object of the registry [res]. [inheritance_list] is the list
    that the loop over [__bases__] in [_get_attributes] builds: for the
    instances from [Base()] down to the object itself, the class name and
    the keys of the instance's [__dict__]. [fields] is the object's own
    [__dict__], which [getattr] reads. *)
Record ModelObject : Type := mkModel {
  self : pyobj;
  readInProfile : dict string;
  inheritance_list : list (string * list string);
  fields : dict pyval
}.

(** The keys ['readInProfile'] and ['possibleProfileList']. *)
Inductive meta_key : Type := ReadInProfileKey | PossibleProfileListKey.

(** The dictionaries appended to [reference_list]: [{key: attr_dict[key]}]
    for the two reserved keys, [{'value': v, 'attr_name': key}] else. *)
Inductive record : Type :=
| MetaRecord (key : meta_key) (v : pyval)
| AttrRecord (value : pyval) (attr_name : string).

(** Modelled from the spec: [a == b] for two model objects. The class
    [Base] and the model classes are imported from a module that is not
    part of the source at hand; their instances are taken to compare by
    identity, as the Identity Resolver is specified. *)
Definition same_object (a b : pyobj) : bool := Nat.eqb (oid a) (oid b).

(** [_search_mRID(class_object, res)] *)
Fixpoint _search_mRID (class_object : pyobj) (res : dict ModelObject)
  : string :=
  match res with
  | [] => ""
  | (mRID, class_obj) :: rest =>
      if same_object class_object (self class_obj) then mRID
      else _search_mRID class_object rest
  end.

Definition not_found_message (type_of_elem mRID : string) : string :=
  cat ["Object of type "; type_of_elem;
       " not found as reference for object with UUID "; mRID; "."].

Definition not_subclass_message (mRID : string) : string :=
  cat ["Reference object not subclass of Base class for object with UUID ";
       mRID; "."].

(** Lines 44-60: the loop over the elements of a list value, [array] being
    what was appended so far. *)
Fixpoint reference_array (res : dict ModelObject) (mRID : string)
  (elems : list pyval) (array : list pyval) : M (list pyval) :=
  match elems with
  | [] => ret array
  | elem :: rest =>
      match as_Base_instance elem with
      | Some o =>
          UUID <- match mRID_attr o with
                  | None =>
                      let UUID := ("%" ++ _search_mRID o res)%string in
                      (if String.eqb UUID "%"
                       then logger_warning
                              (not_found_message (type_name elem) mRID)
                       else ret tt) ;;
                      ret UUID
                  | Some m => ret ("%" ++ m)%string
                  end ;;
          reference_array res mRID rest (array ++ [VStr UUID])
      | None =>
          logger_warning (not_subclass_message mRID) ;;
          reference_array res mRID rest array
      end
  end.

(** The local variable [elem] after a loop over [elems]: the last element,
    or what it was bound to before when the loop body never ran. *)
Definition rebind (elem : option pyval) (elems : list pyval)
  : option pyval :=
  match rev elems with
  | [] => elem
  | e :: _ => Some e
  end.

(** Lines 61-64: [array[0]] when [len(array) == 1], [array] else. *)
Definition collapse (array : list pyval) : pyval :=
  match array with
  | [x] => x
  | _ => VList array
  end.

(** Lines 42-80: the value for one key, [None] when ['value'] is not set,
    together with the binding of [elem] afterwards. *)
Definition attribute_value (res : dict ModelObject) (mRID : string)
  (elem : option pyval) (v : pyval) : M (option pyval * option pyval) :=
  match v with
  | VList elems =>
      array <- reference_array res mRID elems [] ;;
      ret (Some (collapse array), rebind elem elems)
  | _ =>
      match as_Base_instance v with
      | Some o =>
          UUID <- match mRID_attr o with
                  | None =>
                      let UUID := ("%" ++ _search_mRID o res)%string in
                      (if String.eqb UUID "%"
                       then
                         (* [elem] is the variable of the loop of line 44 *)
                         e <- orelse elem UnboundLocalError ;;
                         logger_warning
                           (not_found_message (type_name e) mRID)
                       else ret tt) ;;
                      ret UUID
                  | Some m => ret ("%" ++ m)%string
                  end ;;
          ret (Some (VStr UUID), elem)
      | None =>
          if py_eq v (LStr "") || is_None v
          then ret (None, elem)
          else ret (Some v, elem)
      end
  end.

(** Lines 82-91: the records appended for a key and its value. *)
Definition emitted (key : string) (value : option pyval) : list record :=
  match value with
  | None => []
  | Some (VList items) =>
      map (fun reference_item => AttrRecord reference_item key)
          (filter (fun reference_item =>
                     negb (py_in reference_item list_defaults)) items)
  | Some v =>
      if negb (py_in v scalar_defaults) then [AttrRecord v key] else []
  end.

(** [key in ['readInProfile', 'possibleProfileList']] *)
Definition reserved (key : string) : option meta_key :=
  if String.eqb key "readInProfile" then Some ReadInProfileKey
  else if String.eqb key "possibleProfileList"
       then Some PossibleProfileListKey
       else None.

(** The body of the loop of line 36, on [reference_list] and [elem]. *)
Definition reference_step (res : dict ModelObject) (mRID : string)
  (st : list record * option pyval) (kv : string * pyval)
  : M (list record * option pyval) :=
  let '(reference_list, elem) := st in
  let '(key, v) := kv in
  match reserved key with
  | Some k => ret (reference_list ++ [MetaRecord k v], elem)
  | None =>
      r <- attribute_value res mRID elem v ;;
      ret (reference_list ++ emitted key (fst r), snd r)
  end.

Fixpoint reference_loop (res : dict ModelObject) (mRID : string)
  (attr_dict : dict pyval) (st : list record * option pyval)
  : M (list record * option pyval) :=
  match attr_dict with
  | [] => ret st
  | kv :: rest =>
      st' <- reference_step res mRID st kv ;;
      reference_loop res mRID rest st'
  end.

(** [_get_reference_uuid(attr_dict, version, res, mRID)]; [version] only
    selects the module that [Base] is imported from. *)
Definition _get_reference_uuid (attr_dict : dict pyval)
  (res : dict ModelObject) (mRID : string) : M (list record) :=
  st <- reference_loop res mRID attr_dict ([], None) ;;
  ret (fst st).

(** ** Profiles *)

(** [cgmesProfile(v).name] for the enum of line 417; [None] stands for the
    [ValueError] of a value that is no member. *)
Definition cgmesProfile_name (v : Z) : option string :=
  match v with
  | 0%Z => Some "EQ"
  | 1%Z => Some "SSH"
  | 2%Z => Some "TP"
  | 3%Z => Some "SV"
  | 4%Z => Some "DY"
  | 5%Z => Some "GL"
  | 6%Z => Some "DI"
  | _ => None
  end.

(** [cgmesProfile[name].value] *)
Definition cgmesProfile_value (name : string) : option Z :=
  find (fun v => match cgmesProfile_name v with
                 | Some n => String.eqb n name
                 | None => false
                 end) [0; 1; 2; 3; 4; 5; 6]%Z.

(** The table [short_profile_name], in the order it is written. *)
Definition short_profile_name : dict string :=
  [("DiagramLayout", "DI"); ("Dynamics", "DY"); ("Equipment", "EQ");
   ("GeographicalLocation", "GL"); ("StateVariables", "SV");
   ("SteadyStateHypothesis", "SSH"); ("Topology", "TP")].

(** [s in l] for a list of strings. *)
Definition str_in (s : string) (l : list string) : bool :=
  existsb (String.eqb s) l.

(** [s.split(sep)] for a separator of one character. *)
Fixpoint split (sep : ascii) (s : string) : list string :=
  match s with
  | EmptyString => [EmptyString]
  | String c s' =>
      if Ascii.eqb c sep then EmptyString :: split sep s'
      else match split sep s' with
           | h :: t => String c h :: t
           | [] => [String c EmptyString]
           end
  end.

(** [l.sort()] on a list of ranks: ascending order. *)
Fixpoint insert_rank (x : Z) (l : list Z) : list Z :=
  match l with
  | [] => [x]
  | y :: l' => if Z.leb x y then x :: l else y :: insert_rank x l'
  end.

Fixpoint sort (l : list Z) : list Z :=
  match l with
  | [] => []
  | x :: l' => insert_rank x (sort l')
  end.

(** [possibleProfileList[c]]: the key must be there; the dictionary bound
    to it is the one of class [c] in the store. *)
Definition class_profiles (possibleProfileList : list string) (c : string)
  : M (dict (list Z)) :=
  if str_in c possibleProfileList
  then fun w => orelse (get (store w) c) KeyError w
  else raise KeyError.

(** [possibleProfileList[c][a].sort()], giving the list as it is after. *)
Definition sort_in_place (possibleProfileList : list string) (c a : string)
  : M (list Z) :=
  d <- class_profiles possibleProfileList c ;;
  l <- orelse (get d a) KeyError ;;
  fun w => (inr (sort l),
            mkWorld (set (store w) c (set d a (sort l))) (log w)).

(** The [for serializationProfile in ...] loops of lines 186 and 227: the
    name of the first active profile, [''] when the loop ends without. *)
Fixpoint first_active (activeProfileList : list string) (ranks : list Z)
  : M string :=
  match ranks with
  | [] => ret ""
  | serializationProfile :: rest =>
      name <- orelse (cgmesProfile_name serializationProfile) ValueError ;;
      if str_in name activeProfileList then ret name
      else first_active activeProfileList rest
  end.

(** ** Sorting classes and attributes to profiles *)

(** [dict(name=..., mRID=..., attributes=...)] *)
Record class_dict : Type := mkClass {
  name : string;
  mRID : string;
  attributes : list record
}.

(** Profile short name -> the list under ['classes']. *)
Definition plan : Type := dict (list class_dict).

(** [klass['attributes'][0]['readInProfile']], typed as the data model
    has it: the value under the key is the provenance dictionary, as it
    is in every list that [_get_class_attributes_with_references] makes.
    A value of another type is outside the data model. The code reads it
    here without a look at its type and fails at its first use (the
    [.keys()] of line 165, an [AttributeError]); the model stops at the
    read, with a [TypeError]. *)
Definition get_readInProfile (klass : class_dict) : exn + dict string :=
  match nth_error (attributes klass) 0 with
  | None => inl IndexError
  | Some (MetaRecord ReadInProfileKey (VReadIn m)) => inr m
  | Some (MetaRecord ReadInProfileKey _) => inl TypeError
  | Some _ => inl KeyError
  end.

(** [klass['attributes'][1]['possibleProfileList']], typed in the same
    way: the value under the key is the dictionary of the classes. For a
    value of another type the code fails at its first use (the subscript
    of line 169, a [TypeError], or the [.keys()] of line 183, an
    [AttributeError]); the model stops at the read, with a [TypeError]. *)
Definition get_possibleProfileList (klass : class_dict)
  : exn + list string :=
  match nth_error (attributes klass) 1 with
  | None => inl IndexError
  | Some (MetaRecord PossibleProfileListKey (VPossible cs)) => inr cs
  | Some (MetaRecord PossibleProfileListKey _) => inl TypeError
  | Some _ => inl KeyError
  end.

(** The [in] of line 169: a profile name looked up in a list of ranks. *)
Definition name_in_ranks (p : string) (ranks : list Z) : bool :=
  py_in (VStr p) (map LInt ranks).

(** Lines 163-199. [None] is the [continue] of line 195. *)
Definition class_profile (klass : class_dict)
  (readInProfile : dict string) (possibleProfileList : list string)
  (activeProfileList : list string) : M (option string) :=
  class_serializationProfile <-
    match get readInProfile "class" with
    | Some p =>
        if str_in p activeProfileList then
          d <- class_profiles possibleProfileList (name klass) ;;
          ranks <- orelse (get d "class") KeyError ;;
          if name_in_ranks p ranks then ret p
          else
            logger_warning
              (cat ["Class "; name klass; " was read from profile "; p;
                    " but this profile is not possible for this class"]) ;;
            ret ""
        else
          logger_info
            (cat ["Class "; name klass; " was read from profile "; p;
                  " but this profile is not active for the export. Use";
                  "default profile from possibleProfileList."]) ;;
          ret ""
    | None => ret ""
    end ;;
  if String.eqb class_serializationProfile "" then
    if str_in (name klass) possibleProfileList then
      d <- class_profiles possibleProfileList (name klass) ;;
      if has d "class" then
        ranks <- sort_in_place possibleProfileList (name klass) "class" ;;
        found <- first_active activeProfileList ranks ;;
        if String.eqb found "" then
          logger_warning
            (cat ["All possible export profiles for class "; name klass;
                  " not active. Skip class for export."]) ;;
          ret None
        else ret (Some found)
      else
        logger_warning
          (cat ["Class "; name klass; " has no profile to export to."]) ;;
        ret (Some "")
    else
      logger_warning
        (cat ["Class "; name klass; " has no profile to export to."]) ;;
      ret (Some "")
  else ret (Some class_serializationProfile).

(** [about_dict[p].append(attribute)], or [about_dict[p] = [attribute]]. *)
Definition about_append (about_dict : dict (list record)) (p : string)
  (attribute : record) : dict (list record) :=
  match get about_dict p with
  | Some l => set about_dict p (l ++ [attribute])
  | None => set about_dict p [attribute]
  end.

(** Lines 211-243: the profile of an attribute; [None] is the [continue]
    of line 237. *)
Definition attribute_profile (klass : class_dict)
  (readInProfile : dict string) (possibleProfileList : list string)
  (activeProfileList : list string) (attribute_class attribute_name : string)
  : M (option string) :=
  attribute_serializationProfile <-
    match get readInProfile attribute_name with
    | Some p =>
        if str_in p activeProfileList then ret p
        else
          logger_info
            (cat ["Attribute "; attribute_name; " from class "; name klass;
                  " was read from profile "; p;
                  " but this profile is inactive";
                  "for the export. Use default profile from ";
                  "possibleProfileList."]) ;;
          ret ""
    | None => ret ""
    end ;;
  if String.eqb attribute_serializationProfile "" then
    if str_in attribute_class possibleProfileList then
      d <- class_profiles possibleProfileList attribute_class ;;
      if has d attribute_name then
        ranks <- sort_in_place possibleProfileList attribute_class
                   attribute_name ;;
        found <- first_active activeProfileList ranks ;;
        if String.eqb found "" then
          logger_warning
            (cat ["All possible export profiles for attribute ";
                  attribute_class; "."; attribute_name; " of class ";
                  name klass; " not active. Skip attribute for export."]) ;;
          ret None
        else ret (Some found)
      else
        logger_warning
          (cat ["Attribute "; attribute_class; "."; attribute_name;
                " of class "; name klass; " has no profile to export to."]) ;;
        ret (Some "")
    else
      logger_warning
        (cat ["The class "; attribute_class; " for attribute ";
              attribute_name; " is not in the possibleProfileList"]) ;;
      ret (Some "")
  else ret (Some attribute_serializationProfile).

(** [attribute['attr_name'].split('.')[i]] *)
Definition attr_part (attr_name : string) (i : nat) : option string :=
  nth_error (split "." attr_name) i.

(** The body of the loop of line 202, on [same_package_list] and
    [about_dict]. *)
Definition attribute_step (klass : class_dict)
  (readInProfile : dict string) (possibleProfileList : list string)
  (activeProfileList : list string) (class_serializationProfile : string)
  (st : list record * dict (list record)) (attribute : record)
  : M (list record * dict (list record)) :=
  let '(same_package_list, about_dict) := st in
  match attribute with
  | MetaRecord _ _ => ret st
  | AttrRecord _ attr_name =>
      attribute_class <- orelse (attr_part attr_name 0) IndexError ;;
      attribute_name <- orelse (attr_part attr_name 1) IndexError ;;
      if String.eqb attribute_name "mRID" then ret st
      else
        r <- attribute_profile klass readInProfile possibleProfileList
               activeProfileList attribute_class attribute_name ;;
        match r with
        | None => ret st
        | Some attribute_serializationProfile =>
            if String.eqb attribute_serializationProfile
                 class_serializationProfile
            then ret (same_package_list ++ [attribute], about_dict)
            else ret (same_package_list,
                      about_append about_dict
                        attribute_serializationProfile attribute)
        end
  end.

Fixpoint attribute_loop (klass : class_dict)
  (readInProfile : dict string) (possibleProfileList : list string)
  (activeProfileList : list string) (class_serializationProfile : string)
  (attrs : list record) (st : list record * dict (list record))
  : M (list record * dict (list record)) :=
  match attrs with
  | [] => ret st
  | attribute :: rest =>
      st' <- attribute_step klass readInProfile possibleProfileList
               activeProfileList class_serializationProfile st attribute ;;
      attribute_loop klass readInProfile possibleProfileList
        activeProfileList class_serializationProfile rest st'
  end.

(** [d[p]['classes'].append(c)], or [d[p] = {'classes': [c]}]. *)
Definition plan_append (d : plan) (p : string) (c : class_dict) : plan :=
  match get d p with
  | Some l => set d p (l ++ [c])
  | None => set d p [c]
  end.

(** Lines 266-272: the loop over [about_dict.keys()]. *)
Fixpoint about_loop (klass : class_dict) (about_dict : dict (list record))
  (export_about_dict : plan) : plan :=
  match about_dict with
  | [] => export_about_dict
  | (about_key, attrs) :: rest =>
      about_loop klass rest
        (plan_append export_about_dict about_key
           (mkClass (name klass) (mRID klass) attrs))
  end.

(** The body of the loop of line 153, on [export_dict] and
    [export_about_dict]. *)
Definition klass_step (activeProfileList : list string)
  (st : plan * plan) (klass : class_dict) : M (plan * plan) :=
  let '(export_dict, export_about_dict) := st in
  readInProfile <- lift (get_readInProfile klass) ;;
  possibleProfileList <- lift (get_possibleProfileList klass) ;;
  c <- class_profile klass readInProfile possibleProfileList
         activeProfileList ;;
  match c with
  | None => ret st
  | Some class_serializationProfile =>
      r <- attribute_loop klass readInProfile possibleProfileList
             activeProfileList class_serializationProfile
             (attributes klass) ([], []) ;;
      let '(same_package_list, about_dict) := r in
      ret (plan_append export_dict class_serializationProfile
             (mkClass (name klass) (mRID klass) same_package_list),
           about_loop klass about_dict export_about_dict)
  end.

Fixpoint klass_loop (activeProfileList : list string)
  (class_attributes_list : list class_dict) (st : plan * plan)
  : M (plan * plan) :=
  match class_attributes_list with
  | [] => ret st
  | klass :: rest =>
      st' <- klass_step activeProfileList st klass ;;
      klass_loop activeProfileList rest st'
  end.

(** [_sort_classes_to_profile(class_attributes_list, activeProfileList)],
    returning [(export_dict, export_about_dict)]. *)
Definition _sort_classes_to_profile
  (class_attributes_list : list class_dict)
  (activeProfileList : list string) : M (plan * plan) :=
  klass_loop activeProfileList class_attributes_list ([], []).

(** ** Extracting the attributes of a model object *)

(** [attributes_dict['possibleProfileList'][class_name] = ...]: the
    dictionary under that key gets the key [class_name]. *)
Definition possible_add (attributes_dict : dict pyval) (class_name : string)
  : M (dict pyval) :=
  match get attributes_dict "possibleProfileList" with
  | Some (VPossible cs) =>
      ret (set attributes_dict "possibleProfileList"
             (VPossible (if str_in class_name cs then cs
                         else cs ++ [class_name])))
  | Some _ => raise TypeError
  | None => raise KeyError
  end.

(** Lines 388-394, on [attributes_dict] and [attributes_list]. *)
Fixpoint level_keys (class_object : ModelObject) (class_name : string)
  (keys : list string) (st : dict pyval * list string)
  : M (dict pyval * list string) :=
  match keys with
  | [] => ret st
  | key :: rest =>
      let '(attributes_dict, attributes_list) := st in
      if str_in key attributes_list
      then level_keys class_object class_name rest st
      else
        v <- orelse (get (fields class_object) key) AttributeError ;;
        level_keys class_object class_name rest
          (set attributes_dict (class_name ++ "." ++ key)%string v,
           attributes_list ++ [key])
  end.

(** Lines 382-400. [parent_class.possibleProfileList] is the dictionary of
    the class in the store, an [AttributeError] when it has none. *)
Fixpoint inheritance_loop (class_object : ModelObject)
  (parents : list (string * list string)) (st : dict pyval * list string)
  : M (dict pyval * list string) :=
  match parents with
  | [] => ret st
  | (class_name, keys) :: rest =>
      st' <- level_keys class_object class_name keys st ;;
      st'' <- (if negb (String.eqb class_name "Base") then
                 (fun w => orelse (get (store w) class_name)
                             AttributeError w) ;;
                 d <- possible_add (fst st') class_name ;;
                 ret (d, snd st')
               else ret st') ;;
      inheritance_loop class_object rest st''
  end.

(** [_get_attributes(class_object)] *)
Definition _get_attributes (class_object : ModelObject) : M (dict pyval) :=
  st <- inheritance_loop class_object (inheritance_list class_object)
          ([("readInProfile", VReadIn (readInProfile class_object));
            ("possibleProfileList", VPossible [])], []) ;;
  ret (fst st).

(** Lines 16-25, over the items of [res] that are still to be visited. *)
Fixpoint class_attributes_loop (res : dict ModelObject)
  (items : dict ModelObject) (class_attributes_list : list class_dict)
  : M (list class_dict) :=
  match items with
  | [] => ret class_attributes_list
  | (key, obj) :: rest =>
      attributes_dict <- _get_attributes obj ;;
      attrs <- _get_reference_uuid attributes_dict res key ;;
      class_attributes_loop res rest
        (class_attributes_list
           ++ [mkClass (cls_name (self obj)) key attrs])
  end.

(** [_get_class_attributes_with_references(res, version)] *)
Definition _get_class_attributes_with_references (res : dict ModelObject)
  : M (list class_dict) :=
  class_attributes_loop res res [].

(** ** The export *)

(** What [chevron.render] is called with, and the file it is written to. *)
Record payload : Type := mkPayload {
  full_path_name : string;
  classes : option (list class_dict);      (* [None] is [False] *)
  about : option (list class_dict);
  namespaces : list (string * string);
  model_mRID : string;
  model_description : list (string * string)
}.

(** [_create_namespaces_list] *)
Definition _create_namespaces_list (namespaces_dict : dict string)
  : list (string * string) :=
  map (fun kv => (fst kv, snd kv)) namespaces_dict.

Section Orchestrator.

(** The environment of a run: the working directory, [os.path.join] and
    [os.path.exists] as they are when the export starts, [datetime.now()]
    and the elapsed time as they are formatted; then the arguments of
    [cim_export]. *)
Variable cwd : string.
Variable path_join : string -> string -> string.
Variable path_exists : string -> bool.
Variable now : string.
Variable elapsed : string.
Variable namespaces_dict : dict string.
Variable file_name : string.

(** The body of the loop of line 312, on the payloads rendered so far. *)
Definition profile_step (export_dict about_dict : plan)
  (rendered : list payload) (entry : string * string) : M (list payload) :=
  let '(profile_name, short_name) := entry in
  if negb (has export_dict short_name) && negb (has about_dict short_name)
  then ret rendered
  else
    let full := (file_name ++ "_" ++ profile_name ++ ".xml")%string in
    let full_path := path_join cwd full in
    if negb (path_exists full_path
             || str_in full_path (map full_path_name rendered))
    then
      logger_info (cat ["Write file "; dquote; full_path; dquote]) ;;
      ret (rendered
             ++ [mkPayload full_path (get export_dict short_name)
                   (get about_dict short_name)
                   (_create_namespaces_list namespaces_dict)
                   file_name
                   [("created", now);
                    ("modelingAuthoritySet",
                     "www.acs.eonerc.rwth-aachen.de");
                    ("profile", profile_name)]])
    else
      logger_warning
        (cat ["File "; full; " already exists in path "; cwd;
              ". Delete file or change file name to serialize CGMES ";
              "classes."]) ;;
      ret rendered.

Fixpoint profile_loop (export_dict about_dict : plan)
  (profiles : dict string) (rendered : list payload) : M (list payload) :=
  match profiles with
  | [] => ret rendered
  | entry :: rest =>
      rendered' <- profile_step export_dict about_dict rendered entry ;;
      profile_loop export_dict about_dict rest rendered'
  end.

(** [cim_export(res, namespaces_dict, file_name, version,
    activeProfileList)]: the payloads handed to the renderer, in order. *)
Definition cim_export (res : dict ModelObject)
  (activeProfileList : list string) : M (list payload) :=
  logger_info "Start export procedure." ;;
  class_attributes_list <- _get_class_attributes_with_references res ;;
  plans <- _sort_classes_to_profile class_attributes_list
             activeProfileList ;;
  rendered <- profile_loop (fst plans) (snd plans) short_profile_name [] ;;
  logger_info (cat ["End export procedure. Elapsed time: "; elapsed]) ;;
  ret rendered.

End Orchestrator.

(** ** The lambdas of the renderer *)

(** [c in s] for a character [c]. *)
Fixpoint char_in (c : ascii) (s : string) : bool :=
  match s with
  | EmptyString => false
  | String c' s' => Ascii.eqb c' c || char_in c s'
  end.

(** [' rdf:resource="' + target + '"/>'] *)
Definition resource_tag (target : string) : string :=
  cat [" rdf:resource="; dquote; target; dquote; "/>"].

(** [_set_attribute_or_reference(text, render)]; [render] is the callback
    of the template engine. *)
Definition _set_attribute_or_reference (text : string)
  (render : string -> string) : exn + string :=
  let result := split "@" (render text) in
  match nth_error result 0, nth_error result 1 with
  | Some value, Some attr_name =>
      if char_in "%" value then
        match nth_error (split "%" value) 1 with
        | Some reference => inr (resource_tag ("#" ++ reference))
        | None => inl IndexError
        end
      else inr (cat [">"; value; "</cim:"; attr_name; ">"])
  | _, _ => inl IndexError
  end.

(** [_set_attribute_or_reference_model(text, render)] *)
Definition _set_attribute_or_reference_model (text : string)
  (render : string -> string) : exn + string :=
  let result := split "@" (render text) in
  match nth_error result 0, nth_error result 1 with
  | Some value, Some attr_name =>
      if char_in "%" value then
        match nth_error (split "%" value) 1 with
        | Some reference => inr (resource_tag reference)
        | None => inl IndexError
        end
      else inr (cat [">"; value; "</md:Model."; attr_name; ">"])
  | _, _ => inl IndexError
  end.

(** * The vocabulary of the properties *)

(** [post m w Q E]: the run of [m] from [w] ends with a value and a world
    that satisfy [Q], or with an exception in a world that satisfies [E]. *)
Definition post {A} (m : M A) (w : world) (Q : A -> world -> Prop)
  (E : world -> Prop) : Prop :=
  match m w with
  | (inr a, w') => Q a w'
  | (inl _, w') => E w'
  end.

(** Two dictionaries with the same keys in the same order, and values
    related by [R] key by key. *)
Definition keyed {V} (R : V -> V -> Prop) (d d' : dict V) : Prop :=
  Forall2 (fun e e' => fst e = fst e' /\ R (snd e) (snd e')) d d'.

(** A list of ranks is as it was, or was sorted in place. *)
Definition resorted (l l' : list Z) : Prop := l' = l \/ l' = sort l.

(** The store has the same classes and keys, each list as it was or
    sorted. *)
Definition store_resorted : class_store -> class_store -> Prop :=
  keyed (keyed resorted).

(** The world changed by sorting and logging only. *)
Definition evolved (w w' : world) : Prop :=
  store_resorted (store w) (store w').

(** [possibleProfileList[c][a]] when both keys are there. *)
Definition allowed (s : class_store) (possibleProfileList : list string)
  (c a : string) : option (list Z) :=
  if str_in c possibleProfileList
  then match get s c with
       | Some d => get d a
       | None => None
       end
  else None.

(** The profile [p] is one of the allowed profiles of attribute [a] (or of
    ['class']) of class [c]. *)
Definition legal (s : class_store) (possibleProfileList : list string)
  (c a : string) (p : string) : Prop :=
  exists ranks r,
    allowed s possibleProfileList c a = Some ranks /\ In r ranks /\
    cgmesProfile_name r = Some p.

(** How an attribute came to its profile [p]: by its provenance, which
    was active, or as an active member of its allowed-profile set; and an
    entry of the provenance that is active is the profile. The empty name
    stands for no profile. *)
Definition resolved (s : class_store) (rp : dict string) (pl : list string)
  (active : list string) (c a p : string) : Prop :=
  (forall q, get rp a = Some q -> str_in q active = true -> q <> "" ->
             p = q) /\
  (p <> "" ->
   (get rp a = Some p /\ str_in p active = true) \/
   (legal s pl c a p /\ str_in p active = true)).

(** Filing an attribute under its profile [p] (lines 245-254). *)
Definition filed (csp : string) (st : list record * dict (list record))
  (p : string) (attribute : record) : list record * dict (list record) :=
  if String.eqb p csp then (fst st ++ [attribute], snd st)
  else (fst st, about_append (snd st) p attribute).

(** What is known of a record filed under [p]: it is an attribute record,
    its name splits into class and attribute, the attribute is not
    [mRID], and [p] is how the attribute resolved. *)
Definition attribute_ok (s : class_store) (rp : dict string)
  (pl : list string) (active : list string) (p : string) (r : record)
  : Prop :=
  exists v attr_name c a,
    r = AttrRecord v attr_name /\
    attr_part attr_name 0 = Some c /\ attr_part attr_name 1 = Some a /\
    a <> "mRID" /\ resolved s rp pl active c a p.

(** The records filed for a class instance so far: those of the class's
    own profile and those of [about_dict]. *)
Definition filed_ok (P : string -> record -> Prop) (csp : string)
  (st : list record * dict (list record)) : Prop :=
  (forall r, In r (fst st) -> P csp r) /\
  (forall p l r, In (p, l) (snd st) -> In r l -> P p r).

(** Every record of every entry of a plan satisfies [P], which is given
    the profile the entry is filed under and the entry. *)
Definition plan_ok (P : string -> class_dict -> record -> Prop) (d : plan)
  : Prop :=
  forall p l e r, In (p, l) d -> In e l -> In r (attributes e) -> P p e r.

(** What is known of a record [r] of an entry [e] filed under [p]: the
    entry stands for an instance [klass] of the input, and [r] is an
    attribute of it that resolved to [p]. *)
Definition entry_ok (s : class_store) (class_attributes_list : list class_dict)
  (active : list string) (p : string) (e : class_dict) (r : record) : Prop :=
  exists klass rp pl,
    In klass class_attributes_list /\
    name e = name klass /\ mRID e = mRID klass /\
    get_readInProfile klass = inr rp /\
    get_possibleProfileList klass = inr pl /\
    attribute_ok s rp pl active p r.

(** The reference token of a model object: its [mRID] attribute, or else
    the key it is found under in the registry, after the marker. *)
Definition token (res : dict ModelObject) (o : pyobj) : string :=
  match mRID_attr o with
  | Some m => "%" ++ m
  | None => "%" ++ _search_mRID o res
  end.

(** The object has no [mRID] attribute and its token is the bare marker. *)
Definition unresolved (res : dict ModelObject) (o : pyobj) : bool :=
  match mRID_attr o with
  | Some _ => false
  | None => String.eqb ("%" ++ _search_mRID o res) "%"
  end.

(** The tokens of the model objects of a list, in order. *)
Definition tokens (res : dict ModelObject) (elems : list pyval)
  : list pyval :=
  flat_map (fun elem => match as_Base_instance elem with
                        | Some o => [VStr (token res o)]
                        | None => []
                        end) elems.

(** The warnings of a list, in order. *)
Definition array_warnings (res : dict ModelObject) (mRID : string)
  (elems : list pyval) : list (level * string) :=
  flat_map (fun elem =>
              match as_Base_instance elem with
              | Some o =>
                  if unresolved res o
                  then [(WARNING, not_found_message (type_name elem) mRID)]
                  else []
              | None => [(WARNING, not_subclass_message mRID)]
              end) elems.

Definition is_token (v : pyval) : Prop := exists s, v = VStr (String "%" s).

Definition is_list (v : pyval) : bool :=
  match v with VList _ => true | _ => false end.

(** The value a record is made from: nothing, a list of tokens, or a
    value that is no list. *)
Definition value_shape (value : option pyval) : Prop :=
  match value with
  | Some (VList items) => Forall is_token items
  | _ => True
  end.

(** No default in an emitted record, and no list. *)
Definition record_clean (r : record) : Prop :=
  match r with
  | AttrRecord v _ => py_in v scalar_defaults = false /\ is_list v = false
  | MetaRecord _ _ => True
  end.

(** Runs of [m] leave the store as it is, whether or not they raise. *)
Definition keeps_store {A} (m : M A) : Prop :=
  forall w, store (snd (m w)) = store w.

(** Runs of [m] only sort lists of the store, whether or not they raise. *)
Definition evolves {A} (m : M A) : Prop :=
  forall w, evolved w (snd (m w)).

Inductive subsequence {A : Type} : list A -> list A -> Prop :=
| sub_nil : subsequence [] []
| sub_skip x l1 l2 : subsequence l1 l2 -> subsequence l1 (x :: l2)
| sub_take x l1 l2 : subsequence l1 l2 -> subsequence (x :: l1) (x :: l2).

(** The profile a payload was made for: the value of its ['profile']
    header record. *)
Definition payload_profile (p : payload) : string :=
  match get (model_description p) "profile" with
  | Some profile_name => profile_name
  | None => ""
  end.

(** The provenance comes first: an entry of the provenance for the
    attribute [a] that is active, and not the empty name, is the profile
    [p], and the resolution of the attribute returns it as it is, in
    every world, that is, whatever the allowed-profile sets hold. *)
Definition provenance_first (klass : class_dict) (rp : dict string)
  (pl : list string) (active : list string) (c a p : string) : Prop :=
  forall q,
    get rp a = Some q -> str_in q active = true -> q <> "" ->
    p = q /\
    forall w, attribute_profile klass rp pl active c a w = (inr (Some q), w).

(** Legality as the code keeps it: the profile [p] of a record named
    [attr_name] in the entry [e] is active, it is the provenance of the
    attribute or one of its allowed profiles, and the provenance comes
    first. *)
Definition provenance_or_legal (s : class_store)
  (class_attributes_list : list class_dict) (active : list string)
  (p : string) (e : class_dict) (attr_name : string) : Prop :=
  str_in p active = true /\
  exists klass rp pl c a,
    In klass class_attributes_list /\
    name e = name klass /\ mRID e = mRID klass /\
    get_readInProfile klass = inr rp /\
    get_possibleProfileList klass = inr pl /\
    attr_part attr_name 0 = Some c /\ attr_part attr_name 1 = Some a /\
    (get rp a = Some p \/ legal s pl c a p) /\
    provenance_first klass rp pl active c a p.

(** The name of the first active profile of a list of ranks, [''] when
    there is none. *)
Fixpoint first_active_name (active : list string) (ranks : list Z)
  : string :=
  match ranks with
  | [] => ""
  | r :: rest =>
      match cgmesProfile_name r with
      | Some n => if str_in n active then n
                  else first_active_name active rest
      | None => ""
      end
  end.

Definition valid_rank (r : Z) : Prop := cgmesProfile_name r <> None.

(** Every model object that stands as the value of an attribute of
    [attr_dict] has an [mRID] or is found in the registry under a key
    that is not empty. *)
Definition scalar_refs_resolve (res : dict ModelObject)
  (attr_dict : dict pyval) : Prop :=
  forall key o,
    In (key, VObj o) attr_dict -> base_subclass o = true ->
    unresolved res o = false.

(** The only exceptions of [m] are those of [P]. *)
Definition raises_only {A} (P : exn -> Prop) (m : M A) : Prop :=
  forall w e w', m w = (inl e, w') -> P e.

(** The records the reference resolver may emit for an entry of the
    attribute map: the entry itself as a metadata record for a reserved
    key, attribute records under the entry's key else. *)
Definition block_of (kv : string * pyval) (block : list record) : Prop :=
  match reserved (fst kv) with
  | Some k => block = [MetaRecord k (snd kv)]
  | None => Forall (fun r => exists v, r = AttrRecord v (fst kv)) block
  end.

(** [ends m w Q E]: the run of [m] from [w] ends with a value and a world
    that satisfy [Q], or with an exception and a world that satisfy [E]. *)
Definition ends {A} (m : M A) (w : world) (Q : A -> world -> Prop)
  (E : exn -> world -> Prop) : Prop :=
  match m w with
  | (inr a, w') => Q a w'
  | (inl e, w') => E e w'
  end.

(** The first two entries of the dictionary of [_get_attributes]. *)
Definition meta_entries (r : dict string) (cs : list string) : dict pyval :=
  [("readInProfile", VReadIn r); ("possibleProfileList", VPossible cs)].

(** The attribute [key] is in the [__dict__] of one of the instances of
    [levels]. *)
Definition declared_in (levels : list (string * list string))
  (key : string) : Prop :=
  exists c ks, In (c, ks) levels /\ In key ks.

(** An entry of the dictionary of [_get_attributes] for an attribute: its
    key is the name of the first class of the walk whose instance has the
    attribute, a dot and the attribute, and its value is the value of the
    attribute in the object. *)
Definition attribute_entry (class_object : ModelObject)
  (kv : string * pyval) : Prop :=
  exists pre c ks post key,
    inheritance_list class_object = pre ++ (c, ks) :: post /\
    In key ks /\ ~ declared_in pre key /\
    fst kv = (c ++ "." ++ key)%string /\
    get (fields class_object) key = Some (snd kv).

(** The classes under the key ['possibleProfileList'] after the walk
    over [levels]: the classes of the walk other than [Base], each once
    and each with a possibleProfileList in the store. *)
Definition classes_of (levels : list (string * list string))
  (s : class_store) (cs : list string) : Prop :=
  NoDup cs /\
  (forall c, In c cs <-> c <> "Base" /\ In c (map fst levels)) /\
  (forall c, In c cs -> has s c = true).

(** What makes [_get_attributes] raise: an attribute of an instance of the
    walk that the object does not have, or a class of the walk other than
    [Base] that has no possibleProfileList. *)
Definition incomplete (class_object : ModelObject) (s : class_store)
  : Prop :=
  (exists c ks key,
      In (c, ks) (inheritance_list class_object) /\ In key ks /\
      get (fields class_object) key = None)
  \/ (exists c,
         In c (map fst (inheritance_list class_object)) /\ c <> "Base" /\
         get s c = None).

(** The name of every attribute record has a dot. *)
Definition dotted_records (rs : list record) : Prop :=
  Forall (fun r => match r with
                   | AttrRecord _ n => char_in "." n = true
                   | MetaRecord _ _ => True
                   end) rs.

(** The dictionary that [_get_class_attributes_with_references] makes of
    an item of the registry: the name of the object's class, the key of
    the item as [mRID], and attributes that start with the two metadata
    records, which lines 160-161 read by position. *)
Definition class_dict_of (s : class_store) (kv : string * ModelObject)
  (klass : class_dict) : Prop :=
  name klass = cls_name (self (snd kv)) /\
  mRID klass = fst kv /\
  get_readInProfile klass = inr (readInProfile (snd kv)) /\
  (exists cs, get_possibleProfileList klass = inr cs /\
              classes_of (inheritance_list (snd kv)) s cs) /\
  dotted_records (attributes klass).

(** No profile of the list of ranks is active. *)
Definition none_active (active : list string) (ranks : list Z) : Prop :=
  forall r n, In r ranks -> cgmesProfile_name r = Some n ->
              str_in n active = false.

(** [n] is the name of the active profile of lowest rank of the list. *)
Definition lowest_active (active : list string) (ranks : list Z)
  (n : string) : Prop :=
  exists r,
    In r ranks /\ cgmesProfile_name r = Some n /\
    str_in n active = true /\
    forall r' n', In r' ranks -> cgmesProfile_name r' = Some n' ->
                  str_in n' active = true -> (r <= r')%Z.

(** The provenance gives no profile to the attribute [a]: it has no entry
    for it, or the profile of the entry is not active. *)
Definition provenance_unused (rp : dict string) (active : list string)
  (a : string) : Prop :=
  match get rp a with
  | Some p => str_in p active = false
  | None => True
  end.

(** The warning of line 193. *)
Definition skip_class_message (klass : class_dict) : string :=
  cat ["All possible export profiles for class "; name klass;
       " not active. Skip class for export."].

(** What identifies an instance in a plan: the name of its class and its
    [mRID]. *)
Definition ident (c : class_dict) : string * string := (name c, mRID c).

(** All entries of a plan, profile by profile. *)
Definition entries (d : plan) : list class_dict := List.concat (map snd d).

(** Every list of a plan holds instances of [klasses], in their order,
    each at most as often as it is in [klasses]. *)
Definition ordered_plan (klasses : list class_dict) (d : plan) : Prop :=
  forall p l,
    In (p, l) d ->
    exists kept, subsequence kept klasses /\ map ident l = map ident kept.

(** The entries of the export plan are, up to their order, instances of
    [klasses], each at most as often as it is in [klasses]. *)
Definition owned_once (klasses : list class_dict) (d : plan) : Prop :=
  exists kept,
    subsequence kept klasses /\
    Permutation (map ident (entries d)) (map ident kept).

(** The entries of both plans have the [mRID] of an instance of
    [klasses], and no [mRID] is both in the list of a profile in the
    export plan and in the list of that profile in the about plan. *)
Definition plans_apart (klasses : list class_dict) (st : plan * plan)
  : Prop :=
  (forall p l c, In (p, l) (fst st) -> In c l ->
                 In (mRID c) (map mRID klasses)) /\
  (forall p l c, In (p, l) (snd st) -> In c l ->
                 In (mRID c) (map mRID klasses)) /\
  (forall p l l' c c',
      In (p, l) (fst st) -> In (p, l') (snd st) -> In c l -> In c' l' ->
      mRID c <> mRID c').

(** Every entry of both plans stands for an instance of [klasses] and
    holds attribute records of that instance, in their order. *)
Definition entries_from (klasses : list class_dict) (st : plan * plan)
  : Prop :=
  forall p l e,
    In (p, l) (fst st) \/ In (p, l) (snd st) -> In e l ->
    exists klass,
      In klass klasses /\ ident e = ident klass /\
      subsequence (attributes e) (attributes klass).

(** The exceptions of [_sort_classes_to_profile] on dictionaries whose
    metadata and attribute names it can read. *)
Definition sort_error (e : exn) : Prop := e = KeyError \/ e = ValueError.

(** The exceptions of [cim_export]. *)
Definition export_error (e : exn) : Prop :=
  e = AttributeError \/ e = UnboundLocalError \/ e = KeyError
  \/ e = ValueError.

(** A dictionary that lines 160-161 and 205-206 can read: the two
    metadata records are at positions 0 and 1 and every attribute name has
    a dot. *)
Definition readable (klass : class_dict) : Prop :=
  (exists rp, get_readInProfile klass = inr rp) /\
  (exists pl, get_possibleProfileList klass = inr pl) /\
  dotted_records (attributes klass).

(** The path of the file of a profile (lines 332-334). *)
Definition profile_path (cwd : string)
  (path_join : string -> string -> string) (file_name profile_name : string)
  : string :=
  path_join cwd (file_name ++ "_" ++ profile_name ++ ".xml")%string.

(** The payload of a profile of [table] that has entries in one of the
    plans: its path, the entries of the two plans under the short name of
    the profile, the namespaces and the header of the model. *)
Definition payload_for (table : dict string) (cwd : string)
  (path_join : string -> string -> string) (now : string)
  (namespaces_dict : dict string) (file_name : string) (ex ab : plan)
  (p : payload) : Prop :=
  exists profile_name short_name,
    In (profile_name, short_name) table /\
    (has ex short_name = true \/ has ab short_name = true) /\
    p = mkPayload (profile_path cwd path_join file_name profile_name)
          (get ex short_name) (get ab short_name)
          (_create_namespaces_list namespaces_dict) file_name
          [("created", now);
           ("modelingAuthoritySet", "www.acs.eonerc.rwth-aachen.de");
           ("profile", profile_name)].

(** The world after the message of line 295. *)
Definition started (w : world) : world :=
  mkWorld (store w) (log w ++ [(INFO, "Start export procedure.")]).

(** * Example inputs *)

Module Examples.

(** A line segment of the Equipment profile whose resistance [r] was read
    from a StateVariables file. *)
Definition line_store : class_store :=
  [("ACLineSegment", [("class", [0%Z]); ("r", [0%Z]); ("x", [0%Z])])].

Definition line : class_dict :=
  mkClass "ACLineSegment" "L1"
    [MetaRecord ReadInProfileKey (VReadIn [("r", "SV")]);
     MetaRecord PossibleProfileListKey (VPossible ["ACLineSegment"]);
     AttrRecord (VStr "L1") "IdentifiedObject.mRID";
     AttrRecord (VInt 3) "ACLineSegment.r";
     AttrRecord (VInt 7) "ACLineSegment.x"].

(** A terminal: its class may be written to five profiles, listed by
    profile name, and it was read from the SteadyStateHypothesis file. *)
Definition terminal_store : class_store :=
  [("Terminal",
    [("class", [4; 0; 1; 3; 2]%Z); ("connected", [1%Z]);
     ("sequenceNumber", [0%Z])])].

Definition terminal : class_dict :=
  mkClass "Terminal" "T1"
    [MetaRecord ReadInProfileKey (VReadIn [("class", "SSH")]);
     MetaRecord PossibleProfileListKey (VPossible ["Terminal"]);
     AttrRecord (VBool true) "Terminal.connected"].

(** A class whose possibleProfileList has no entry for ['class']. *)
Definition bare_store : class_store :=
  [("Terminal", [("connected", [1%Z])])].

Definition bare_terminal : class_dict :=
  mkClass "Terminal" "T1"
    [MetaRecord ReadInProfileKey (VReadIn []);
     MetaRecord PossibleProfileListKey (VPossible ["Terminal"]);
     AttrRecord (VBool true) "Terminal.connected"].

(** Model objects: two terminals with an [mRID], a node without. *)
Definition t1 : pyobj := mkObj 1 "Terminal" true (Some "T1").
Definition t2 : pyobj := mkObj 2 "Terminal" true (Some "T2").
Definition node : pyobj := mkObj 3 "TopologicalNode" true None.

(** A registry of a topological node and the voltage computed for it. *)
Definition grid_store : class_store :=
  [("TopologicalNode", [("class", [2%Z]); ("name", [2%Z])]);
   ("SvVoltage", [("class", [3%Z]); ("v", [3%Z]);
                  ("TopologicalNode", [3%Z])])].

Definition grid : dict ModelObject :=
  [("N1", mkModel (mkObj 1 "TopologicalNode" true (Some "N1")) []
            [("Base", []); ("TopologicalNode", ["mRID"; "name"])]
            [("mRID", VStr "N1"); ("name", VStr "north")]);
   ("V1", mkModel (mkObj 2 "SvVoltage" true None) []
            [("Base", []); ("SvVoltage", ["v"; "TopologicalNode"])]
            [("v", VInt 110);
             ("TopologicalNode",
              VObj (mkObj 1 "TopologicalNode" true (Some "N1")))])].

Definition terminals : dict ModelObject :=
  [("T1", mkModel t1 []
            [("Base", []); ("Terminal", ["mRID"; "connected"])]
            [("mRID", VStr "T1"); ("connected", VBool true)])].

(** A run in an empty directory. *)
Definition export (res : dict ModelObject) (active : list string)
  : M (list payload) :=
  cim_export "/out" (fun d f => d ++ "/" ++ f)%string (fun _ => false)
    "04/11/2026 12:00:00" "0.1" [] "grid" res active.

End Examples.

(** * Reasoning about runs *)

Lemma post_ret {A} (a : A) w (Q : A -> world -> Prop) E :
  Q a w -> post (ret a) w Q E.
Proof. intro H; exact H. Qed.

Lemma post_raise {A} e w (Q : A -> world -> Prop) (E : world -> Prop) :
  E w -> post (raise e) w Q E.
Proof. intro H; exact H. Qed.

Lemma post_bind {A B} (m : M A) (k : A -> M B) w Q E :
  post m w (fun a w' => post (k a) w' Q E) E -> post (bind m k) w Q E.
Proof.
  unfold post, bind. destruct (m w) as [[e | a] w']; auto.
Qed.

Lemma post_mono {A} (m : M A) w (Q Q' : A -> world -> Prop)
  (E E' : world -> Prop) :
  post m w Q E ->
  (forall a w', Q a w' -> Q' a w') -> (forall w', E w' -> E' w') ->
  post m w Q' E'.
Proof.
  unfold post. destruct (m w) as [[e | a] w']; auto.
Qed.

Lemma post_any {A} (m : M A) w : post m w (fun _ _ => True) (fun _ => True).
Proof. unfold post. destruct (m w) as [[e | a] w']; exact I. Qed.

Lemma post_run {A} (m : M A) w Q E a w' :
  post m w Q E -> m w = (inr a, w') -> Q a w'.
Proof. unfold post. intros H Hr. rewrite Hr in H. exact H. Qed.

Lemma post_logger l msg w (Q : unit -> world -> Prop) E :
  Q tt (mkWorld (store w) (log w ++ [(l, msg)])) -> post (logger l msg) w Q E.
Proof. intro H; exact H. Qed.

Lemma post_orelse {A} (o : option A) e w (Q : A -> world -> Prop)
  (E : world -> Prop) :
  (forall a, o = Some a -> Q a w) -> (o = None -> E w) ->
  post (orelse o e) w Q E.
Proof.
  intros HQ HE. destruct o as [a |]; [apply HQ | apply HE]; reflexivity.
Qed.

Lemma post_lift {A} (r : exn + A) w (Q : A -> world -> Prop)
  (E : world -> Prop) :
  (forall a, r = inr a -> Q a w) -> (forall e, r = inl e -> E w) ->
  post (lift r) w Q E.
Proof.
  intros HQ HE. destruct r as [e | a]; [eapply HE | apply HQ]; reflexivity.
Qed.

(** ** Dictionaries *)

Section DictFacts.
Context {V : Type}.
Implicit Types (d : dict V) (k : string) (v : V).

Lemma get_In d k v : get d k = Some v -> In (k, v) d.
Proof.
  induction d as [| [k' v'] d IH]; simpl; [discriminate |].
  destruct (String.eqb_spec k' k) as [-> | _].
  - intros [= ->]. now left.
  - intro H. right. now apply IH.
Qed.

Lemma get_set d k v k' :
  get (set d k v) k' = if String.eqb k k' then Some v else get d k'.
Proof.
  induction d as [| [k0 v0] d IH]; simpl.
  - destruct (String.eqb k k'); reflexivity.
  - destruct (String.eqb_spec k0 k) as [-> | Hne]; simpl.
    + destruct (String.eqb k k'); reflexivity.
    + rewrite IH. destruct (String.eqb_spec k0 k') as [-> | _]; [| reflexivity].
      destruct (String.eqb_spec k k') as [-> | _]; [congruence | reflexivity].
Qed.

Lemma In_set d k v k' v' :
  In (k', v') (set d k v) -> (k' = k /\ v' = v) \/ In (k', v') d.
Proof.
  induction d as [| [k0 v0] d IH]; simpl.
  - intros [[= <- <-] | []]. now left.
  - destruct (String.eqb_spec k0 k) as [-> | _]; simpl.
    + intros [[= <- <-] | H]; [now left | right; now right].
    + intros [H | H]; [right; now left |].
      destruct (IH H) as [? | ?]; [now left | right; now right].
Qed.

Lemma has_get d k : has d k = true -> exists v, get d k = Some v.
Proof. unfold has. destruct (get d k) as [v |]; [eauto | discriminate]. Qed.

End DictFacts.

Section Keyed.
Context {V : Type} (R : V -> V -> Prop).

Lemma keyed_refl : (forall v, R v v) -> forall d, keyed R d d.
Proof. intros Hr d. induction d; constructor; auto. Qed.

Lemma keyed_trans :
  (forall a b c, R a b -> R b c -> R a c) ->
  forall d1 d2 d3, keyed R d1 d2 -> keyed R d2 d3 -> keyed R d1 d3.
Proof.
  intros Ht d1 d2 d3 H12. revert d3.
  induction H12 as [| e1 e2 d1 d2 [Hk Hv] _ IH]; intros d3 H23;
    inversion H23 as [| ? e3 ? d3' [Hk' Hv'] Hrest]; subst; constructor.
  - split; [congruence | eauto].
  - now apply IH.
Qed.

Lemma keyed_keys d d' : keyed R d d' -> keys d = keys d'.
Proof.
  unfold keys.
  induction 1 as [| e e' d d' [Hk _] _ IH]; simpl; [reflexivity |].
  now rewrite Hk, IH.
Qed.

Lemma keyed_get d d' k :
  keyed R d d' ->
  match get d k, get d' k with
  | Some v, Some v' => R v v'
  | None, None => True
  | _, _ => False
  end.
Proof.
  induction 1 as [| [k1 v1] [k2 v2] d d' [Hk Hv] _ IH]; simpl; [exact I |].
  simpl in Hk, Hv. subst k2.
  destruct (String.eqb k1 k); [exact Hv | exact IH].
Qed.

Lemma keyed_get_l d d' k v :
  keyed R d d' -> get d k = Some v -> exists v', get d' k = Some v' /\ R v v'.
Proof.
  intros H Hg. pose proof (keyed_get d d' k H) as Hm. rewrite Hg in Hm.
  destruct (get d' k) as [v' |]; [eauto | contradiction].
Qed.

Lemma keyed_get_r d d' k v' :
  keyed R d d' -> get d' k = Some v' -> exists v, get d k = Some v /\ R v v'.
Proof.
  intros H Hg. pose proof (keyed_get d d' k H) as Hm. rewrite Hg in Hm.
  destruct (get d k) as [v |]; [eauto | contradiction].
Qed.

Lemma keyed_has d d' k : keyed R d d' -> has d k = has d' k.
Proof.
  intro H. pose proof (keyed_get d d' k H) as Hm. unfold has.
  destruct (get d k), (get d' k); tauto.
Qed.

(** Rebinding a key that is there changes the value at its place only. *)
Lemma keyed_set d k v v' :
  (forall x, R x x) -> get d k = Some v -> R v v' -> keyed R d (set d k v').
Proof.
  intros Hr. induction d as [| [k0 v0] d IH]; simpl; [discriminate |].
  destruct (String.eqb_spec k0 k) as [-> | _].
  - intros [= ->] Hv. constructor; [now split | now apply keyed_refl].
  - intros Hg Hv. constructor; [now split | now apply IH].
Qed.

End Keyed.

(** ** Sorting ranks *)

Lemma In_insert_rank x y l : In y (insert_rank x l) <-> y = x \/ In y l.
Proof.
  induction l as [| z l IH]; simpl.
  - intuition.
  - destruct (Z.leb x z); simpl; [intuition | rewrite IH; intuition].
Qed.

Lemma In_sort y l : In y (sort l) <-> In y l.
Proof.
  induction l as [| x l IH]; simpl; [tauto |].
  rewrite In_insert_rank, IH. intuition.
Qed.

Lemma insert_rank_sorted x l :
  StronglySorted Z.le l -> StronglySorted Z.le (insert_rank x l).
Proof.
  induction 1 as [| y l Hs IH Hall]; simpl.
  - constructor; constructor.
  - destruct (Z.leb_spec x y) as [Hle | Hlt].
    + constructor; [now constructor |].
      constructor; [exact Hle |].
      eapply Forall_impl; [| exact Hall]. intros z Hz. simpl in Hz. lia.
    + constructor; [exact IH |].
      apply Forall_forall. intros z Hz. apply In_insert_rank in Hz.
      destruct Hz as [-> | Hz]; [lia |].
      rewrite Forall_forall in Hall. now apply Hall.
Qed.

Lemma sort_sorted l : StronglySorted Z.le (sort l).
Proof.
  induction l; simpl; [constructor | now apply insert_rank_sorted].
Qed.

Lemma sort_of_sorted l : StronglySorted Z.le l -> sort l = l.
Proof.
  induction 1 as [| x l Hs IH Hall]; simpl; [reflexivity |].
  rewrite IH. destruct l as [| y l]; [reflexivity |].
  simpl. inversion Hall as [| ? ? Hxy _]; subst.
  apply Z.leb_le in Hxy. now rewrite Hxy.
Qed.

Lemma sort_idempotent l : sort (sort l) = sort l.
Proof. apply sort_of_sorted, sort_sorted. Qed.

Lemma insert_rank_perm x l : Permutation (x :: l) (insert_rank x l).
Proof.
  induction l as [| y l IH]; simpl; [reflexivity |].
  destruct (Z.leb x y); [reflexivity |].
  rewrite perm_swap. now constructor.
Qed.

Lemma sort_perm l : Permutation l (sort l).
Proof.
  induction l as [| x l IH]; simpl; [constructor |].
  rewrite <- insert_rank_perm. now constructor.
Qed.

(** ** What the export does to the store *)

Lemma resorted_refl l : resorted l l.
Proof. now left. Qed.

Lemma resorted_trans a b c : resorted a b -> resorted b c -> resorted a c.
Proof.
  unfold resorted. intros [-> | ->] [-> | ->]; auto.
  right. apply sort_idempotent.
Qed.

Lemma resorted_In l l' r : resorted l l' -> In r l' <-> In r l.
Proof. intros [-> | ->]; [tauto | apply In_sort]. Qed.

Lemma store_resorted_refl s : store_resorted s s.
Proof. apply keyed_refl. intro d. apply keyed_refl, resorted_refl. Qed.

Lemma store_resorted_trans s1 s2 s3 :
  store_resorted s1 s2 -> store_resorted s2 s3 -> store_resorted s1 s3.
Proof.
  apply keyed_trans. intros a b c. apply keyed_trans, resorted_trans.
Qed.

Lemma evolved_refl w : evolved w w.
Proof. apply store_resorted_refl. Qed.

Lemma evolved_trans w1 w2 w3 : evolved w1 w2 -> evolved w2 w3 -> evolved w1 w3.
Proof. apply store_resorted_trans. Qed.

Lemma allowed_resorted s s' pl c a l' :
  store_resorted s s' -> allowed s' pl c a = Some l' ->
  exists l, allowed s pl c a = Some l /\ resorted l l'.
Proof.
  unfold allowed. intros Hs. destruct (str_in c pl); [| discriminate].
  destruct (get s' c) as [d' |] eqn:Hd'; [| discriminate].
  destruct (keyed_get_r _ _ _ _ _ Hs Hd') as (d & -> & Hdd).
  intro Ha. destruct (keyed_get_r _ _ _ _ _ Hdd Ha) as (l & Hl & Hll). eauto.
Qed.

Lemma legal_resorted s s' pl c a p :
  store_resorted s s' -> legal s' pl c a p -> legal s pl c a p.
Proof.
  intros Hs (ranks & r & Ha & Hin & Hn).
  destruct (allowed_resorted _ _ _ _ _ _ Hs Ha) as (l & Hl & Hll).
  exists l, r. repeat split; auto. now apply (resorted_In _ _ _ Hll).
Qed.

(** ** Specifications of the steps of [_sort_classes_to_profile] *)

Ltac step :=
  lazymatch goal with
  | |- post (bind _ _) _ _ _ => apply post_bind
  | |- post (ret _) _ _ _ => apply post_ret
  | |- post (raise _) _ _ _ => apply post_raise
  | |- post (logger_warning _) _ _ _ => apply post_logger
  | |- post (logger_info _) _ _ _ => apply post_logger
  | |- post (orelse _ _) _ _ _ => apply post_orelse; [intros ? ? |intros ?]
  | |- post (lift _) _ _ _ => apply post_lift; intros ? ?
  end.

Lemma evolved_logged w w' l :
  evolved w w' -> evolved w (mkWorld (store w') l).
Proof. intro H; exact H. Qed.

Lemma class_profiles_spec pl c w :
  post (class_profiles pl c) w
    (fun d w' => w' = w /\ str_in c pl = true /\ get (store w) c = Some d)
    (fun w' => w' = w).
Proof.
  unfold class_profiles. destruct (str_in c pl) eqn:Hc.
  - unfold post, orelse. destruct (get (store w) c); simpl; auto.
  - now apply post_raise.
Qed.

Lemma sort_in_place_spec pl c a w :
  post (sort_in_place pl c a) w
    (fun ranks w' =>
       exists l, allowed (store w) pl c a = Some l /\ ranks = sort l /\
                 evolved w w' /\ log w' = log w)
    (fun w' => w' = w).
Proof.
  unfold sort_in_place. step.
  eapply post_mono; [apply class_profiles_spec | | auto].
  intros d w' (-> & Hc & Hd). step. step.
  - unfold post. simpl. exists a0. unfold allowed. rewrite Hc, Hd.
    repeat split; auto.
    unfold evolved, store_resorted. simpl.
    eapply keyed_set; [intro; apply keyed_refl, resorted_refl | exact Hd |].
    eapply keyed_set; [apply resorted_refl | eassumption | now right].
  - reflexivity.
Qed.

Lemma first_active_spec active ranks w :
  post (first_active active ranks) w
    (fun found w' =>
       w' = w /\
       (found = "" \/
        exists r, In r ranks /\ cgmesProfile_name r = Some found /\
                  str_in found active = true))
    (fun w' => w' = w).
Proof.
  induction ranks as [| r ranks IH]; simpl.
  - step. auto.
  - step. step; [| reflexivity].
    destruct (str_in a active) eqn:Ha.
    + step. split; [reflexivity |]. right. exists r. simpl. auto.
    + eapply post_mono; [exact IH | | auto].
      intros found w' (-> & [-> | (r' & Hin & Hn & Hact)]); split; auto.
      right. exists r'. simpl. auto.
Qed.

(** The class-level resolution changes the world by sorting and logging
    only, also when it raises. *)
Lemma class_profile_evolved klass rp pl active w :
  post (class_profile klass rp pl active) w
    (fun _ w' => evolved w w') (evolved w).
Proof.
  pose proof (evolved_refl w) as Hw.
  unfold class_profile. step.
  assert (Hfirst :
    post (match get rp "class" with
          | Some p =>
              if str_in p active then
                d <- class_profiles pl (name klass) ;;
                ranks <- orelse (get d "class") KeyError ;;
                if name_in_ranks p ranks then ret p
                else
                  logger_warning
                    (cat ["Class "; name klass; " was read from profile "; p;
                          " but this profile is not possible for this class"]) ;;
                  ret ""
              else
                logger_info
                  (cat ["Class "; name klass; " was read from profile "; p;
                        " but this profile is not active for the export. Use";
                        "default profile from possibleProfileList."]) ;;
                ret ""
          | None => ret ""
          end) w (fun _ w' => evolved w w') (evolved w)).
  { destruct (get rp "class") as [p |]; [| now step].
    destruct (str_in p active).
    - step. eapply post_mono; [apply class_profiles_spec | | now intros ? ->].
      intros d w' (-> & _ & _). step. step; [| exact Hw].
      destruct (name_in_ranks p a); [now step |]. step. step. now step.
    - step. step. now step. }
  eapply post_mono; [exact Hfirst | | auto].
  intros csp w1 Hw1. cbv beta.
  destruct (String.eqb csp ""); [| now step].
  destruct (str_in (name klass) pl); [| step; step; now step].
  step. eapply post_mono; [apply class_profiles_spec | | now intros ? ->].
  intros d w' (-> & _ & _).
  destruct (has d "class"); [| step; step; now step].
  step. eapply post_mono; [apply sort_in_place_spec | | now intros ? ->].
  intros ranks w2 (l & _ & _ & Hw2 & _). step.
  eapply post_mono; [apply first_active_spec | |].
  - intros found w3 (-> & _). pose proof (evolved_trans _ _ _ Hw1 Hw2).
    destruct (String.eqb found ""); [step; step |]; now step.
  - intros w3 ->. exact (evolved_trans _ _ _ Hw1 Hw2).
Qed.

Lemma resolved_resorted s s' rp pl active c a p :
  store_resorted s s' -> resolved s' rp pl active c a p ->
  resolved s rp pl active c a p.
Proof.
  intros Hs [Hfirst Hr]. split; [exact Hfirst |]. intro Hp.
  destruct (Hr Hp) as [? | [Hl ?]]; [now left | right].
  split; [| assumption]. eapply legal_resorted; eassumption.
Qed.

Lemma attribute_profile_spec klass rp pl active c a w :
  post (attribute_profile klass rp pl active c a) w
    (fun r w' =>
       evolved w w' /\
       match r with
       | Some p => resolved (store w) rp pl active c a p
       | None => True
       end)
    (evolved w).
Proof.
  pose proof (evolved_refl w) as Hw.
  unfold attribute_profile. step.
  assert (Hfirst :
    post (match get rp a with
          | Some p =>
              if str_in p active then ret p
              else
                logger_info
                  (cat ["Attribute "; a; " from class "; name klass;
                        " was read from profile "; p;
                        " but this profile is inactive";
                        "for the export. Use default profile from ";
                        "possibleProfileList."]) ;;
                ret ""
          | None => ret ""
          end) w
      (fun asp w' =>
         store w' = store w /\
         (asp = "" \/ (get rp a = Some asp /\ str_in asp active = true)) /\
         (forall q, get rp a = Some q -> str_in q active = true -> q = asp))
      (evolved w)).
  { destruct (get rp a) as [p |].
    2:{ step. split; [reflexivity |]. split; [now left | discriminate]. }
    destruct (str_in p active) eqn:Hp.
    - step. split; [reflexivity |]. split; [now right |].
      now intros q [= <-] _.
    - step. step. step. split; [reflexivity |]. split; [now left |].
      intros q [= <-] Hq. congruence. }
  eapply post_mono; [exact Hfirst | | auto].
  intros asp w1 (Hs1 & Hasp & Hused). cbv beta.
  assert (Hw1 : evolved w w1).
  { unfold evolved. rewrite Hs1. apply store_resorted_refl. }
  destruct (String.eqb_spec asp "") as [-> | Hne].
  2:{ step. split; [exact Hw1 |]. split.
      - intros q Hq Hact _. symmetry. exact (Hused q Hq Hact).
      - intros _. left. tauto. }
  assert (Hprov : forall p q, get rp a = Some q -> str_in q active = true ->
                              q <> "" -> p = q).
  { intros p q Hq Hact Hne. contradiction Hne. exact (Hused q Hq Hact). }
  assert (Hnone : resolved (store w) rp pl active c a "").
  { split; [apply Hprov |]. intro H. now contradiction H. }
  destruct (str_in c pl); [| step; step; step; auto].
  step. eapply post_mono; [apply class_profiles_spec | | now intros ? ->].
  intros d w' (-> & _ & _).
  destruct (has d a); [| step; step; step; auto].
  step. eapply post_mono; [apply sort_in_place_spec | | now intros ? ->].
  intros ranks w2 (l & Hl & -> & Hw2 & _). step.
  pose proof (evolved_trans _ _ _ Hw1 Hw2) as Hw12.
  eapply post_mono; [apply first_active_spec | | now intros ? ->].
  intros found w3 (-> & Hfound).
  destruct (String.eqb found ""); [step; step; step; auto |].
  step. split; [exact Hw12 |].
  destruct Hfound as [-> | (r & Hin & Hn & Hact)]; [exact Hnone |].
  split; [apply Hprov |].
  intros _. right. split; [| exact Hact].
  rewrite <- Hs1 in *. exists l, r. repeat split; auto.
  now apply In_sort.
Qed.

Lemma attribute_step_spec klass rp pl active csp st attribute w :
  post (attribute_step klass rp pl active csp st attribute) w
    (fun st' w' =>
       evolved w w' /\
       (st' = st \/
        exists p, attribute_ok (store w) rp pl active p attribute /\
                  st' = filed csp st p attribute))
    (evolved w).
Proof.
  pose proof (evolved_refl w) as Hw.
  unfold attribute_step. destruct st as [same about_dict].
  destruct attribute as [k v | v attr_name]; [step; auto |].
  step. step; [| exact Hw]. step. step; [| exact Hw].
  destruct (String.eqb_spec a0 "mRID") as [-> | Hne]; [step; auto |].
  step. eapply post_mono; [apply attribute_profile_spec | | auto].
  intros [p |] w' (Hw' & Hres); [| step; auto].
  assert (Hok : attribute_ok (store w) rp pl active p (AttrRecord v attr_name)).
  { exists v, attr_name, a, a0. auto. }
  destruct (String.eqb p csp) eqn:Hp; step; (split; [exact Hw' |]);
    right; exists p; (split; [exact Hok |]); unfold filed; now rewrite Hp.
Qed.

Lemma filed_ok_filed P csp st p attribute :
  filed_ok P csp st -> P p attribute ->
  filed_ok P csp (filed csp st p attribute).
Proof.
  intros [Hsame Habout] Hp. unfold filed.
  destruct (String.eqb_spec p csp) as [-> | _]; split; simpl; auto.
  - intros r Hr. apply in_app_or in Hr. destruct Hr as [Hr | [<- | []]]; auto.
  - intros q l r Hin Hr. unfold about_append in Hin.
    destruct (get (snd st) p) as [l0 |] eqn:Hg;
      apply In_set in Hin; destruct Hin as [[-> ->] | Hin]; eauto.
    + apply in_app_or in Hr. destruct Hr as [Hr | [<- | []]]; auto.
      apply get_In in Hg. eauto.
    + destruct Hr as [<- | []]. auto.
Qed.

Lemma attribute_loop_spec klass rp pl active csp w0 attrs :
  forall st w,
    evolved w0 w ->
    filed_ok (attribute_ok (store w0) rp pl active) csp st ->
    post (attribute_loop klass rp pl active csp attrs st) w
      (fun st' w' =>
         evolved w0 w' /\
         filed_ok (attribute_ok (store w0) rp pl active) csp st')
      (evolved w0).
Proof.
  induction attrs as [| attribute attrs IH]; intros st w Hw Hst; simpl.
  - step. auto.
  - step. eapply post_mono; [apply attribute_step_spec | |].
    + intros st' w' (Hw' & Hst').
      pose proof (evolved_trans _ _ _ Hw Hw') as Hw0.
      apply IH; [exact Hw0 |].
      destruct Hst' as [-> | (p & Hok & ->)]; [exact Hst |].
      apply filed_ok_filed; [exact Hst |].
      destruct Hok as (v & attr_name & c & a & Hr & Hc & Ha & Hm & Hres).
      exists v, attr_name, c, a.
      split; [exact Hr |]. split; [exact Hc |]. split; [exact Ha |].
      split; [exact Hm |].
      exact (resolved_resorted _ _ _ _ _ _ _ _ Hw Hres).
    + intros w' Hw'. exact (evolved_trans _ _ _ Hw Hw').
Qed.

(** ** The plans *)

Lemma plan_ok_append P d p c :
  plan_ok P d -> (forall r, In r (attributes c) -> P p c r) ->
  plan_ok P (plan_append d p c).
Proof.
  intros Hd Hc q l e r Hin He Hr. unfold plan_append in Hin.
  destruct (get d p) as [l0 |] eqn:Hg;
    apply In_set in Hin; destruct Hin as [[-> ->] | Hin]; eauto.
  - apply in_app_or in He. destruct He as [He | [<- | []]]; auto.
    apply get_In in Hg. eauto.
  - destruct He as [<- | []]. auto.
Qed.

Lemma plan_ok_about_loop P klass about_dict :
  forall d,
    plan_ok P d ->
    (forall p l r, In (p, l) about_dict -> In r l ->
                   P p (mkClass (name klass) (mRID klass) l) r) ->
    plan_ok P (about_loop klass about_dict d).
Proof.
  induction about_dict as [| [p l] about_dict IH]; intros d Hd Hab; simpl.
  - exact Hd.
  - apply IH.
    + apply plan_ok_append; [exact Hd |]. intros r Hr. apply Hab; simpl; auto.
    + intros q l' r Hin Hr. apply Hab; simpl; auto.
Qed.

Section KlassLoop.

Variable w0 : world.
Variable class_attributes_list : list class_dict.
Variable active : list string.

Let P := entry_ok (store w0) class_attributes_list active.

Lemma klass_step_spec st klass w :
  In klass class_attributes_list ->
  evolved w0 w ->
  plan_ok P (fst st) -> plan_ok P (snd st) ->
  post (klass_step active st klass) w
    (fun st' w' => evolved w0 w' /\ plan_ok P (fst st') /\ plan_ok P (snd st'))
    (evolved w0).
Proof.
  intros Hk Hw He Ha. unfold klass_step. destruct st as [export_dict about].
  step. step; [| exact Hw]. rename a into rp, H into Hrp.
  step. step; [| exact Hw]. rename a into pl, H into Hpl.
  step. eapply post_mono; [apply class_profile_evolved | |].
  2:{ intros w' Hw'. exact (evolved_trans _ _ _ Hw Hw'). }
  intros [csp |] w1 Hw1; [| step; pose proof (evolved_trans _ _ _ Hw Hw1); auto].
  pose proof (evolved_trans _ _ _ Hw Hw1) as Hw01.
  step. eapply post_mono;
    [apply (attribute_loop_spec klass rp pl active csp w0); [exact Hw01 |]
    | | auto].
  { split; simpl; [intros r [] | intros p l r []]. }
  intros [same about_dict] w2 (Hw2 & Hsame & Habout). step.
  split; [exact Hw2 |]. simpl in *.
  assert (Hentry : forall p e r,
             name e = name klass -> mRID e = mRID klass ->
             attribute_ok (store w0) rp pl active p r -> P p e r).
  { intros p e r Hn Hm Hok. exists klass, rp, pl. repeat split; assumption. }
  split.
  - apply plan_ok_append; [exact He |]. simpl. intros r Hr.
    apply Hentry; auto.
  - apply plan_ok_about_loop; [exact Ha |]. intros p l r Hin Hr.
    apply Hentry; eauto.
Qed.

Lemma klass_loop_spec klasses :
  forall st w,
    incl klasses class_attributes_list ->
    evolved w0 w ->
    plan_ok P (fst st) -> plan_ok P (snd st) ->
    post (klass_loop active klasses st) w
      (fun st' w' =>
         evolved w0 w' /\ plan_ok P (fst st') /\ plan_ok P (snd st'))
      (evolved w0).
Proof.
  induction klasses as [| klass klasses IH]; intros st w Hincl Hw He Ha; simpl.
  - step. auto.
  - step. eapply post_mono; [apply klass_step_spec; auto | | auto].
    + apply Hincl. now left.
    + intros st' w' (Hw' & He' & Ha'). apply IH; auto.
      intros k Hk. apply Hincl. now right.
Qed.

End KlassLoop.

(** Every record of both plans is an attribute of an instance of the
    input that resolved to the profile it is filed under, and the store is
    as it was up to sorting, whether or not the run raises. *)
Lemma _sort_classes_to_profile_spec class_attributes_list active w :
  post (_sort_classes_to_profile class_attributes_list active) w
    (fun plans w' =>
       evolved w w' /\
       plan_ok (entry_ok (store w) class_attributes_list active) (fst plans) /\
       plan_ok (entry_ok (store w) class_attributes_list active) (snd plans))
    (evolved w).
Proof.
  unfold _sort_classes_to_profile. apply klass_loop_spec.
  - apply incl_refl.
  - apply evolved_refl.
  - intros p l e r [].
  - intros p l e r [].
Qed.

(** ** The reference resolver *)

Lemma tokens_are_tokens res elems : Forall is_token (tokens res elems).
Proof.
  apply Forall_forall. intros v Hv. apply in_flat_map in Hv.
  destruct Hv as (elem & _ & Hv).
  destruct (as_Base_instance elem) as [o |]; [| contradiction].
  destruct Hv as [<- | []]. unfold token.
  destruct (mRID_attr o); eexists; reflexivity.
Qed.

Lemma token_not_default v :
  is_token v -> py_in v scalar_defaults = false /\ is_list v = false.
Proof. intros [s ->]. split; reflexivity. Qed.

(** The loop over a list value never raises: it appends the tokens and
    logs the warnings. *)
Lemma reference_array_run res mRID elems :
  forall array w,
    reference_array res mRID elems array w
    = (inr (array ++ tokens res elems),
       mkWorld (store w) (log w ++ array_warnings res mRID elems)).
Proof.
  induction elems as [| elem elems IH]; intros array w; simpl.
  - rewrite !app_nil_r. now destruct w.
  - destruct (as_Base_instance elem) as [o |] eqn:Ho.
    + unfold bind at 1. unfold token, unresolved.
      destruct (mRID_attr o) as [m |]; simpl.
      * rewrite IH. simpl. now rewrite <- app_assoc.
      * destruct (String.eqb (_search_mRID o res) ""); unfold bind; simpl;
          rewrite IH; simpl; now rewrite <- !app_assoc.
    + unfold bind. simpl. rewrite IH. simpl. now rewrite <- app_assoc.
Qed.

Lemma emitted_tokens key array :
  Forall is_token array ->
  emitted key (Some (collapse array))
  = map (fun t => AttrRecord t key) array.
Proof.
  intro Hall. destruct array as [| x [| y array]].
  - reflexivity.
  - inversion Hall as [| ? ? [s ->] _]; subst. reflexivity.
  - unfold collapse, emitted. f_equal.
    apply forallb_filter_id. apply forallb_forall. intros v Hv.
    rewrite Forall_forall in Hall. destruct (Hall v Hv) as [s ->]. reflexivity.
Qed.

(** The step for a list value: one scalar record per model element. *)
Lemma reference_step_list res mRID rl elem key elems w :
  reserved key = None ->
  reference_step res mRID (rl, elem) (key, VList elems) w
  = (inr (rl ++ map (fun t => AttrRecord t key) (tokens res elems),
          rebind elem elems),
     mkWorld (store w) (log w ++ array_warnings res mRID elems)).
Proof.
  intro Hk. unfold reference_step. rewrite Hk. unfold attribute_value.
  unfold bind. rewrite reference_array_run. unfold ret. cbn [app fst snd].
  rewrite emitted_tokens by apply tokens_are_tokens. reflexivity.
Qed.

Lemma _search_mRID_not_found o res :
  (forall k obj, In (k, obj) res -> oid (self obj) <> oid o) ->
  _search_mRID o res = "".
Proof.
  induction res as [| [k obj] res IH]; intro H; simpl; [reflexivity |].
  unfold same_object.
  destruct (Nat.eqb_spec (oid o) (oid (self obj))) as [Heq | _].
  - exfalso. apply (H k obj); [now left | now symmetry].
  - apply IH. intros k' obj' Hin. apply (H k' obj'). now right.
Qed.

(** ** Values of the emitted records *)

Lemma attribute_value_shape res mRID elem v w :
  post (attribute_value res mRID elem v) w
    (fun r _ => value_shape (fst r)) (fun _ => True).
Proof.
  assert (Hscalar : forall o : option pyobj,
    is_list v = false ->
    post (match o with
          | Some o =>
              UUID <- match mRID_attr o with
                      | None =>
                          let UUID := ("%" ++ _search_mRID o res)%string in
                          (if String.eqb UUID "%"
                           then
                             e <- orelse elem UnboundLocalError ;;
                             logger_warning
                               (not_found_message (type_name e) mRID)
                           else ret tt) ;;
                          ret UUID
                      | Some m => ret ("%" ++ m)%string
                      end ;;
              ret (Some (VStr UUID), elem)
          | None =>
              if py_eq v (LStr "") || is_None v
              then ret (None, elem)
              else ret (Some v, elem)
          end) w (fun r _ => value_shape (fst r)) (fun _ => True)).
  { intros [o |] Hv.
    - step. eapply post_mono; [apply post_any | | auto].
      intros UUID w' _. step. exact I.
    - destruct (py_eq v (LStr "") || is_None v); step; simpl; [exact I |].
      now destruct v. }
  destruct v; try (apply Hscalar; reflexivity).
  unfold attribute_value, post, bind. rewrite reference_array_run. simpl.
  pose proof (tokens_are_tokens res l) as Hall.
  destruct (tokens res l) as [| x [| y t]]; simpl; auto.
  inversion Hall as [| ? ? [s ->] _]; subst. exact I.
Qed.

Lemma emitted_clean key value :
  value_shape value -> Forall record_clean (emitted key value).
Proof.
  destruct value as [v |]; [| constructor].
  assert (Hscalar :
    is_list v = false ->
    Forall record_clean
      (if negb (py_in v scalar_defaults) then [AttrRecord v key] else [])).
  { intro Hv. destruct (py_in v scalar_defaults) eqn:Hin; simpl;
      constructor; [now split | constructor]. }
  destruct v; try (intros _; apply Hscalar; reflexivity).
  simpl. intro Hall. apply Forall_forall. intros r Hr.
  apply in_map_iff in Hr. destruct Hr as (item & <- & Hitem).
  apply filter_In in Hitem. destruct Hitem as [Hitem _].
  rewrite Forall_forall in Hall. now apply token_not_default, Hall.
Qed.

Lemma reference_step_clean res mRID st kv w :
  Forall record_clean (fst st) ->
  post (reference_step res mRID st kv) w
    (fun st' _ => Forall record_clean (fst st')) (fun _ => True).
Proof.
  intro Hst. destruct st as [rl elem], kv as [key v]. unfold reference_step.
  destruct (reserved key) as [k |].
  - step. simpl. apply Forall_app. split; [exact Hst |].
    constructor; [exact I | constructor].
  - step. eapply post_mono; [apply attribute_value_shape | | auto].
    intros r w' Hr. step. simpl. apply Forall_app. split; [exact Hst |].
    now apply emitted_clean.
Qed.

Lemma reference_loop_clean res mRID attr_dict :
  forall st w,
    Forall record_clean (fst st) ->
    post (reference_loop res mRID attr_dict st) w
      (fun st' _ => Forall record_clean (fst st')) (fun _ => True).
Proof.
  induction attr_dict as [| kv attr_dict IH]; intros st w Hst; simpl.
  - now step.
  - step. eapply post_mono; [now apply reference_step_clean | | auto].
    intros st' w' Hst'. now apply IH.
Qed.

Lemma _get_reference_uuid_clean attr_dict res mRID w :
  post (_get_reference_uuid attr_dict res mRID) w
    (fun rs _ => Forall record_clean rs) (fun _ => True).
Proof.
  unfold _get_reference_uuid. step.
  eapply post_mono; [apply reference_loop_clean; constructor | | auto].
  intros st w' Hst. now step.
Qed.

(** ** The store through the whole export *)

Lemma keeps_ret {A} (a : A) : keeps_store (ret a).
Proof. intro w; reflexivity. Qed.

Lemma keeps_raise {A} e : keeps_store (@raise A e).
Proof. intro w; reflexivity. Qed.

Lemma keeps_logger l msg : keeps_store (logger l msg).
Proof. intro w; reflexivity. Qed.

Lemma keeps_orelse {A} (o : option A) e : keeps_store (orelse o e).
Proof. intro w; destruct o; reflexivity. Qed.

Lemma keeps_bind {A B} (m : M A) (k : A -> M B) :
  keeps_store m -> (forall a, keeps_store (k a)) -> keeps_store (bind m k).
Proof.
  intros Hm Hk w. unfold bind. specialize (Hm w).
  destruct (m w) as [[e | a] w1]; simpl in *; [exact Hm |].
  now rewrite Hk.
Qed.

Lemma keeps_evolves {A} (m : M A) : keeps_store m -> evolves m.
Proof.
  intros H w. unfold evolved. rewrite H. apply store_resorted_refl.
Qed.

Lemma evolves_bind {A B} (m : M A) (k : A -> M B) :
  evolves m -> (forall a, evolves (k a)) -> evolves (bind m k).
Proof.
  intros Hm Hk w. unfold bind. specialize (Hm w).
  destruct (m w) as [[e | a] w1]; simpl in *; [exact Hm |].
  exact (evolved_trans _ _ _ Hm (Hk a w1)).
Qed.

Lemma post_evolves {A} (m : M A) :
  (forall w, post m w (fun _ w' => evolved w w') (evolved w)) -> evolves m.
Proof.
  intros H w. specialize (H w). unfold post in H.
  destruct (m w) as [[e | a] w']; exact H.
Qed.

Create HintDb keeps.
#[local] Hint Resolve keeps_ret keeps_raise keeps_logger keeps_orelse
  : keeps.

Lemma keeps_reference_array res mRID elems :
  forall array, keeps_store (reference_array res mRID elems array).
Proof. intros array w. now rewrite reference_array_run. Qed.

Lemma keeps_attribute_value res mRID elem v :
  keeps_store (attribute_value res mRID elem v).
Proof.
  assert (Hscalar : forall o : option pyobj,
    keeps_store
      (match o with
       | Some o =>
           UUID <- match mRID_attr o with
                   | None =>
                       let UUID := ("%" ++ _search_mRID o res)%string in
                       (if String.eqb UUID "%"
                        then
                          e <- orelse elem UnboundLocalError ;;
                          logger_warning
                            (not_found_message (type_name e) mRID)
                        else ret tt) ;;
                       ret UUID
                   | Some m => ret ("%" ++ m)%string
                   end ;;
           ret (Some (VStr UUID), elem)
       | None =>
           if py_eq v (LStr "") || is_None v
           then ret (None, elem)
           else ret (Some v, elem)
       end)).
  { intros [o |].
    - apply keeps_bind; [| auto with keeps].
      destruct (mRID_attr o); [auto with keeps |].
      cbv zeta. apply keeps_bind; [| auto with keeps].
      destruct (String.eqb _ _); [| auto with keeps].
      apply keeps_bind; intros; auto with keeps. apply keeps_logger.
    - destruct (py_eq v (LStr "") || is_None v); auto with keeps. }
  destruct v; try apply Hscalar.
  apply keeps_bind; [apply keeps_reference_array | auto with keeps].
Qed.

Lemma keeps_reference_loop res mRID attr_dict :
  forall st, keeps_store (reference_loop res mRID attr_dict st).
Proof.
  induction attr_dict as [| [key v] attr_dict IH]; intro st; simpl.
  - auto with keeps.
  - apply keeps_bind; [| exact IH].
    destruct st as [rl elem]. unfold reference_step.
    destruct (reserved key); [auto with keeps |].
    apply keeps_bind; [apply keeps_attribute_value | auto with keeps].
Qed.

Lemma keeps__get_reference_uuid attr_dict res mRID :
  keeps_store (_get_reference_uuid attr_dict res mRID).
Proof.
  apply keeps_bind; [apply keeps_reference_loop | auto with keeps].
Qed.

Lemma keeps_level_keys class_object class_name keys :
  forall st, keeps_store (level_keys class_object class_name keys st).
Proof.
  induction keys as [| key keys IH]; intros [d seen]; simpl.
  - auto with keeps.
  - destruct (str_in key seen); [apply IH |].
    apply keeps_bind; [auto with keeps | intro; apply IH].
Qed.

Lemma keeps_inheritance_loop class_object parents :
  forall st, keeps_store (inheritance_loop class_object parents st).
Proof.
  induction parents as [| [class_name keys] parents IH]; intro st; simpl.
  - auto with keeps.
  - apply keeps_bind; [apply keeps_level_keys |]. intro st'.
    apply keeps_bind; [| exact IH].
    destruct (negb (String.eqb class_name "Base")); [| auto with keeps].
    apply keeps_bind.
    + intro w. destruct (get (store w) class_name); reflexivity.
    + intros _. apply keeps_bind; [| auto with keeps].
      unfold possible_add.
      destruct (get (fst st') "possibleProfileList") as [[] |];
        auto with keeps.
Qed.

Lemma keeps__get_attributes class_object :
  keeps_store (_get_attributes class_object).
Proof.
  apply keeps_bind; [apply keeps_inheritance_loop | auto with keeps].
Qed.

Lemma keeps_class_attributes_loop res items :
  forall acc, keeps_store (class_attributes_loop res items acc).
Proof.
  induction items as [| [key obj] items IH]; intro acc; simpl.
  - auto with keeps.
  - apply keeps_bind; [apply keeps__get_attributes |]. intro d.
    apply keeps_bind; [apply keeps__get_reference_uuid |]. intro attrs.
    apply IH.
Qed.

Section OrchestratorFacts.

Variable cwd : string.
Variable path_join : string -> string -> string.
Variable path_exists : string -> bool.
Variable now : string.
Variable elapsed : string.
Variable namespaces_dict : dict string.
Variable file_name : string.

Let profile_loop' :=
  profile_loop cwd path_join path_exists now namespaces_dict file_name.
Let profile_step' :=
  profile_step cwd path_join path_exists now namespaces_dict file_name.
Let cim_export' :=
  cim_export cwd path_join path_exists now elapsed namespaces_dict file_name.

Lemma keeps_profile_step export_dict about_dict rendered entry :
  keeps_store (profile_step' export_dict about_dict rendered entry).
Proof.
  destruct entry as [profile_name short_name].
  unfold profile_step', profile_step.
  destruct (negb (has export_dict short_name)
            && negb (has about_dict short_name)); [auto with keeps |].
  cbv zeta.
  destruct (negb _); apply keeps_bind; intros; auto with keeps;
    apply keeps_logger.
Qed.

Lemma keeps_profile_loop export_dict about_dict profiles :
  forall rendered,
    keeps_store (profile_loop' export_dict about_dict profiles rendered).
Proof.
  induction profiles as [| entry profiles IH]; intro rendered; simpl.
  - auto with keeps.
  - apply keeps_bind; [apply keeps_profile_step | exact IH].
Qed.

Lemma cim_export_evolves res active : evolves (cim_export' res active).
Proof.
  unfold cim_export', cim_export.
  apply evolves_bind; [apply keeps_evolves, keeps_logger | intros _].
  apply evolves_bind;
    [apply keeps_evolves, keeps_class_attributes_loop | intro klasses].
  apply evolves_bind.
  { apply post_evolves. intro w.
    eapply post_mono; [apply _sort_classes_to_profile_spec | | auto].
    now intros plans w' (Hw & _). }
  intro plans.
  apply evolves_bind; [apply keeps_evolves, keeps_profile_loop | intro r].
  apply evolves_bind; [apply keeps_evolves, keeps_logger | intros _].
  apply keeps_evolves, keeps_ret.
Qed.

(** ** The order of the payloads *)

Lemma subsequence_nil {A} (l : list A) : subsequence [] l.
Proof. induction l; constructor; assumption. Qed.

Lemma profile_loop_order export_dict about_dict profiles :
  forall rendered w,
    post (profile_loop' export_dict about_dict profiles rendered) w
      (fun rendered' _ =>
         exists new,
           rendered' = rendered ++ new /\
           subsequence (map payload_profile new) (keys profiles))
      (fun _ => True).
Proof.
  induction profiles as [| [profile_name short_name] profiles IH];
    intros rendered w; simpl.
  - step. exists []. rewrite app_nil_r. split; [reflexivity | constructor].
  - step. unfold profile_step', profile_step.
    destruct (negb (has export_dict short_name)
              && negb (has about_dict short_name)).
    + step. eapply post_mono; [apply IH | | auto].
      intros rendered' _ (new & -> & Hsub). exists new.
      split; [reflexivity | now constructor].
    + cbv zeta. destruct (negb _).
      * step. step. step. eapply post_mono; [apply IH | | auto].
        intros rendered' _ (new & -> & Hsub).
        eexists (_ :: new). rewrite <- app_assoc. split; [reflexivity |].
        simpl. unfold payload_profile at 1. simpl. now constructor.
      * step. step. step. eapply post_mono; [apply IH | | auto].
        intros rendered' _ (new & -> & Hsub). exists new.
        split; [reflexivity | now constructor].
Qed.

Lemma cim_export_order res active w :
  post (cim_export' res active) w
    (fun rendered _ =>
       subsequence (map payload_profile rendered) (keys short_profile_name))
    (fun _ => True).
Proof.
  unfold cim_export', cim_export. step. step. step.
  eapply post_mono; [apply post_any | | auto]. intros klasses w1 _. step.
  eapply post_mono; [apply post_any | | auto]. intros plans w2 _. step.
  eapply post_mono; [apply profile_loop_order | | auto].
  intros rendered w3 (new & -> & Hsub). step. step. step. exact Hsub.
Qed.

End OrchestratorFacts.

(** * The claims *)

Import Examples.

(** ** Profile legality of attributes (C1) *)

(** An active entry of the provenance is the profile of the attribute:
    the allowed-profile sets are not looked at, and nothing is logged. *)
Lemma attribute_profile_provenance klass rp pl active c a q w :
  get rp a = Some q -> str_in q active = true -> q <> "" ->
  attribute_profile klass rp pl active c a w = (inr (Some q), w).
Proof.
  intros Hq Hact Hne. unfold attribute_profile. rewrite Hq, Hact.
  unfold bind, ret. apply String.eqb_neq in Hne. now rewrite Hne.
Qed.

(** C1, as the code has it: every attribute record filed under a profile
    (in the export plan or the about plan) has a profile that is active
    and that is either the attribute's provenance entry or a member of
    the attribute's allowed-profile set for its class. The provenance
    comes first: when the attribute has a provenance entry that is
    active, the record is filed under that entry, and the resolution
    returns the entry without a look at the allowed-profile set. The
    empty profile name, under which an attribute without allowed-profile
    entry is filed, is left aside. *)
Theorem attribute_profile_active_and_sourced :
  forall class_attributes_list active w export_dict about_dict w',
    _sort_classes_to_profile class_attributes_list active w
    = (inr (export_dict, about_dict), w') ->
    forall p l e v attr_name,
      get export_dict p = Some l \/ get about_dict p = Some l ->
      In e l -> In (AttrRecord v attr_name) (attributes e) ->
      p <> "" ->
      provenance_or_legal (store w) class_attributes_list active p e
        attr_name.
Proof.
  intros klasses active w export_dict about_dict w' Hrun p l e v attr_name
    Hget He Hr Hp.
  pose proof (post_run _ _ _ _ _ _
                (_sort_classes_to_profile_spec klasses active w) Hrun)
    as (_ & Hexp & Habout).
  assert (Hok : entry_ok (store w) klasses active p e
                  (AttrRecord v attr_name)).
  { destruct Hget as [Hget | Hget]; apply get_In in Hget;
      [eapply Hexp | eapply Habout]; eassumption. }
  destruct Hok as (klass & rp & pl & Hin & Hn & Hm & Hrp & Hpl & Hattr).
  destruct Hattr as (v' & attr' & c & a & [= <- <-] & Hc & Ha & _ & Hres).
  destruct Hres as [Hused Hres].
  assert (Hfirst : provenance_first klass rp pl active c a p).
  { intros q Hq Hact Hne. split; [exact (Hused q Hq Hact Hne) |].
    intro w0. now apply attribute_profile_provenance. }
  destruct (Hres Hp) as [[Hprov Hact] | [Hlegal Hact]];
    (split; [exact Hact |]); exists klass, rp, pl, c, a;
    (split; [exact Hin |]); (split; [exact Hn |]); (split; [exact Hm |]);
    (split; [exact Hrp |]); (split; [exact Hpl |]); (split; [exact Hc |]);
    (split; [exact Ha |]); (split; [| exact Hfirst]); auto.
Qed.

Lemma attribute_profile_active_and_sourced_witness :
  provenance_or_legal line_store [line] ["EQ"; "SV"] "SV"
    (mkClass "ACLineSegment" "L1" [AttrRecord (VInt 3) "ACLineSegment.r"])
    "ACLineSegment.r".
Proof.
  eapply (attribute_profile_active_and_sourced [line] ["EQ"; "SV"]
            (mkWorld line_store [])).
  - vm_compute. reflexivity.
  - right. reflexivity.
  - left. reflexivity.
  - left. reflexivity.
  - discriminate.
Defined.

(** C1 fails as stated: the resistance of the line was read from the
    StateVariables file, that profile is active, and the record is filed
    under SV although the allowed-profile set of [ACLineSegment.r] holds
    the rank of EQ only. *)
Lemma provenance_outside_allowed_set :
  fst (_sort_classes_to_profile [line] ["EQ"; "SV"] (mkWorld line_store []))
  = inr ([("EQ", [mkClass "ACLineSegment" "L1"
                    [AttrRecord (VInt 7) "ACLineSegment.x"]])],
         [("SV", [mkClass "ACLineSegment" "L1"
                    [AttrRecord (VInt 3) "ACLineSegment.r"]])])
  /\ allowed line_store ["ACLineSegment"] "ACLineSegment" "r" = Some [0%Z]
  /\ ~ legal line_store ["ACLineSegment"] "ACLineSegment" "r" "SV".
Proof.
  split; [vm_compute; reflexivity |]. split; [reflexivity |].
  intros (ranks & r & Ha & Hin & Hn). vm_compute in Ha.
  injection Ha as <-. destruct Hin as [<- | []]. discriminate Hn.
Qed.

(** ** Instances without a class profile (C2) *)

(** The part of C2 that the code keeps: when the class-level resolution
    ends with the [continue] of line 195, the instance adds nothing to
    either plan. *)
Lemma klass_step_skipped active st klass rp pl w w' :
  get_readInProfile klass = inr rp ->
  get_possibleProfileList klass = inr pl ->
  class_profile klass rp pl active w = (inr None, w') ->
  klass_step active st klass w = (inr st, w').
Proof.
  intros Hrp Hpl Hc. unfold klass_step. destruct st as [e a].
  rewrite Hrp, Hpl. unfold lift, bind, ret. now rewrite Hc.
Qed.

(** C2 at an instance whose class has no ['class'] entry in its
    possibleProfileList: the warning is logged, yet the instance is not
    dropped. It is filed in the export plan under the empty profile name
    and its attribute in the about plan under SSH. *)
Theorem class_without_profile_is_filed :
  _sort_classes_to_profile [bare_terminal] ["SSH"] (mkWorld bare_store [])
  = (inr ([("", [mkClass "Terminal" "T1" []])],
          [("SSH", [mkClass "Terminal" "T1"
                      [AttrRecord (VBool true) "Terminal.connected"]])]),
     mkWorld bare_store
       [(WARNING, "Class Terminal has no profile to export to.")]).
Proof. vm_compute. reflexivity. Qed.

(** ** Class-level resolution (C4) *)

(** The test of line 169 looks a profile name up in a list of ranks: a
    string equals no integer, so the test fails whatever the list. *)
Lemma name_in_ranks_false p ranks : name_in_ranks p ranks = false.
Proof.
  unfold name_in_ranks, py_in. induction ranks as [| r ranks IH]; simpl.
  - reflexivity.
  - exact IH.
Qed.

Lemma first_active_run active ranks w :
  Forall valid_rank ranks ->
  first_active active ranks w = (inr (first_active_name active ranks), w).
Proof.
  induction 1 as [| r ranks Hr _ IH]; simpl; [reflexivity |].
  unfold valid_rank in Hr. unfold bind.
  destruct (cgmesProfile_name r) as [n |]; [| contradiction]. simpl.
  destruct (str_in n active); [reflexivity | exact IH].
Qed.

Lemma bind_inr {A B} (m : M A) (k : A -> M B) w a w' :
  m w = (inr a, w') -> bind m k w = k a w'.
Proof. intro H. unfold bind. now rewrite H. Qed.

Lemma class_profiles_run pl c w d :
  str_in c pl = true -> get (store w) c = Some d ->
  class_profiles pl c w = (inr d, w).
Proof. intros Hc Hd. unfold class_profiles. now rewrite Hc, Hd. Qed.

Lemma sort_in_place_run pl c a w d l :
  str_in c pl = true -> get (store w) c = Some d -> get d a = Some l ->
  sort_in_place pl c a w
  = (inr (sort l), mkWorld (set (store w) c (set d a (sort l))) (log w)).
Proof.
  intros Hc Hd Hl. unfold sort_in_place.
  rewrite (bind_inr _ _ _ _ _ (class_profiles_run _ _ _ _ Hc Hd)).
  rewrite Hl. reflexivity.
Qed.

(** What the class-level resolution does for a class with a ['class']
    list of ranks, whatever the provenance says: the list is sorted and
    the first active profile is taken, and the instance is skipped when
    there is none. *)
Lemma class_profile_is_first_active klass rp pl active w d ranks :
  str_in (name klass) pl = true ->
  get (store w) (name klass) = Some d ->
  get d "class" = Some ranks ->
  Forall valid_rank ranks ->
  fst (class_profile klass rp pl active w)
  = inr (if String.eqb (first_active_name active (sort ranks)) "" then None
         else Some (first_active_name active (sort ranks))).
Proof.
  intros Hpl Hd Hranks Hvalid.
  assert (Hsorted : Forall valid_rank (sort ranks)).
  { rewrite Forall_forall in *. intros r Hr. apply Hvalid.
    now apply In_sort. }
  unfold class_profile.
  match goal with
  | |- fst (bind ?m _ w) = _ =>
      assert (Hfirst : exists w1, m w = (inr "", w1) /\ store w1 = store w)
  end.
  { destruct (get rp "class") as [p |]; [| now exists w].
    destruct (str_in p active); [| now eexists].
    rewrite (bind_inr _ _ _ _ _ (class_profiles_run _ _ _ _ Hpl Hd)).
    rewrite Hranks. unfold orelse.
    rewrite (bind_inr (ret ranks) _ w ranks w eq_refl).
    rewrite name_in_ranks_false. now eexists. }
  destruct Hfirst as (w1 & Hfirst & Hs).
  rewrite (bind_inr _ _ _ _ _ Hfirst). rewrite <- Hs in Hd.
  change (String.eqb "" "") with true. cbv iota. rewrite Hpl.
  rewrite (bind_inr _ _ _ _ _ (class_profiles_run _ _ _ _ Hpl Hd)).
  unfold has. rewrite Hranks.
  rewrite (bind_inr _ _ _ _ _ (sort_in_place_run _ _ _ _ _ _ Hpl Hd Hranks)).
  rewrite (bind_inr _ _ _ _ _ (first_active_run _ _ _ Hsorted)).
  destruct (String.eqb (first_active_name active (sort ranks)) "");
    reflexivity.
Qed.

(** C4 at a terminal read from the SteadyStateHypothesis file: SSH is
    active and is one of the allowed profiles of the class, and still the
    class is given the profile EQ, the first active one by rank. *)
Theorem class_provenance_is_not_used :
  fst (class_profile terminal [("class", "SSH")] ["Terminal"]
         ["EQ"; "SSH"] (mkWorld terminal_store []))
  = inr (Some "EQ")
  /\ get_readInProfile terminal = inr [("class", "SSH")]
  /\ str_in "SSH" ["EQ"; "SSH"] = true
  /\ legal terminal_store ["Terminal"] "Terminal" "class" "SSH".
Proof.
  split; [vm_compute; reflexivity |]. split; [reflexivity |].
  split; [reflexivity |].
  exists [4; 0; 1; 3; 2]%Z, 1%Z. split; [reflexivity |].
  split; [simpl; auto | reflexivity].
Qed.

(** ** References that cannot be resolved (C3) *)

(** C3, as the code has it: a model object in a list value that has no
    [mRID] attribute and is not found in the registry gets the warning
    that names its class and the owning object's identifier, and its
    reference is kept: a record whose value is the bare marker is emitted
    for it. The step ends without an exception. *)
Theorem unresolved_reference_is_kept :
  forall res mRID rl elem key elems o w,
    reserved key = None ->
    In (VObj o) elems ->
    base_subclass o = true -> mRID_attr o = None ->
    (forall k obj, In (k, obj) res -> oid (self obj) <> oid o) ->
    exists new elem' w',
      reference_step res mRID (rl, elem) (key, VList elems) w
      = (inr (rl ++ new, elem'), w') /\
      In (AttrRecord (VStr "%") key) new /\
      In (WARNING, not_found_message (cls_name o) mRID) (log w') /\
      store w' = store w.
Proof.
  intros res mRID rl elem key elems o w Hk Hin Hb Hm Hscan.
  pose proof (_search_mRID_not_found o res Hscan) as Hs.
  assert (Hbase : as_Base_instance (VObj o) = Some o).
  { simpl. now rewrite Hb. }
  eexists _, _, _. split; [now apply reference_step_list |]. simpl.
  repeat split.
  - apply in_map_iff. exists (VStr "%"). split; [reflexivity |].
    apply in_flat_map. exists (VObj o). split; [exact Hin |].
    rewrite Hbase. unfold token. rewrite Hm, Hs. now left.
  - apply in_or_app. right. apply in_flat_map. exists (VObj o).
    split; [exact Hin |]. rewrite Hbase. unfold unresolved.
    rewrite Hm, Hs. now left.
Qed.

Lemma unresolved_reference_is_kept_witness :
  exists new elem' w',
    reference_step [] "V1" ([], None)
      ("SvVoltage.TopologicalNode", VList [VObj node]) (mkWorld [] [])
    = (inr ([] ++ new, elem'), w') /\
    In (AttrRecord (VStr "%") "SvVoltage.TopologicalNode") new /\
    In (WARNING, not_found_message (cls_name node) "V1") (log w') /\
    store w' = store (mkWorld [] []).
Proof.
  apply (unresolved_reference_is_kept [] "V1" [] None
           "SvVoltage.TopologicalNode" [VObj node] node (mkWorld [] [])).
  - reflexivity.
  - left. reflexivity.
  - reflexivity.
  - reflexivity.
  - intros k obj [].
Defined.

(** C3 fails as stated: the node has no [mRID] and is in no registry
    entry, and the record with the empty reference token is emitted. *)
Lemma dangling_token_is_emitted :
  _get_reference_uuid [("SvVoltage.TopologicalNode", VList [VObj node])]
    [] "V1" (mkWorld [] [])
  = (inr [AttrRecord (VStr "%") "SvVoltage.TopologicalNode"],
     mkWorld []
       [(WARNING, not_found_message "TopologicalNode" "V1")])
  /\ mRID_attr node = None
  /\ _search_mRID node [] = "".
Proof. repeat split; vm_compute; reflexivity. Qed.

(** The same reference outside a list: the warning of line 72 reads the
    variable of the loop of line 44, which is not bound here. *)
Lemma scalar_reference_not_found_raises :
  _get_reference_uuid [("SvVoltage.TopologicalNode", VObj node)]
    [] "V1" (mkWorld [] [])
  = (inl UnboundLocalError, mkWorld [] []).
Proof. reflexivity. Qed.

(** ** Default values (C5) *)

Lemma py_in_scalar_defaults v :
  py_in v scalar_defaults = py_in v list_defaults || py_eq v (LStr "many").
Proof.
  unfold py_in, scalar_defaults, list_defaults. simpl.
  destruct (py_eq v (LStr "")), (py_eq v LNone),
    (py_eq v (LFloat zero_float)), (py_eq v (LInt 0)),
    (py_eq v (LStr "many")); reflexivity.
Qed.

Lemma default_is_no_object v :
  py_in v list_defaults = true -> as_Base_instance v = None.
Proof. destruct v; try reflexivity. discriminate. Qed.

Lemma scalar_default_is_skipped res mRID st key v w :
  reserved key = None -> py_in v list_defaults = true ->
  reference_step res mRID st (key, v) w = (inr st, w).
Proof.
  intros Hk Hd. destruct st as [rl elem].
  assert (Hs : py_in v scalar_defaults = true).
  { rewrite py_in_scalar_defaults, Hd. reflexivity. }
  pose proof (default_is_no_object v Hd) as Ho.
  unfold reference_step. rewrite Hk. unfold attribute_value.
  destruct v; try discriminate Hd; rewrite Ho;
    (destruct (py_eq _ (LStr "") || is_None _); unfold bind, ret;
     cbn [fst snd emitted]; [| rewrite Hs]; cbn [negb app];
     now rewrite app_nil_r).
Qed.

Lemma default_in_list_warns res mRID x elems :
  In x elems -> py_in x list_defaults = true ->
  In (WARNING, not_subclass_message mRID) (array_warnings res mRID elems).
Proof.
  intros Hin Hd. unfold array_warnings. apply in_flat_map. exists x.
  split; [exact Hin |]. rewrite (default_is_no_object x Hd). now left.
Qed.

(** C5, as the code has it: whatever the attribute map, no record that
    the reference resolver returns has a value equal to [''], [None], [0]
    or [0.0], and none has a list for its value, in which such a value
    could stand. An attribute whose value is such a default adds no
    record and logs nothing. A default that stands in a list is dropped
    as an element that is no model object: the list gives the records of
    the tokens of its model objects, and the warning of line 60 is
    logged. *)
Theorem no_default_value_emitted :
  forall attr_dict res mRID w rs w' key v list_key x elems st w1,
    reserved key = None ->
    py_in v list_defaults = true ->
    reserved list_key = None ->
    In x elems -> py_in x list_defaults = true ->
    (_get_reference_uuid attr_dict res mRID w = (inr rs, w') ->
     forall y k,
       In (AttrRecord y k) rs ->
       py_in y list_defaults = false /\ is_list y = false)
    /\ reference_step res mRID st (key, v) w1 = (inr st, w1)
    /\ reference_step res mRID st (list_key, VList elems) w1
       = (inr (fst st
               ++ map (fun t => AttrRecord t list_key) (tokens res elems),
               rebind (snd st) elems),
          mkWorld (store w1) (log w1 ++ array_warnings res mRID elems))
    /\ In (WARNING, not_subclass_message mRID)
         (array_warnings res mRID elems).
Proof.
  intros attr_dict res mRID w rs w' key v list_key x elems st w1 Hk Hv Hl
    Hin Hx.
  split; [| split; [| split]].
  - intros Hrun y k Hy.
    pose proof (post_run _ _ _ _ _ _
                  (_get_reference_uuid_clean attr_dict res mRID w) Hrun)
      as Hall.
    rewrite Forall_forall in Hall. destruct (Hall _ Hy) as [Hd Hlist].
    split; [| exact Hlist].
    rewrite py_in_scalar_defaults in Hd. now apply orb_false_elim in Hd.
  - now apply scalar_default_is_skipped.
  - destruct st as [rl elem]. now apply reference_step_list.
  - exact (default_in_list_warns res mRID x elems Hin Hx).
Qed.

Lemma no_default_value_emitted_witness :
  (_get_reference_uuid
     [("SvVoltage.v", VInt 110); ("SvVoltage.angle", VInt 0);
      ("SvVoltage.name", VStr "")] [] "V1" (mkWorld [] [])
   = (inr [AttrRecord (VInt 110) "SvVoltage.v"], mkWorld [] []) ->
   forall y k,
     In (AttrRecord y k) [AttrRecord (VInt 110) "SvVoltage.v"] ->
     py_in y list_defaults = false /\ is_list y = false)
  /\ reference_step [] "V1" ([], None) ("SvVoltage.angle", VInt 0)
       (mkWorld [] [])
     = (inr ([], None), mkWorld [] [])
  /\ reference_step [] "V1" ([], None)
       ("ConnectivityNode.Terminals", VList [VObj t1; VInt 0])
       (mkWorld [] [])
     = (inr (fst ([] : list record, None : option pyval)
             ++ map (fun t => AttrRecord t "ConnectivityNode.Terminals")
                  (tokens [] [VObj t1; VInt 0]),
             rebind (snd ([] : list record, None : option pyval))
               [VObj t1; VInt 0]),
        mkWorld (store (mkWorld [] []))
          (log (mkWorld [] [])
           ++ array_warnings [] "V1" [VObj t1; VInt 0]))
  /\ In (WARNING, not_subclass_message "V1")
       (array_warnings [] "V1" [VObj t1; VInt 0]).
Proof.
  apply (no_default_value_emitted
           [("SvVoltage.v", VInt 110); ("SvVoltage.angle", VInt 0);
            ("SvVoltage.name", VStr "")] [] "V1" (mkWorld [] [])
           [AttrRecord (VInt 110) "SvVoltage.v"] (mkWorld [] [])
           "SvVoltage.angle" (VInt 0) "ConnectivityNode.Terminals" (VInt 0)
           [VObj t1; VInt 0] ([], None) (mkWorld [] [])).
  - reflexivity.
  - reflexivity.
  - reflexivity.
  - right. left. reflexivity.
  - reflexivity.
Defined.

(** C5 fails as stated: the [0] in the list of terminals is dropped, but
    not silently. It is no model object, and the warning of line 60 is
    logged for it. *)
Lemma default_in_list_is_warned :
  _get_reference_uuid
    [("ConnectivityNode.Terminals", VList [VObj t1; VInt 0])] [] "C1"
    (mkWorld [] [])
  = (inr [AttrRecord (VStr "%T1") "ConnectivityNode.Terminals"],
     mkWorld []
       [(WARNING,
         "Reference object not subclass of Base class for object with UUID C1.")])
  /\ py_in (VInt 0) list_defaults = true.
Proof. split; reflexivity. Qed.

(** ** List values (C6) *)

(** C6, as the code has it: for a list value the step emits one scalar
    record per model element, in the order of the list and under the
    attribute's name, each holding the reference token of its element;
    elements that are no model objects are warned about and dropped. A
    list of one model element so gives one scalar token record, a longer
    one as many scalar records as it has model elements. The same holds
    of the whole function on a map of that one attribute. *)
Theorem list_value_one_record_per_element :
  forall res mRID rl elem key elems w,
    reserved key = None ->
    reference_step res mRID (rl, elem) (key, VList elems) w
    = (inr (rl ++ map (fun t => AttrRecord t key) (tokens res elems),
            rebind elem elems),
       mkWorld (store w) (log w ++ array_warnings res mRID elems))
    /\ _get_reference_uuid [(key, VList elems)] res mRID w
       = (inr (map (fun t => AttrRecord t key) (tokens res elems)),
          mkWorld (store w) (log w ++ array_warnings res mRID elems)).
Proof.
  intros res mRID rl elem key elems w Hk. split.
  - now apply reference_step_list.
  - unfold _get_reference_uuid, reference_loop, bind.
    rewrite reference_step_list by exact Hk. reflexivity.
Qed.

Lemma list_value_one_record_per_element_witness :
  reference_step [] "C1" ([], None)
    ("ConnectivityNode.Terminals", VList [VObj t1; VInt 5; VObj t2])
    (mkWorld [] [])
  = (inr ([] ++ map (fun t => AttrRecord t "ConnectivityNode.Terminals")
                  (tokens [] [VObj t1; VInt 5; VObj t2]),
          rebind None [VObj t1; VInt 5; VObj t2]),
     mkWorld [] ([] ++ array_warnings [] "C1" [VObj t1; VInt 5; VObj t2]))
  /\ _get_reference_uuid
       [("ConnectivityNode.Terminals", VList [VObj t1; VInt 5; VObj t2])]
       [] "C1" (mkWorld [] [])
     = (inr (map (fun t => AttrRecord t "ConnectivityNode.Terminals")
               (tokens [] [VObj t1; VInt 5; VObj t2])),
        mkWorld [] ([] ++ array_warnings [] "C1"
                            [VObj t1; VInt 5; VObj t2])).
Proof.
  apply (list_value_one_record_per_element [] "C1" [] None
           "ConnectivityNode.Terminals" [VObj t1; VInt 5; VObj t2]
           (mkWorld [] [])).
  reflexivity.
Defined.

(** C6 fails as stated: a list of two terminals, each with its [mRID],
    gives two scalar records and no record that holds the list. *)
Lemma two_references_two_records :
  _get_reference_uuid
    [("ConnectivityNode.Terminals", VList [VObj t1; VObj t2])]
    [] "C1" (mkWorld [] [])
  = (inr [AttrRecord (VStr "%T1") "ConnectivityNode.Terminals";
          AttrRecord (VStr "%T2") "ConnectivityNode.Terminals"],
     mkWorld [] [])
  /\ [AttrRecord (VStr "%T1") "ConnectivityNode.Terminals";
      AttrRecord (VStr "%T2") "ConnectivityNode.Terminals"]
     <> [AttrRecord (VList [VStr "%T1"; VStr "%T2"])
           "ConnectivityNode.Terminals"].
Proof. split; [reflexivity | discriminate]. Qed.

(** ** Values dropped beyond the documented defaults (C10) *)

(** C10: an attribute whose value is [False] or the string ['many'] adds
    no record and logs nothing, wherever it stands in the map, and no
    record with such a value is in what the resolver returns. *)
Theorem false_and_many_are_dropped :
  forall attr_dict res mRID w rs w' key v st w1,
    reserved key = None ->
    v = VBool false \/ v = VStr "many" ->
    py_in v scalar_defaults = true
    /\ reference_step res mRID st (key, v) w1 = (inr st, w1)
    /\ (_get_reference_uuid attr_dict res mRID w = (inr rs, w') ->
        forall k, ~ In (AttrRecord v k) rs).
Proof.
  intros attr_dict res mRID w rs w' key v [rl elem] w1 Hk Hv.
  assert (Hdef : py_in v scalar_defaults = true).
  { destruct Hv as [-> | ->]; reflexivity. }
  split; [exact Hdef |]. split.
  - unfold reference_step. rewrite Hk.
    destruct Hv as [-> | ->]; unfold bind; simpl; now rewrite app_nil_r.
  - intros Hrun k Hin.
    pose proof (post_run _ _ _ _ _ _
                  (_get_reference_uuid_clean attr_dict res mRID w) Hrun)
      as Hall.
    rewrite Forall_forall in Hall. destruct (Hall _ Hin) as [Hd _].
    congruence.
Qed.

Lemma false_and_many_are_dropped_witness :
  py_in (VBool false) scalar_defaults = true
  /\ reference_step [] "T1" ([], None) ("Terminal.connected", VBool false)
       (mkWorld [] [])
     = (inr ([], None), mkWorld [] [])
  /\ (_get_reference_uuid
        [("Terminal.connected", VBool false);
         ("Terminal.phases", VStr "many");
         ("Terminal.sequenceNumber", VInt 1)] [] "T1" (mkWorld [] [])
      = (inr [AttrRecord (VInt 1) "Terminal.sequenceNumber"], mkWorld [] [])
      -> forall k,
          ~ In (AttrRecord (VBool false) k)
              [AttrRecord (VInt 1) "Terminal.sequenceNumber"]).
Proof.
  apply (false_and_many_are_dropped
           [("Terminal.connected", VBool false);
            ("Terminal.phases", VStr "many");
            ("Terminal.sequenceNumber", VInt 1)] [] "T1" (mkWorld [] [])
           [AttrRecord (VInt 1) "Terminal.sequenceNumber"] (mkWorld [] [])
           "Terminal.connected" (VBool false) ([], None) (mkWorld [] [])).
  - reflexivity.
  - left. reflexivity.
Defined.

(** ** No [mRID] attribute in the plans (C9) *)

(** C9: no record of an entry of the export plan or of the about plan is
    an attribute named [mRID]. *)
Theorem mRID_is_never_filed :
  forall class_attributes_list active w export_dict about_dict w',
    _sort_classes_to_profile class_attributes_list active w
    = (inr (export_dict, about_dict), w') ->
    forall p l e v attr_name,
      get export_dict p = Some l \/ get about_dict p = Some l ->
      In e l -> In (AttrRecord v attr_name) (attributes e) ->
      attr_part attr_name 1 <> Some "mRID".
Proof.
  intros klasses active w export_dict about_dict w' Hrun p l e v attr_name
    Hget He Hr.
  pose proof (post_run _ _ _ _ _ _
                (_sort_classes_to_profile_spec klasses active w) Hrun)
    as (_ & Hexp & Habout).
  assert (Hok : entry_ok (store w) klasses active p e
                  (AttrRecord v attr_name)).
  { destruct Hget as [Hget | Hget]; apply get_In in Hget;
      [eapply Hexp | eapply Habout]; eassumption. }
  destruct Hok as (klass & rp & pl & _ & _ & _ & _ & _ & Hattr).
  destruct Hattr as (v' & attr' & c & a & [= <- <-] & _ & Ha & Hm & _).
  rewrite Ha. intros [= ->]. now apply Hm.
Qed.

Lemma mRID_is_never_filed_witness :
  attr_part "ACLineSegment.x" 1 <> Some "mRID".
Proof.
  eapply (mRID_is_never_filed [line] ["EQ"; "SV"] (mkWorld line_store []))
    with (p := "EQ").
  - vm_compute. reflexivity.
  - left. reflexivity.
  - left. reflexivity.
  - left. reflexivity.
Defined.

(** The step of the loop over the attributes leaves an [mRID] attribute
    out: nothing is filed, sorted or logged for it. *)
Lemma mRID_attribute_is_skipped klass rp pl active csp st v attr_name c w :
  attr_part attr_name 0 = Some c ->
  attr_part attr_name 1 = Some "mRID" ->
  attribute_step klass rp pl active csp st (AttrRecord v attr_name) w
  = (inr st, w).
Proof.
  intros Hc Hm. unfold attribute_step. destruct st as [same about_dict].
  rewrite Hc, Hm. reflexivity.
Qed.

(** The line of the example has an [mRID] record, which is in no plan. *)
Lemma line_mRID_is_skipped :
  In (AttrRecord (VStr "L1") "IdentifiedObject.mRID") (attributes line)
  /\ fst (_sort_classes_to_profile [line] ["EQ"; "SV"]
            (mkWorld line_store []))
     = inr ([("EQ", [mkClass "ACLineSegment" "L1"
                       [AttrRecord (VInt 7) "ACLineSegment.x"]])],
            [("SV", [mkClass "ACLineSegment" "L1"
                       [AttrRecord (VInt 3) "ACLineSegment.r"]])]).
Proof. split; [simpl; auto | vm_compute; reflexivity]. Qed.

(** ** The order of the profiles (C7) *)

(** C7, as the code has it: the payloads are handed to the renderer in
    the order in which the table [short_profile_name] lists the profiles,
    which is DiagramLayout, Dynamics, Equipment, GeographicalLocation,
    StateVariables, SteadyStateHypothesis, Topology. *)
Theorem payloads_follow_table_order :
  forall cwd path_join path_exists now elapsed namespaces_dict file_name
         res active w rendered w',
    cim_export cwd path_join path_exists now elapsed namespaces_dict
      file_name res active w = (inr rendered, w') ->
    subsequence (map payload_profile rendered)
      ["DiagramLayout"; "Dynamics"; "Equipment"; "GeographicalLocation";
       "StateVariables"; "SteadyStateHypothesis"; "Topology"].
Proof.
  intros cwd path_join path_exists now elapsed namespaces_dict file_name
    res active w rendered w' Hrun.
  exact (post_run _ _ _ _ _ _
           (cim_export_order cwd path_join path_exists now elapsed
              namespaces_dict file_name res active w) Hrun).
Qed.

Lemma payloads_follow_table_order_witness :
  subsequence
    (map payload_profile
       (match fst (export grid ["TP"; "SV"] (mkWorld grid_store [])) with
        | inr rendered => rendered
        | inl _ => []
        end))
    ["DiagramLayout"; "Dynamics"; "Equipment"; "GeographicalLocation";
     "StateVariables"; "SteadyStateHypothesis"; "Topology"].
Proof.
  eapply (payloads_follow_table_order "/out"
            (fun d f => d ++ "/" ++ f)%string (fun _ => false)
            "04/11/2026 12:00:00" "0.1" [] "grid" grid ["TP"; "SV"]
            (mkWorld grid_store [])).
  vm_compute. reflexivity.
Defined.

(** C7 fails as stated: with the profiles TP and SV active, the payload
    of StateVariables, of rank 3, is rendered before the payload of
    Topology, of rank 2. *)
Lemma state_variables_rendered_before_topology :
  (exists rendered w',
      export grid ["TP"; "SV"] (mkWorld grid_store []) = (inr rendered, w')
      /\ map payload_profile rendered = ["StateVariables"; "Topology"])
  /\ get short_profile_name "StateVariables" = Some "SV"
  /\ get short_profile_name "Topology" = Some "TP"
  /\ cgmesProfile_value "SV" = Some 3%Z
  /\ cgmesProfile_value "TP" = Some 2%Z.
Proof.
  split; [| repeat split; reflexivity].
  eexists _, _. split; [vm_compute; reflexivity | reflexivity].
Qed.

(** ** What the export changes (C8) *)

(** C8, as the code has it: the export reads the registry and changes
    nothing but the lists of the possibleProfileList dictionaries of the
    classes, which it may sort in place. After a run, whether it returns
    or raises, the store has the same classes and keys in the same order,
    and each list is as it was or sorted in ascending order. *)
Theorem export_only_sorts_profile_lists :
  forall cwd path_join path_exists now elapsed namespaces_dict file_name
         res active w,
    store_resorted (store w)
      (store (snd (cim_export cwd path_join path_exists now elapsed
                     namespaces_dict file_name res active w))).
Proof.
  intros. apply cim_export_evolves.
Qed.

(** C8 fails as stated: the export of a terminal sorts the list of the
    class's allowed profiles, which the class holds for all its
    instances. *)
Lemma export_sorts_class_profiles :
  get terminal_store "Terminal"
  = Some [("class", [4; 0; 1; 3; 2]%Z); ("connected", [1%Z]);
          ("sequenceNumber", [0%Z])]
  /\ get (store (snd (export terminals ["EQ"] (mkWorld terminal_store []))))
       "Terminal"
     = Some [("class", [0; 1; 2; 3; 4]%Z); ("connected", [1%Z]);
             ("sequenceNumber", [0%Z])]
  /\ store (snd (export terminals ["EQ"] (mkWorld terminal_store [])))
     <> terminal_store.
Proof.
  split; [reflexivity |]. split; [vm_compute; reflexivity |].
  vm_compute. discriminate.
Qed.

(** * Further properties of the export *)

(** ** Splitting strings *)

Lemma string_app_assoc (a b c : string) :
  ((a ++ b) ++ c = a ++ (b ++ c))%string.
Proof. induction a as [| x a IH]; simpl; [reflexivity | now rewrite IH]. Qed.

Lemma string_app_nil_r (a : string) : (a ++ "")%string = a.
Proof. induction a as [| x a IH]; simpl; [reflexivity | now rewrite IH]. Qed.

Lemma char_in_app c a b : char_in c (a ++ b) = char_in c a || char_in c b.
Proof.
  induction a as [| c' a IH]; simpl; [reflexivity |].
  now rewrite IH, orb_assoc.
Qed.

Lemma split_no_sep sep s : char_in sep s = false -> split sep s = [s].
Proof.
  induction s as [| c s IH]; simpl; [reflexivity |].
  intro H. apply orb_false_elim in H. destruct H as [Hc Hs].
  rewrite Hc, (IH Hs). reflexivity.
Qed.

Lemma split_app_sep sep a b :
  char_in sep a = false ->
  split sep (a ++ String sep b) = a :: split sep b.
Proof.
  induction a as [| c a IH]; simpl.
  - intros _. now rewrite Ascii.eqb_refl.
  - intro H. apply orb_false_elim in H. destruct H as [Hc Ha].
    rewrite Hc, (IH Ha). reflexivity.
Qed.

Lemma split_with_sep sep s :
  char_in sep s = true -> exists h1 h2 t, split sep s = h1 :: h2 :: t.
Proof.
  induction s as [| c s IH]; simpl; [discriminate |].
  destruct (Ascii.eqb c sep) eqn:Hc; simpl.
  - intros _. destruct s as [| c' s']; simpl; [now eexists _, _, _ |].
    destruct (Ascii.eqb c' sep); [now eexists _, _, _ |].
    destruct (split sep s'); now eexists _, _, _.
  - intro Hs. destruct (IH Hs) as (h1 & h2 & t & ->). now eexists _, _, _.
Qed.

(** ** The lambdas of the renderer *)

Lemma set_reference_run :
  forall text render a b c,
    render text = (a ++ "%" ++ b ++ "@" ++ c)%string ->
    char_in "@" a = false -> char_in "%" a = false ->
    char_in "@" b = false -> char_in "%" b = false ->
    _set_attribute_or_reference text render
    = inr (resource_tag ("#" ++ b))
    /\ _set_attribute_or_reference_model text render
       = inr (resource_tag b).
Proof.
  intros text render a b c Hr Ha Ha' Hb Hb'.
  assert (Hsplit : split "@" (render text)
                   = (a ++ "%" ++ b)%string :: split "@" c).
  { rewrite Hr.
    replace (a ++ "%" ++ b ++ "@" ++ c)%string
      with ((a ++ "%" ++ b) ++ String "@" c)%string.
    - apply split_app_sep. rewrite char_in_app, Ha. simpl. exact Hb.
    - rewrite string_app_assoc. reflexivity. }
  assert (Hvalue : split "%" (a ++ String "%" b) = [a; b]).
  { rewrite split_app_sep by exact Ha'. now rewrite split_no_sep. }
  assert (Hin : char_in "%" (a ++ String "%" b) = true).
  { rewrite char_in_app. simpl. apply orb_true_r. }
  assert (Hname : exists n t, split "@" c = n :: t).
  { destruct c as [| x c]; simpl; [now eexists _, _ |].
    destruct (Ascii.eqb x "@"); [now eexists _, _ |].
    destruct (split "@" c); now eexists _, _. }
  destruct Hname as (n & t & Hn). rewrite Hn in Hsplit.
  unfold _set_attribute_or_reference, _set_attribute_or_reference_model.
  rewrite Hsplit. simpl nth_error. cbv beta iota.
  rewrite Hin, Hvalue. split; reflexivity.
Qed.

(** X1: when the rendered text is a value with a percent sign, an at sign
    and an attribute name, both lambdas give the self-closing reference to
    what stands between the percent sign and the at sign, with the hash
    for a model object and without it for the header; what stands before
    the percent sign is dropped. *)
Theorem reference_is_rendered_as_resource :
  forall text render a b c,
    render text = (a ++ "%" ++ b ++ "@" ++ c)%string ->
    char_in "@" a = false -> char_in "%" a = false ->
    char_in "@" b = false -> char_in "%" b = false ->
    _set_attribute_or_reference text render
    = inr (resource_tag ("#" ++ b))
    /\ _set_attribute_or_reference_model text render
       = inr (resource_tag b).
Proof. exact set_reference_run. Qed.

Lemma reference_is_rendered_as_resource_witness :
  _set_attribute_or_reference "{{value}}@{{attr_name}}"
    (fun _ => "%N1@SvVoltage.TopologicalNode")
  = inr (resource_tag ("#" ++ "N1"))
  /\ _set_attribute_or_reference_model "{{value}}@{{attr_name}}"
       (fun _ => "%N1@SvVoltage.TopologicalNode")
     = inr (resource_tag "N1").
Proof.
  apply (reference_is_rendered_as_resource "{{value}}@{{attr_name}}"
           (fun _ => "%N1@SvVoltage.TopologicalNode") "" "N1"
           "SvVoltage.TopologicalNode"); reflexivity.
Defined.

(** X2: when the rendered text is a value without percent sign, an at
    sign and an attribute name, both lambdas close the opening tag, write
    the value, and add the closing tag of the attribute, in the namespace
    [cim] for a model object and as [md:Model.] for the header. *)
Theorem plain_value_is_rendered_as_element :
  forall text render v n,
    render text = (v ++ "@" ++ n)%string ->
    char_in "@" v = false -> char_in "%" v = false ->
    char_in "@" n = false ->
    _set_attribute_or_reference text render
    = inr (">" ++ v ++ "</cim:" ++ n ++ ">")%string
    /\ _set_attribute_or_reference_model text render
       = inr (">" ++ v ++ "</md:Model." ++ n ++ ">")%string.
Proof.
  intros text render v n Hr Hv Hv' Hn.
  assert (Hsplit : split "@" (render text) = [v; n]).
  { rewrite Hr. change (v ++ "@" ++ n)%string with (v ++ String "@" n)%string.
    rewrite split_app_sep by exact Hv. now rewrite split_no_sep. }
  unfold _set_attribute_or_reference, _set_attribute_or_reference_model.
  rewrite Hsplit. simpl nth_error. cbv beta iota. rewrite Hv'.
  unfold cat. simpl. split; reflexivity.
Qed.

Lemma plain_value_is_rendered_as_element_witness :
  _set_attribute_or_reference "{{value}}@{{attr_name}}"
    (fun _ => "110@SvVoltage.v")
  = inr (">" ++ "110" ++ "</cim:" ++ "SvVoltage.v" ++ ">")%string
  /\ _set_attribute_or_reference_model "{{value}}@{{attr_name}}"
       (fun _ => "110@SvVoltage.v")
     = inr (">" ++ "110" ++ "</md:Model." ++ "SvVoltage.v" ++ ">")%string.
Proof.
  apply (plain_value_is_rendered_as_element "{{value}}@{{attr_name}}"
           (fun _ => "110@SvVoltage.v") "110" "SvVoltage.v"); reflexivity.
Defined.

Lemma set_lambdas_return text render :
  char_in "@" (render text) = true ->
  (exists s, _set_attribute_or_reference text render = inr s)
  /\ (exists s, _set_attribute_or_reference_model text render = inr s).
Proof.
  intro H. destruct (split_with_sep _ _ H) as (value & n & t & Hs).
  unfold _set_attribute_or_reference, _set_attribute_or_reference_model.
  rewrite Hs. simpl nth_error. cbv beta iota.
  destruct (char_in "%" value) eqn:Hv; [| split; now eexists].
  destruct (split_with_sep _ _ Hv) as (h1 & h2 & t' & Hv2). rewrite Hv2.
  split; now eexists.
Qed.

(** X3: the two lambdas raise exactly when the rendered text has no at
    sign, and what they raise then is the [IndexError] of [result[1]];
    the lookup of the reference after the percent sign never raises. *)
Theorem set_lambdas_raise_without_at_sign :
  forall text render,
    if char_in "@" (render text)
    then (exists s, _set_attribute_or_reference text render = inr s)
         /\ (exists s, _set_attribute_or_reference_model text render = inr s)
    else _set_attribute_or_reference text render = inl IndexError
         /\ _set_attribute_or_reference_model text render = inl IndexError.
Proof.
  intros text render. destruct (char_in "@" (render text)) eqn:H.
  - now apply set_lambdas_return.
  - unfold _set_attribute_or_reference, _set_attribute_or_reference_model.
    rewrite (split_no_sep _ _ H). split; reflexivity.
Qed.

(** ** The identity scan *)

(** X4: [_search_mRID] returns the key of the first entry of the registry
    that holds the object, and the empty string when no entry holds it. *)
Theorem _search_mRID_first_match :
  forall o res,
    (exists pre k obj post,
        res = pre ++ (k, obj) :: post /\
        same_object o (self obj) = true /\
        (forall k' obj', In (k', obj') pre ->
                         same_object o (self obj') = false) /\
        _search_mRID o res = k)
    \/ ((forall k obj, In (k, obj) res -> same_object o (self obj) = false)
        /\ _search_mRID o res = "").
Proof.
  intros o res. induction res as [| [k obj] res IH]; simpl.
  - right. split; [intros k obj [] | reflexivity].
  - destruct (same_object o (self obj)) eqn:Hs.
    + left. exists [], k, obj, res. repeat split; auto. intros k' obj' [].
    + destruct IH as [(pre & k1 & obj1 & post & -> & Hs1 & Hpre & Hr)
                     | [Hnone Hr]].
      * left. exists ((k, obj) :: pre), k1, obj1, post. repeat split; auto.
        intros k' obj' [[= <- <-] | Hin]; [exact Hs | eauto].
      * right. split; [| exact Hr].
        intros k' obj' [[= <- <-] | Hin]; [exact Hs | eauto].
Qed.

Lemma _search_mRID_found o pre k obj post :
  same_object o (self obj) = true ->
  (forall k' obj', In (k', obj') pre -> same_object o (self obj') = false) ->
  _search_mRID o (pre ++ (k, obj) :: post) = k.
Proof.
  intros Hs Hpre. induction pre as [| [k' obj'] pre IH]; simpl.
  - now rewrite Hs.
  - rewrite (Hpre k' obj') by now left. apply IH.
    intros k2 obj2 Hin. apply (Hpre k2 obj2). now right.
Qed.

(** ** References in the reference resolver *)



(** X6: a model object without [mRID] attribute that the registry holds,
    first under the key [k], which is not empty, gives one record whose
    value is the marker followed by [k], and nothing is logged. *)
Theorem reference_by_registry_key :
  forall pre k obj post mRID rl elem key o w,
    reserved key = None ->
    base_subclass o = true -> mRID_attr o = None ->
    same_object o (self obj) = true ->
    (forall k' obj', In (k', obj') pre -> same_object o (self obj') = false) ->
    k <> "" ->
    reference_step (pre ++ (k, obj) :: post) mRID (rl, elem) (key, VObj o) w
    = (inr (rl ++ [AttrRecord (VStr ("%" ++ k)) key], elem), w).
Proof.
  intros pre k obj post mRID rl elem key o w Hk Hb Hm Hs Hpre Hne.
  unfold reference_step. rewrite Hk. unfold attribute_value, as_Base_instance.
  rewrite Hb, Hm. cbv zeta. rewrite (_search_mRID_found _ _ _ _ _ Hs Hpre).
  assert (Hk' : String.eqb ("%" ++ k) "%" = false).
  { simpl. destruct k; [now contradiction Hne | reflexivity]. }
  rewrite Hk'. reflexivity.
Qed.

Lemma reference_by_registry_key_witness :
  reference_step
    ([] ++ ("N7", mkModel node [] [] []) :: []) "V1" ([], None)
    ("SvVoltage.TopologicalNode", VObj node) (mkWorld [] [])
  = (inr ([] ++ [AttrRecord (VStr ("%" ++ "N7"))
                   "SvVoltage.TopologicalNode"], None),
     mkWorld [] []).
Proof.
  apply (reference_by_registry_key [] "N7" (mkModel node [] [] []) []
           "V1" [] None "SvVoltage.TopologicalNode" node (mkWorld [] []));
    try reflexivity.
  - intros k' obj' [].
  - discriminate.
Defined.

(** ** Exceptions of the reference resolver *)

Lemma raises_only_ret {A} P (a : A) : raises_only P (ret a).
Proof. intros w e w' H. discriminate H. Qed.

Lemma raises_only_logger P l msg : raises_only P (logger l msg).
Proof. intros w e w' H. discriminate H. Qed.

Lemma raises_only_raise {A} (P : exn -> Prop) e :
  P e -> raises_only P (@raise A e).
Proof. intros He w e' w' [= <- _]. exact He. Qed.

Lemma raises_only_orelse {A} (P : exn -> Prop) (o : option A) e :
  P e -> raises_only P (orelse o e).
Proof.
  intro He. destruct o; [apply raises_only_ret | now apply raises_only_raise].
Qed.

Lemma raises_only_bind {A B} P (m : M A) (k : A -> M B) :
  raises_only P m -> (forall a, raises_only P (k a)) ->
  raises_only P (bind m k).
Proof.
  intros Hm Hk w e w'. unfold bind.
  destruct (m w) as [[e1 | a] w1] eqn:Hr.
  - intros [= <- <-]. exact (Hm _ _ _ Hr).
  - apply Hk.
Qed.

Create HintDb raises.
#[local] Hint Resolve raises_only_ret raises_only_logger raises_only_raise
  raises_only_orelse : raises.

Lemma raises_only_attribute_value res mRID elem v :
  raises_only (fun e => e = UnboundLocalError)
    (attribute_value res mRID elem v).
Proof.
  assert (Hscalar : forall o : option pyobj,
    raises_only (fun e => e = UnboundLocalError)
      (match o with
       | Some o =>
           UUID <- match mRID_attr o with
                   | None =>
                       let UUID := ("%" ++ _search_mRID o res)%string in
                       (if String.eqb UUID "%"
                        then
                          e <- orelse elem UnboundLocalError ;;
                          logger_warning
                            (not_found_message (type_name e) mRID)
                        else ret tt) ;;
                       ret UUID
                   | Some m => ret ("%" ++ m)%string
                   end ;;
           ret (Some (VStr UUID), elem)
       | None =>
           if py_eq v (LStr "") || is_None v
           then ret (None, elem)
           else ret (Some v, elem)
       end)).
  { intros [o |].
    - apply raises_only_bind; [| auto with raises].
      destruct (mRID_attr o); [auto with raises |].
      cbv zeta. apply raises_only_bind; [| auto with raises].
      destruct (String.eqb _ _); [| auto with raises].
      apply raises_only_bind; intros; auto with raises.
      apply raises_only_logger.
    - destruct (py_eq v (LStr "") || is_None v); auto with raises. }
  destruct v; try apply Hscalar.
  apply raises_only_bind; [| auto with raises].
  intros w e w' H. rewrite reference_array_run in H. discriminate H.
Qed.

Lemma raises_only_reference_loop res mRID attr_dict :
  forall st,
    raises_only (fun e => e = UnboundLocalError)
      (reference_loop res mRID attr_dict st).
Proof.
  induction attr_dict as [| [key v] attr_dict IH]; intro st; simpl.
  - auto with raises.
  - apply raises_only_bind; [| exact IH].
    destruct st as [rl elem]. unfold reference_step.
    destruct (reserved key); [auto with raises |].
    apply raises_only_bind;
      [apply raises_only_attribute_value | auto with raises].
Qed.

(** X7: the only exception of [_get_reference_uuid] is the
    [UnboundLocalError] of line 73, and the store is then as it was. *)
Theorem _get_reference_uuid_raises_unbound_only :
  forall attr_dict res mRID w e w',
    _get_reference_uuid attr_dict res mRID w = (inl e, w') ->
    e = UnboundLocalError /\ store w' = store w.
Proof.
  intros attr_dict res mRID w e w' H. split.
  - assert (Hr : raises_only (fun e => e = UnboundLocalError)
                   (_get_reference_uuid attr_dict res mRID)).
    { apply raises_only_bind;
        [apply raises_only_reference_loop | auto with raises]. }
    exact (Hr _ _ _ H).
  - pose proof (keeps__get_reference_uuid attr_dict res mRID w) as Hs.
    rewrite H in Hs. exact Hs.
Qed.

Lemma _get_reference_uuid_raises_unbound_only_witness :
  UnboundLocalError = UnboundLocalError
  /\ store (mkWorld [] []) = store (mkWorld [] []).
Proof.
  apply (_get_reference_uuid_raises_unbound_only
           [("SvVoltage.TopologicalNode", VObj node)] [] "V1"
           (mkWorld [] []) UnboundLocalError (mkWorld [] [])).
  reflexivity.
Defined.

Lemma attribute_value_returns res mRID elem v w :
  (forall o, v = VObj o -> base_subclass o = true ->
             unresolved res o = false) ->
  post (attribute_value res mRID elem v) w (fun _ _ => True)
    (fun _ => False).
Proof.
  intro Hv. destruct v;
    try (unfold attribute_value, as_Base_instance;
         match goal with
         | |- post (if ?b then _ else _) _ _ _ => destruct b
         end; step; exact I).
  - (* a model object or another object *)
    unfold attribute_value, as_Base_instance.
    destruct (base_subclass o) eqn:Hb.
    + specialize (Hv o eq_refl Hb). unfold unresolved in Hv.
      destruct (mRID_attr o) as [m |].
      * step. step. step. exact I.
      * cbv zeta. rewrite Hv. step. step. step. step. step. exact I.
    + destruct (py_eq (VObj o) (LStr "") || is_None (VObj o)); step; exact I.
  - (* a list *)
    unfold attribute_value, post, bind. rewrite reference_array_run.
    exact I.
Qed.

Lemma reference_loop_returns res mRID attr_dict :
  scalar_refs_resolve res attr_dict ->
  forall st w,
    post (reference_loop res mRID attr_dict st) w (fun _ _ => True)
      (fun _ => False).
Proof.
  induction attr_dict as [| [key v] attr_dict IH]; intros Hres st w; simpl.
  - step. exact I.
  - step. destruct st as [rl elem]. unfold reference_step.
    assert (Hrest : scalar_refs_resolve res attr_dict).
    { intros k o Hin. apply (Hres k o). now right. }
    destruct (reserved key).
    + step. now apply IH.
    + step. eapply post_mono; [apply attribute_value_returns | | auto].
      * intros o -> Hb. apply (Hres key o); [now left | exact Hb].
      * intros r w' _. step. now apply IH.
Qed.

(** X8: [_get_reference_uuid] returns its list of records, without an
    exception, whenever every model object that is the value of an
    attribute has an [mRID] or a registry key that is not empty. *)
Theorem _get_reference_uuid_returns :
  forall attr_dict res mRID w,
    scalar_refs_resolve res attr_dict ->
    exists rs w', _get_reference_uuid attr_dict res mRID w = (inr rs, w').
Proof.
  intros attr_dict res mRID w Hres.
  pose proof (reference_loop_returns res mRID attr_dict Hres ([], None) w)
    as H.
  unfold _get_reference_uuid, bind. unfold post in H.
  destruct (reference_loop res mRID attr_dict ([], None) w) as [[e | st] w'];
    [contradiction | now eexists _, _].
Qed.

Lemma _get_reference_uuid_returns_witness :
  exists rs w',
    _get_reference_uuid
      [("SvVoltage.v", VInt 110); ("SvVoltage.TopologicalNode", VObj t1)]
      [] "V1" (mkWorld [] [])
    = (inr rs, w').
Proof.
  apply (_get_reference_uuid_returns
           [("SvVoltage.v", VInt 110); ("SvVoltage.TopologicalNode", VObj t1)]
           [] "V1" (mkWorld [] [])).
  intros key o [[= _] | [[= _ <-] | []]] _. reflexivity.
Defined.

(** ** The order of the records *)

Lemma emitted_named key value :
  Forall (fun r => exists v, r = AttrRecord v key) (emitted key value).
Proof.
  destruct value as [v |]; [| constructor].
  assert (Hscalar :
    Forall (fun r => exists v, r = AttrRecord v key)
      (if negb (py_in v scalar_defaults) then [AttrRecord v key] else [])).
  { destruct (negb (py_in v scalar_defaults)); repeat constructor.
    now eexists. }
  destruct v; try exact Hscalar.
  simpl. apply Forall_forall. intros r Hr. apply in_map_iff in Hr.
  destruct Hr as (item & <- & _). now eexists.
Qed.

Lemma reference_step_block res mRID rl elem kv w :
  post (reference_step res mRID (rl, elem) kv) w
    (fun st' _ => exists block, fst st' = rl ++ block /\ block_of kv block)
    (fun _ => True).
Proof.
  destruct kv as [key v]. unfold reference_step, block_of. simpl fst.
  destruct (reserved key) as [k |] eqn:Hk; simpl snd.
  - step. now eexists.
  - step. eapply post_mono; [apply post_any | | auto].
    intros r w' _. step. eexists. split; [reflexivity |]. apply emitted_named.
Qed.

Lemma reference_loop_blocks res mRID attr_dict :
  forall rl elem w,
    post (reference_loop res mRID attr_dict (rl, elem)) w
      (fun st' _ =>
         exists blocks,
           Forall2 block_of attr_dict blocks /\
           fst st' = rl ++ List.concat blocks)
      (fun _ => True).
Proof.
  induction attr_dict as [| kv attr_dict IH]; intros rl elem w; simpl.
  - step. exists []. split; [constructor | now rewrite app_nil_r].
  - step. eapply post_mono; [apply reference_step_block | | auto].
    intros [rl' elem'] w' (block & Hrl & Hblock). simpl in Hrl. subst rl'.
    eapply post_mono; [apply IH | | auto].
    intros st' w'' (blocks & Hall & ->). exists (block :: blocks).
    split; [now constructor |]. simpl. now rewrite app_assoc.
Qed.

(** X9: the records that [_get_reference_uuid] returns follow the order
    of the attribute map: they are the concatenation of one block per
    entry, which for a reserved key is the entry itself as a metadata
    record and for any other key holds attribute records of that name
    only. *)
Theorem records_follow_attribute_order :
  forall attr_dict res mRID w rs w',
    _get_reference_uuid attr_dict res mRID w = (inr rs, w') ->
    exists blocks,
      Forall2 block_of attr_dict blocks /\ rs = List.concat blocks.
Proof.
  intros attr_dict res mRID w rs w' Hrun.
  assert (H : post (_get_reference_uuid attr_dict res mRID) w
                (fun rs _ => exists blocks,
                     Forall2 block_of attr_dict blocks /\ rs = List.concat blocks)
                (fun _ => True)).
  { unfold _get_reference_uuid. step.
    eapply post_mono; [apply reference_loop_blocks | | auto].
    intros st w1 (blocks & Hall & Hst). step. now exists blocks. }
  exact (post_run _ _ _ _ _ _ H Hrun).
Qed.

Lemma records_follow_attribute_order_witness :
  exists blocks,
    Forall2 block_of
      [("readInProfile", VReadIn []); ("SvVoltage.v", VInt 110);
       ("SvVoltage.angle", VInt 0)] blocks
    /\ [MetaRecord ReadInProfileKey (VReadIn []);
        AttrRecord (VInt 110) "SvVoltage.v"] = List.concat blocks.
Proof.
  apply (records_follow_attribute_order
           [("readInProfile", VReadIn []); ("SvVoltage.v", VInt 110);
            ("SvVoltage.angle", VInt 0)] [] "V1" (mkWorld [] [])
           _ (mkWorld [] [])).
  reflexivity.
Defined.

(** ** Runs and their exceptions *)

Lemma ends_ret {A} (a : A) w (Q : A -> world -> Prop) E :
  Q a w -> ends (ret a) w Q E.
Proof. intro H; exact H. Qed.

Lemma ends_raise {A} e w (Q : A -> world -> Prop)
  (E : exn -> world -> Prop) :
  E e w -> ends (raise e) w Q E.
Proof. intro H; exact H. Qed.

Lemma ends_bind {A B} (m : M A) (k : A -> M B) w Q E :
  ends m w (fun a w' => ends (k a) w' Q E) E -> ends (bind m k) w Q E.
Proof.
  unfold ends, bind. destruct (m w) as [[e | a] w']; auto.
Qed.

Lemma ends_mono {A} (m : M A) w (Q Q' : A -> world -> Prop)
  (E E' : exn -> world -> Prop) :
  ends m w Q E ->
  (forall a w', Q a w' -> Q' a w') -> (forall e w', E e w' -> E' e w') ->
  ends m w Q' E'.
Proof.
  unfold ends. destruct (m w) as [[e | a] w']; auto.
Qed.

Lemma ends_logger l msg w (Q : unit -> world -> Prop) E :
  Q tt (mkWorld (store w) (log w ++ [(l, msg)])) -> ends (logger l msg) w Q E.
Proof. intro H; exact H. Qed.

Lemma ends_orelse {A} (o : option A) e w (Q : A -> world -> Prop)
  (E : exn -> world -> Prop) :
  (forall a, o = Some a -> Q a w) -> (o = None -> E e w) ->
  ends (orelse o e) w Q E.
Proof.
  intros HQ HE. destruct o as [a |]; [apply HQ | apply HE]; reflexivity.
Qed.

Lemma ends_lift {A} (r : exn + A) w (Q : A -> world -> Prop)
  (E : exn -> world -> Prop) :
  (forall a, r = inr a -> Q a w) -> (forall e, r = inl e -> E e w) ->
  ends (lift r) w Q E.
Proof.
  intros HQ HE. destruct r as [e | a]; [apply HE | apply HQ]; reflexivity.
Qed.

Lemma ends_returned {A} (m : M A) w Q E a w' :
  ends m w Q E -> m w = (inr a, w') -> Q a w'.
Proof. unfold ends. intros H Hr. rewrite Hr in H. exact H. Qed.

Lemma ends_raised {A} (m : M A) w Q E e w' :
  ends m w Q E -> m w = (inl e, w') -> E e w'.
Proof. unfold ends. intros H Hr. rewrite Hr in H. exact H. Qed.

Ltac estep :=
  lazymatch goal with
  | |- ends (bind _ _) _ _ _ => apply ends_bind
  | |- ends (ret _) _ _ _ => apply ends_ret
  | |- ends (raise _) _ _ _ => apply ends_raise
  | |- ends (logger_warning _) _ _ _ => apply ends_logger
  | |- ends (logger_info _) _ _ _ => apply ends_logger
  | |- ends (orelse _ _) _ _ _ => apply ends_orelse; [intros ? ? |intros ?]
  | |- ends (lift _) _ _ _ => apply ends_lift; intros ? ?
  end.

(** ** The attribute extractor *)

Lemma str_in_In s l : str_in s l = true <-> In s l.
Proof.
  unfold str_in. rewrite existsb_exists. split.
  - intros (x & Hin & Heq). apply String.eqb_eq in Heq. now subst.
  - intro Hin. exists s. split; [exact Hin | apply String.eqb_refl].
Qed.

Lemma str_in_not_In s l : str_in s l = false <-> ~ In s l.
Proof.
  rewrite <- str_in_In. destruct (str_in s l); split; intro H.
  - discriminate H.
  - now contradiction H.
  - intro H'. discriminate H'.
  - reflexivity.
Qed.

Lemma dotted c key : char_in "." (c ++ "." ++ key) = true.
Proof. rewrite char_in_app. simpl. apply orb_true_r. Qed.

Lemma eqb_dotless a k :
  char_in "." a = false -> char_in "." k = true -> String.eqb a k = false.
Proof.
  intros Ha Hk. destruct (String.eqb_spec a k) as [-> | _]; [| reflexivity].
  congruence.
Qed.

Lemma set_cons_other {V} (d : dict V) k' v' k v :
  String.eqb k' k = false -> set ((k', v') :: d) k v = (k', v') :: set d k v.
Proof. intro H. simpl. now rewrite H. Qed.

Lemma set_after_meta r cs attrs k v :
  char_in "." k = true ->
  set (meta_entries r cs ++ attrs) k v = meta_entries r cs ++ set attrs k v.
Proof.
  intro Hk. unfold meta_entries. simpl app.
  rewrite set_cons_other by (apply eqb_dotless; [reflexivity | exact Hk]).
  rewrite set_cons_other by (apply eqb_dotless; [reflexivity | exact Hk]).
  reflexivity.
Qed.

Lemma Forall_set {V} (P : string * V -> Prop) (d : dict V) k v :
  Forall P d -> P (k, v) -> Forall P (set d k v).
Proof.
  intros Hd Hkv. induction Hd as [| [k' v'] d Hx Hd IH]; simpl.
  - now constructor.
  - destruct (String.eqb_spec k' k) as [-> | _]; constructor; auto.
Qed.

Lemma possible_add_meta r cs attrs c :
  possible_add (meta_entries r cs ++ attrs) c
  = ret (meta_entries r (if str_in c cs then cs else cs ++ [c]) ++ attrs).
Proof. reflexivity. Qed.

Section GetAttributes.

Variable class_object : ModelObject.

Let r := readInProfile class_object.
Let whole := inheritance_list class_object.

Lemma level_keys_spec pre c ks post :
  whole = pre ++ (c, ks) :: post ->
  forall keys done,
    ks = done ++ keys ->
    forall cs attrs seen w,
      Forall (attribute_entry class_object) attrs ->
      (forall key, In key seen <-> declared_in pre key \/ In key done) ->
      ends (level_keys class_object c keys
              (meta_entries r cs ++ attrs, seen)) w
        (fun st' w' =>
           w' = w /\
           exists attrs',
             fst st' = meta_entries r cs ++ attrs' /\
             Forall (attribute_entry class_object) attrs' /\
             (forall key, In key (snd st') <->
                          declared_in pre key \/ In key ks))
        (fun e w' =>
           e = AttributeError /\ w' = w /\
           incomplete class_object (store w)).
Proof.
  intros Hwhole keys. induction keys as [| key keys IH];
    intros done Hks cs attrs seen w Hattrs Hseen; cbn [level_keys].
  - estep. split; [reflexivity |]. exists attrs. rewrite app_nil_r in Hks.
    subst done. auto.
  - assert (Hks' : ks = (done ++ [key]) ++ keys).
    { rewrite Hks, <- app_assoc. reflexivity. }
    assert (Hin : In key ks).
    { rewrite Hks. apply in_or_app. right. now left. }
    destruct (str_in key seen) eqn:Hs.
    + apply (IH (done ++ [key]) Hks'); [exact Hattrs |].
      intro k. rewrite Hseen, in_app_iff. simpl. split; [tauto |].
      intros [H | [H | [<- | []]]]; auto.
      apply Hseen. now apply str_in_In.
    + estep. estep.
      * rewrite set_after_meta by apply dotted.
        apply (IH (done ++ [key]) Hks').
        -- apply Forall_set; [exact Hattrs |].
           exists pre, c, ks, post, key. repeat split; auto.
           intro Hd. apply str_in_not_In in Hs. apply Hs, Hseen. now left.
        -- intro k. rewrite !in_app_iff, Hseen. simpl. tauto.
      * repeat split. left. exists c, ks, key. repeat split; auto.
        fold whole. rewrite Hwhole. apply in_or_app. right. now left.
Qed.

Lemma inheritance_loop_spec parents :
  forall pre,
    whole = pre ++ parents ->
    forall cs attrs seen w,
      Forall (attribute_entry class_object) attrs ->
      (forall key, In key seen <-> declared_in pre key) ->
      classes_of pre (store w) cs ->
      ends (inheritance_loop class_object parents
              (meta_entries r cs ++ attrs, seen)) w
        (fun st' w' =>
           w' = w /\
           exists cs' attrs',
             fst st' = meta_entries r cs' ++ attrs' /\
             Forall (attribute_entry class_object) attrs' /\
             classes_of whole (store w) cs')
        (fun e w' =>
           e = AttributeError /\ w' = w /\
           incomplete class_object (store w)).
Proof.
  induction parents as [| [c ks] parents IH];
    intros pre Hwhole cs attrs seen w Hattrs Hseen Hcs;
    cbn [inheritance_loop].
  - estep. split; [reflexivity |]. exists cs, attrs.
    rewrite app_nil_r in Hwhole. rewrite Hwhole. auto.
  - assert (Hwhole' : whole = (pre ++ [(c, ks)]) ++ parents).
    { rewrite Hwhole, <- app_assoc. reflexivity. }
    assert (Hdecl : forall key,
               declared_in (pre ++ [(c, ks)]) key
               <-> declared_in pre key \/ In key ks).
    { intro key. unfold declared_in. split.
      - intros (c' & ks' & Hin & Hk). apply in_app_or in Hin.
        destruct Hin as [Hin | [[= <- <-] | []]]; eauto.
      - intros [(c' & ks' & Hin & Hk) | Hk].
        + exists c', ks'. split; [apply in_or_app; now left | exact Hk].
        + exists c, ks. split; [apply in_or_app; right; now left | exact Hk]. }
    estep.
    eapply ends_mono;
      [apply (level_keys_spec pre c ks parents Hwhole ks [] eq_refl
                cs attrs seen w Hattrs) | | auto].
    { intro key. rewrite Hseen. simpl. tauto. }
    intros [d seen'] w' (-> & attrs' & Hd & Hattrs' & Hseen').
    simpl in Hd, Hseen'. subst d. estep.
    assert (Hnext : forall cs',
      classes_of (pre ++ [(c, ks)]) (store w) cs' ->
      ends (inheritance_loop class_object parents
              (meta_entries r cs' ++ attrs', seen')) w
        (fun st' w' =>
           w' = w /\
           exists cs'' attrs'',
             fst st' = meta_entries r cs'' ++ attrs'' /\
             Forall (attribute_entry class_object) attrs'' /\
             classes_of whole (store w) cs'')
        (fun e w' =>
           e = AttributeError /\ w' = w /\
           incomplete class_object (store w))).
    { intros cs' Hcs'. apply (IH (pre ++ [(c, ks)]) Hwhole'); auto.
      intro key. now rewrite Hseen', Hdecl. }
    destruct Hcs as (Hnd & Hmem & Hstore).
    assert (Hold : forall x, In x cs ->
                             x <> "Base" /\ In x (map fst (pre ++ [(c, ks)]))).
    { intros x Hx. apply Hmem in Hx. destruct Hx as [Hb Hin].
      split; [exact Hb |]. rewrite map_app, in_app_iff. now left. }
    destruct (String.eqb_spec c "Base") as [-> | Hne]; simpl negb; cbv iota.
    + estep. apply Hnext.
      split; [exact Hnd |]. split; [| exact Hstore].
      intro x. split; [apply Hold |].
      intros [Hb Hin]. apply Hmem. split; [exact Hb |].
      rewrite map_app, in_app_iff in Hin.
      destruct Hin as [Hin | [<- | []]]; [exact Hin | now contradiction Hb].
    + estep. unfold ends at 1.
      destruct (get (store w) c) as [d |] eqn:Hget; simpl.
      2:{ split; [reflexivity |]. split; [reflexivity |].
          right. exists c. split; [| split; [exact Hne | exact Hget]].
          fold whole. rewrite Hwhole, map_app, in_app_iff. right. now left. }
      estep.
      change (possible_add _ c)
        with (possible_add (meta_entries r cs ++ attrs') c).
      rewrite possible_add_meta. estep. estep. simpl snd.
      apply (Hnext (if str_in c cs then cs else cs ++ [c])).
      destruct (str_in c cs) eqn:Hc.
      * apply str_in_In in Hc.
        split; [exact Hnd |]. split; [| exact Hstore].
        intro x. split; [apply Hold |].
        intros [Hb Hin]. rewrite map_app, in_app_iff in Hin.
        destruct Hin as [Hin | [<- | []]]; [| exact Hc].
        apply Hmem. auto.
      * apply str_in_not_In in Hc. split; [| split].
        -- apply NoDup_app; [exact Hnd | repeat constructor; intros [] |].
           intros x Hx [<- | []]. exact (Hc Hx).
        -- intro x. split.
           ++ intro Hx. apply in_app_or in Hx.
              destruct Hx as [Hx | [<- | []]]; [now apply Hold |].
              split; [exact Hne |]. rewrite map_app, in_app_iff.
              right. now left.
           ++ intros [Hb Hin]. rewrite map_app, in_app_iff in Hin.
              apply in_or_app.
              destruct Hin as [Hin | [<- | []]]; [left | right; now left].
              apply Hmem. auto.
        -- intros x Hx. apply in_app_or in Hx.
           destruct Hx as [Hx | [<- | []]]; [now apply Hstore |].
           unfold has. now rewrite Hget.
Qed.

Lemma _get_attributes_spec w :
  ends (_get_attributes class_object) w
    (fun d w' =>
       w' = w /\
       exists cs attrs,
         d = meta_entries r cs ++ attrs /\
         Forall (attribute_entry class_object) attrs /\
         classes_of whole (store w) cs)
    (fun e w' =>
       e = AttributeError /\ w' = w /\ incomplete class_object (store w)).
Proof.
  unfold _get_attributes. estep.
  eapply ends_mono;
    [apply (inheritance_loop_spec whole [] eq_refl [] [] [] w) | | auto].
  - constructor.
  - intro key. split; [intros [] | intros (c & ks & [] & _)].
  - split; [constructor |]. split; [| intros c []].
    intro c. split; [intros [] | intros [_ []]].
  - intros st w' (-> & cs & attrs & Hd & Hattrs & Hcs). estep.
    split; [reflexivity |]. now exists cs, attrs.
Qed.

End GetAttributes.

(** X10: the dictionary that [_get_attributes] returns starts with the
    entry ['readInProfile'], bound to the provenance of the object, and
    the entry ['possibleProfileList'], whose keys are the classes of the
    walk other than [Base], each once and each with a possibleProfileList
    of its own; the world is as it was. *)
Theorem _get_attributes_metadata :
  forall class_object w d w',
    _get_attributes class_object w = (inr d, w') ->
    w' = w /\
    exists cs attrs,
      d = ("readInProfile", VReadIn (readInProfile class_object))
          :: ("possibleProfileList", VPossible cs) :: attrs /\
      NoDup cs /\
      (forall c, In c cs <->
                 c <> "Base" /\
                 In c (map fst (inheritance_list class_object))) /\
      (forall c, In c cs -> has (store w) c = true).
Proof.
  intros class_object w d w' Hrun.
  destruct (ends_returned _ _ _ _ _ _ (_get_attributes_spec class_object w)
              Hrun) as (-> & cs & attrs & -> & _ & Hnd & Hmem & Hstore).
  split; [reflexivity |]. exists cs, attrs. auto.
Qed.

Lemma _get_attributes_metadata_witness :
  mkWorld grid_store [] = mkWorld grid_store [] /\
  exists cs attrs,
    [("readInProfile", VReadIn []);
     ("possibleProfileList", VPossible ["TopologicalNode"]);
     ("TopologicalNode.mRID", VStr "N1");
     ("TopologicalNode.name", VStr "north")]
    = ("readInProfile",
       VReadIn (readInProfile
                  (mkModel (mkObj 1 "TopologicalNode" true (Some "N1")) []
                     [("Base", []); ("TopologicalNode", ["mRID"; "name"])]
                     [("mRID", VStr "N1"); ("name", VStr "north")])))
      :: ("possibleProfileList", VPossible cs) :: attrs /\
    NoDup cs /\
    (forall c, In c cs <->
               c <> "Base" /\
               In c (map fst
                       (inheritance_list
                          (mkModel
                             (mkObj 1 "TopologicalNode" true (Some "N1")) []
                             [("Base", []);
                              ("TopologicalNode", ["mRID"; "name"])]
                             [("mRID", VStr "N1");
                              ("name", VStr "north")])))) /\
    (forall c, In c cs -> has (store (mkWorld grid_store [])) c = true).
Proof.
  apply (_get_attributes_metadata
           (mkModel (mkObj 1 "TopologicalNode" true (Some "N1")) []
              [("Base", []); ("TopologicalNode", ["mRID"; "name"])]
              [("mRID", VStr "N1"); ("name", VStr "north")])
           (mkWorld grid_store [])).
  reflexivity.
Defined.

(** X11: every other entry of the dictionary that [_get_attributes]
    returns stands for an attribute of the object: its key is the name of
    the first class of the walk, from [Base] down, whose instance has the
    attribute, then a dot and the attribute, and its value is the value
    the object has for that attribute. *)
Theorem _get_attributes_first_class_wins :
  forall class_object w d w',
    _get_attributes class_object w = (inr d, w') ->
    forall k v,
      In (k, v) d ->
      k = "readInProfile" \/ k = "possibleProfileList" \/
      exists pre c ks post key,
        inheritance_list class_object = pre ++ (c, ks) :: post /\
        In key ks /\ ~ declared_in pre key /\
        k = (c ++ "." ++ key)%string /\
        get (fields class_object) key = Some v.
Proof.
  intros class_object w d w' Hrun k v Hin.
  destruct (ends_returned _ _ _ _ _ _ (_get_attributes_spec class_object w)
              Hrun) as (_ & cs & attrs & -> & Hattrs & _).
  destruct Hin as [[= <- _] | [[= <- _] | Hin]]; auto.
  right. right. rewrite Forall_forall in Hattrs. exact (Hattrs _ Hin).
Qed.

Lemma _get_attributes_first_class_wins_witness :
  "IdentifiedObject.name" = "readInProfile" \/
  "IdentifiedObject.name" = "possibleProfileList" \/
  exists pre c ks post key,
    inheritance_list
      (mkModel t1 []
         [("Base", []); ("IdentifiedObject", ["name"]);
          ("Terminal", ["name"; "connected"])]
         [("name", VStr "T"); ("connected", VBool true)])
    = pre ++ (c, ks) :: post /\
    In key ks /\ ~ declared_in pre key /\
    "IdentifiedObject.name" = (c ++ "." ++ key)%string /\
    get (fields
           (mkModel t1 []
              [("Base", []); ("IdentifiedObject", ["name"]);
               ("Terminal", ["name"; "connected"])]
              [("name", VStr "T"); ("connected", VBool true)])) key
    = Some (VStr "T").
Proof.
  eapply (_get_attributes_first_class_wins
            (mkModel t1 []
               [("Base", []); ("IdentifiedObject", ["name"]);
                ("Terminal", ["name"; "connected"])]
               [("name", VStr "T"); ("connected", VBool true)])
            (mkWorld [("IdentifiedObject", []); ("Terminal", [])] [])).
  - vm_compute. reflexivity.
  - right. right. left. reflexivity.
Defined.

(** X12: the only exception of [_get_attributes] is an [AttributeError];
    it is raised with the world as it was, and then the object lacks an
    attribute that an instance of the walk has, or a class of the walk
    other than [Base] has no possibleProfileList. *)
Theorem _get_attributes_raises_attribute_error :
  forall class_object w e w',
    _get_attributes class_object w = (inl e, w') ->
    e = AttributeError /\ w' = w /\ incomplete class_object (store w).
Proof.
  intros class_object w e w' Hrun.
  exact (ends_raised _ _ _ _ _ _ (_get_attributes_spec class_object w) Hrun).
Qed.

Lemma _get_attributes_raises_attribute_error_witness :
  AttributeError = AttributeError /\
  mkWorld [] [] = mkWorld [] [] /\
  incomplete (mkModel t1 [] [("Base", []); ("Terminal", ["connected"])] [])
    (store (mkWorld [] [])).
Proof.
  apply (_get_attributes_raises_attribute_error
           (mkModel t1 [] [("Base", []); ("Terminal", ["connected"])] [])
           (mkWorld [] [])).
  reflexivity.
Defined.

(** X13: [_get_attributes] returns, in the world it started from, when
    the object has every attribute that the instances of the walk have
    and every class of the walk other than [Base] has a
    possibleProfileList. *)
Theorem _get_attributes_returns :
  forall class_object w,
    (forall c ks key,
        In (c, ks) (inheritance_list class_object) -> In key ks ->
        has (fields class_object) key = true) ->
    (forall c,
        In c (map fst (inheritance_list class_object)) -> c <> "Base" ->
        has (store w) c = true) ->
    exists d, _get_attributes class_object w = (inr d, w).
Proof.
  intros class_object w Hfields Hclasses.
  pose proof (_get_attributes_spec class_object w) as H. unfold ends in H.
  destruct (_get_attributes class_object w) as [[e | d] w'].
  - exfalso. destruct H as (_ & _ & [(c & ks & key & Hin & Hk & Hg)
                                    | (c & Hin & Hne & Hg)]).
    + specialize (Hfields c ks key Hin Hk). unfold has in Hfields.
      rewrite Hg in Hfields. discriminate.
    + specialize (Hclasses c Hin Hne). unfold has in Hclasses.
      rewrite Hg in Hclasses. discriminate.
  - destruct H as (-> & _). now exists d.
Qed.

Lemma _get_attributes_returns_witness :
  exists d,
    _get_attributes
      (mkModel t1 [] [("Base", []); ("Terminal", ["mRID"; "connected"])]
         [("mRID", VStr "T1"); ("connected", VBool true)])
      (mkWorld terminal_store [])
    = (inr d, mkWorld terminal_store []).
Proof.
  apply (_get_attributes_returns
           (mkModel t1 [] [("Base", []); ("Terminal", ["mRID"; "connected"])]
              [("mRID", VStr "T1"); ("connected", VBool true)])
           (mkWorld terminal_store [])).
  - intros c ks key [[= <- <-] | [[= <- <-] | []]] Hk; [destruct Hk |].
    destruct Hk as [<- | [<- | []]]; reflexivity.
  - intros c [<- | [<- | []]] Hne; [now contradiction Hne | reflexivity].
Defined.

(** ** From the registry to the list of classes *)

Lemma ends_of_parts {A} (m : M A) w (Q : A -> world -> Prop)
  (P : exn -> Prop) :
  post m w Q (fun _ => True) -> raises_only P m -> keeps_store m ->
  ends m w (fun a w' => Q a w' /\ store w' = store w)
    (fun e w' => P e /\ store w' = store w).
Proof.
  intros Hq Hp Hk. unfold ends, post in *. specialize (Hk w).
  destruct (m w) as [[e | a] w'] eqn:Hr; simpl in Hk; split; auto.
  exact (Hp _ _ _ Hr).
Qed.

Lemma reserved_dotted k : char_in "." k = true -> reserved k = None.
Proof.
  intro Hk. unfold reserved.
  rewrite (String.eqb_sym k "readInProfile"),
    (eqb_dotless "readInProfile" k eq_refl Hk).
  rewrite (String.eqb_sym k "possibleProfileList"),
    (eqb_dotless "possibleProfileList" k eq_refl Hk).
  reflexivity.
Qed.

Lemma attribute_blocks_dotted class_object attrs blocks :
  Forall (attribute_entry class_object) attrs ->
  Forall2 block_of attrs blocks ->
  dotted_records (List.concat blocks).
Proof.
  intros Hattrs Hblocks. revert Hattrs.
  induction Hblocks as [| [k v] block attrs blocks Hb _ IH]; intro Hattrs.
  - constructor.
  - inversion Hattrs as [| ? ? Hentry Hrest]; subst. simpl.
    apply Forall_app. split; [| now apply IH].
    destruct Hentry as (pre & c & ks & post & key & _ & _ & _ & Hk & _).
    simpl in Hk. unfold block_of in Hb. simpl fst in Hb.
    assert (Hdot : char_in "." k = true) by (rewrite Hk; apply dotted).
    rewrite (reserved_dotted _ Hdot) in Hb.
    eapply Forall_impl; [| exact Hb]. intros rec [v' ->]. exact Hdot.
Qed.

Lemma records_of_attributes class_object res key r cs attrs w :
  Forall (attribute_entry class_object) attrs ->
  post (_get_reference_uuid (meta_entries r cs ++ attrs) res key) w
    (fun rs _ =>
       exists rest,
         rs = MetaRecord ReadInProfileKey (VReadIn r)
              :: MetaRecord PossibleProfileListKey (VPossible cs) :: rest /\
         dotted_records rest)
    (fun _ => True).
Proof.
  intro Hattrs. unfold _get_reference_uuid. step.
  eapply post_mono; [apply reference_loop_blocks | | auto].
  intros st w' (blocks & Hall & Hst). step. simpl in Hst. rewrite Hst.
  inversion Hall as [| ? b1 ? blocks1 Hb1 Hall1]; subst.
  inversion Hall1 as [| ? b2 ? blocks2 Hb2 Hall2]; subst.
  unfold block_of in Hb1, Hb2. simpl in Hb1, Hb2. subst b1 b2.
  exists (List.concat blocks2). split; [reflexivity |].
  eapply attribute_blocks_dotted; eassumption.
Qed.

Lemma raises_only_weaken {A} (P P' : exn -> Prop) (m : M A) :
  (forall e, P e -> P' e) -> raises_only P m -> raises_only P' m.
Proof. intros H Hm w e w' Hr. exact (H _ (Hm _ _ _ Hr)). Qed.

Lemma class_attributes_loop_spec res items :
  forall acc w,
    ends (class_attributes_loop res items acc) w
      (fun out w' =>
         store w' = store w /\
         exists new,
           out = acc ++ new /\ Forall2 (class_dict_of (store w)) items new)
      (fun e w' =>
         (e = AttributeError \/ e = UnboundLocalError) /\
         store w' = store w).
Proof.
  induction items as [| [key obj] items IH]; intros acc w; simpl.
  - estep. split; [reflexivity |]. exists []. rewrite app_nil_r.
    split; [reflexivity | constructor].
  - estep. eapply ends_mono; [apply _get_attributes_spec | |].
    2:{ intros e w' (-> & -> & _). auto. }
    intros d w1 (-> & cs & attrs & -> & Hattrs & Hcs). estep.
    eapply ends_mono;
      [apply (ends_of_parts _ _ _ (fun e => e = UnboundLocalError)
                (records_of_attributes obj res key _ cs attrs w Hattrs));
       [ apply raises_only_bind;
           [apply raises_only_reference_loop | auto with raises]
       | apply keeps__get_reference_uuid ]
      | | ].
    2:{ intros e w' [-> Hs]. auto. }
    intros rs w2 [(rest & -> & Hdots) Hs].
    eapply ends_mono; [apply IH | |].
    + intros out w3 (Hs3 & new & -> & Hnew). split; [congruence |].
      eexists (_ :: new). rewrite <- app_assoc. split; [reflexivity |].
      constructor; [| now rewrite <- Hs].
      repeat split; try reflexivity.
      * exists cs. split; [reflexivity | exact Hcs].
      * constructor; [exact I |]. constructor; [exact I | exact Hdots].
    + intros e w3 [He Hs3]. split; [exact He | congruence].
Qed.

(** X14: [_get_class_attributes_with_references] returns one dictionary
    per item of the registry, in the order of the registry. Its [name] is
    the class of the object and its [mRID] the key of the item; its
    attributes start with the provenance of the object and the
    possibleProfileList of the classes of its walk, as records, and every
    attribute record in them has a dot in its name. The store is as it
    was. *)
Theorem class_list_follows_registry :
  forall res w out w',
    _get_class_attributes_with_references res w = (inr out, w') ->
    Forall2 (class_dict_of (store w)) res out /\ store w' = store w.
Proof.
  intros res w out w' Hrun.
  destruct (ends_returned _ _ _ _ _ _
              (class_attributes_loop_spec res res [] w) Hrun)
    as (Hs & new & -> & Hnew).
  auto.
Qed.

Lemma class_list_follows_registry_witness :
  Forall2 (class_dict_of (store (mkWorld terminal_store []))) terminals
    [mkClass "Terminal" "T1"
       [MetaRecord ReadInProfileKey (VReadIn []);
        MetaRecord PossibleProfileListKey (VPossible ["Terminal"]);
        AttrRecord (VStr "T1") "Terminal.mRID";
        AttrRecord (VBool true) "Terminal.connected"]]
  /\ store (mkWorld terminal_store []) = store (mkWorld terminal_store []).
Proof.
  apply (class_list_follows_registry terminals (mkWorld terminal_store [])).
  reflexivity.
Defined.

(** X15: the only exceptions of [_get_class_attributes_with_references]
    are the [AttributeError] of the attribute extractor and the
    [UnboundLocalError] of the reference resolver, and the store is then
    as it was. *)
Theorem class_list_exceptions :
  forall res w e w',
    _get_class_attributes_with_references res w = (inl e, w') ->
    (e = AttributeError \/ e = UnboundLocalError) /\ store w' = store w.
Proof.
  intros res w e w' Hrun.
  exact (ends_raised _ _ _ _ _ _
           (class_attributes_loop_spec res res [] w) Hrun).
Qed.

Lemma class_list_exceptions_witness :
  (UnboundLocalError = AttributeError
   \/ UnboundLocalError = UnboundLocalError)
  /\ store (mkWorld grid_store []) = store (mkWorld grid_store []).
Proof.
  apply (class_list_exceptions
           [("V1", mkModel (mkObj 2 "SvVoltage" true None) []
                     [("Base", []); ("SvVoltage", ["TopologicalNode"])]
                     [("TopologicalNode", VObj node)])]
           (mkWorld grid_store []) UnboundLocalError
           (mkWorld grid_store [])).
  reflexivity.
Defined.

(** ** The fallback to the allowed profiles *)

Lemma cgmesProfile_name_nonempty r n : cgmesProfile_name r = Some n -> n <> "".
Proof.
  unfold cgmesProfile_name. intro H.
  destruct r as [| p | p]; [| | discriminate H].
  - injection H as <-. discriminate.
  - do 3 (try destruct p as [p | p |]); try discriminate H;
      injection H as <-; discriminate.
Qed.

Lemma first_active_name_sorted active ranks :
  StronglySorted Z.le ranks -> Forall valid_rank ranks ->
  (first_active_name active ranks = "" /\ none_active active ranks)
  \/ (first_active_name active ranks <> "" /\
      lowest_active active ranks (first_active_name active ranks)).
Proof.
  induction 1 as [| r ranks Hs IH Hle]; intro Hvalid.
  - left. split; [reflexivity | intros r n []].
  - inversion Hvalid as [| ? ? Hr Hrest]; subst. simpl.
    unfold valid_rank in Hr.
    destruct (cgmesProfile_name r) as [n |] eqn:Hn; [| contradiction].
    destruct (str_in n active) eqn:Hact.
    + right. split; [now apply (cgmesProfile_name_nonempty r) |].
      exists r. repeat split; auto; [now left |].
      intros r' n' [<- | Hin] _ _; [lia |].
      rewrite Forall_forall in Hle. now apply Hle.
    + destruct (IH Hrest) as [[He Hnone] | [Hne (r0 & Hin & Hn0 & Ha & Hmin)]].
      * left. split; [exact He |].
        intros r' n' [<- | Hin'] Hn'; [congruence | eauto].
      * right. split; [exact Hne |]. exists r0. repeat split; auto;
          [now right |].
        intros r' n' [<- | Hin'] Hn' Ha'; [congruence | eauto].
Qed.

Lemma none_active_sort active ranks :
  none_active active (sort ranks) -> none_active active ranks.
Proof. intros H r n Hin. apply H. now apply In_sort. Qed.

Lemma lowest_active_sort active ranks n :
  lowest_active active (sort ranks) n -> lowest_active active ranks n.
Proof.
  intros (r & Hin & Hn & Ha & Hmin). exists r. repeat split; auto.
  - now apply In_sort.
  - intros r' n' Hin'. apply Hmin. now apply In_sort.
Qed.

Lemma valid_sort ranks : Forall valid_rank ranks -> Forall valid_rank (sort ranks).
Proof.
  rewrite !Forall_forall. intros H r Hr. apply H. now apply In_sort.
Qed.

Lemma attribute_profile_is_first_active klass rp pl active c a w d ranks :
  provenance_unused rp active a ->
  str_in c pl = true ->
  get (store w) c = Some d ->
  get d a = Some ranks ->
  Forall valid_rank ranks ->
  fst (attribute_profile klass rp pl active c a w)
  = inr (if String.eqb (first_active_name active (sort ranks)) "" then None
         else Some (first_active_name active (sort ranks))).
Proof.
  intros Hprov Hpl Hd Hranks Hvalid.
  pose proof (valid_sort _ Hvalid) as Hsorted.
  unfold attribute_profile.
  match goal with
  | |- fst (bind ?m _ w) = _ =>
      assert (Hfirst : exists w1, m w = (inr "", w1) /\ store w1 = store w)
  end.
  { unfold provenance_unused in Hprov.
    destruct (get rp a) as [p |]; [| now exists w].
    rewrite Hprov. now eexists. }
  destruct Hfirst as (w1 & Hfirst & Hs).
  rewrite (bind_inr _ _ _ _ _ Hfirst). rewrite <- Hs in Hd.
  change (String.eqb "" "") with true. cbv iota. rewrite Hpl.
  rewrite (bind_inr _ _ _ _ _ (class_profiles_run _ _ _ _ Hpl Hd)).
  unfold has. rewrite Hranks.
  rewrite (bind_inr _ _ _ _ _ (sort_in_place_run _ _ _ _ _ _ Hpl Hd Hranks)).
  rewrite (bind_inr _ _ _ _ _ (first_active_run _ _ _ Hsorted)).
  destruct (String.eqb (first_active_name active (sort ranks)) "");
    reflexivity.
Qed.

(** X16: for an attribute to which the provenance gives no profile and
    whose allowed-profile list holds ranks of [cgmesProfile], the
    attribute-level resolution returns the active profile of lowest rank
    of that list, and it drops the attribute when no profile of the list
    is active; it does not raise. *)
Theorem attribute_gets_lowest_active_profile :
  forall klass rp pl active c a w d ranks,
    provenance_unused rp active a ->
    str_in c pl = true ->
    get (store w) c = Some d ->
    get d a = Some ranks ->
    Forall valid_rank ranks ->
    match fst (attribute_profile klass rp pl active c a w) with
    | inr (Some n) => lowest_active active ranks n
    | inr None => none_active active ranks
    | inl _ => False
    end.
Proof.
  intros klass rp pl active c a w d ranks Hprov Hpl Hd Hranks Hvalid.
  rewrite (attribute_profile_is_first_active klass rp pl active c a w d ranks
             Hprov Hpl Hd Hranks Hvalid).
  destruct (first_active_name_sorted active (sort ranks) (sort_sorted ranks)
              (valid_sort _ Hvalid)) as [[He Hnone] | [Hne Hlow]].
  - rewrite He. simpl. now apply none_active_sort.
  - destruct (String.eqb_spec (first_active_name active (sort ranks)) "")
      as [Heq | _]; [contradiction |].
    now apply lowest_active_sort.
Qed.

Lemma attribute_gets_lowest_active_profile_witness :
  match fst (attribute_profile terminal [("phases", "EQ")] ["Terminal"]
               ["SV"; "SSH"] "Terminal" "phases"
               (mkWorld [("Terminal", [("phases", [3; 1]%Z)])] [])) with
  | inr (Some n) => lowest_active ["SV"; "SSH"] [3; 1]%Z n
  | inr None => none_active ["SV"; "SSH"] [3; 1]%Z
  | inl _ => False
  end.
Proof.
  apply (attribute_gets_lowest_active_profile terminal [("phases", "EQ")]
           ["Terminal"] ["SV"; "SSH"] "Terminal" "phases"
           (mkWorld [("Terminal", [("phases", [3; 1]%Z)])] [])
           [("phases", [3; 1]%Z)]).
  - reflexivity.
  - reflexivity.
  - reflexivity.
  - reflexivity.
  - repeat constructor; discriminate.
Defined.

(** ** The class-level resolution at its edges *)

(** Up to the scan of line 186: the provenance is not used, the list
    under ['class'] is sorted in place, and the scan starts. *)
Lemma class_profile_scan klass rp pl active w d ranks :
  str_in (name klass) pl = true ->
  get (store w) (name klass) = Some d ->
  get d "class" = Some ranks ->
  exists w1,
    store w1 = store w /\
    class_profile klass rp pl active w
    = bind (first_active active (sort ranks))
        (fun found =>
           if String.eqb found "" then
             logger_warning (skip_class_message klass) ;; ret None
           else ret (Some found))
        (mkWorld (set (store w1) (name klass) (set d "class" (sort ranks)))
           (log w1)).
Proof.
  intros Hpl Hd Hranks. unfold class_profile.
  match goal with
  | |- exists w1, _ /\ bind ?m _ w = _ =>
      assert (Hfirst : exists w1, m w = (inr "", w1) /\ store w1 = store w)
  end.
  { destruct (get rp "class") as [p |]; [| now exists w].
    destruct (str_in p active); [| now eexists].
    rewrite (bind_inr _ _ _ _ _ (class_profiles_run _ _ _ _ Hpl Hd)).
    rewrite Hranks. unfold orelse.
    rewrite (bind_inr (ret ranks) _ w ranks w eq_refl).
    rewrite name_in_ranks_false. now eexists. }
  destruct Hfirst as (w1 & Hfirst & Hs). exists w1. split; [exact Hs |].
  rewrite (bind_inr _ _ _ _ _ Hfirst). rewrite <- Hs in Hd.
  change (String.eqb "" "") with true. cbv iota. rewrite Hpl.
  rewrite (bind_inr _ _ _ _ _ (class_profiles_run _ _ _ _ Hpl Hd)).
  unfold has. rewrite Hranks.
  rewrite (bind_inr _ _ _ _ _ (sort_in_place_run _ _ _ _ _ _ Hpl Hd Hranks)).
  reflexivity.
Qed.

Lemma first_active_none active ranks :
  Forall valid_rank ranks -> none_active active ranks ->
  first_active_name active ranks = "".
Proof.
  induction 1 as [| r ranks Hr _ IH]; intro Hnone; simpl; [reflexivity |].
  unfold valid_rank in Hr.
  destruct (cgmesProfile_name r) as [n |] eqn:Hn; [| contradiction].
  rewrite (Hnone r n) by (simpl; auto).
  apply IH. intros r' n' Hin. apply Hnone. now right.
Qed.

Lemma first_active_invalid active ranks r w :
  In r ranks -> cgmesProfile_name r = None -> none_active active ranks ->
  first_active active ranks w = (inl ValueError, w).
Proof.
  intros Hin Hr Hnone. induction ranks as [| x ranks IH]; [destruct Hin |].
  simpl. unfold bind.
  destruct (cgmesProfile_name x) as [n |] eqn:Hx; simpl; [| reflexivity].
  rewrite (Hnone x n) by (simpl; auto).
  destruct Hin as [-> | Hin]; [congruence |].
  apply IH; [exact Hin |]. intros r' n' Hin'. apply Hnone. now right.
Qed.

Lemma klass_step_raised active st klass rp pl w e w' :
  get_readInProfile klass = inr rp ->
  get_possibleProfileList klass = inr pl ->
  class_profile klass rp pl active w = (inl e, w') ->
  klass_step active st klass w = (inl e, w').
Proof.
  intros Hrp Hpl Hc. unfold klass_step. destruct st as [ex ab].
  rewrite Hrp, Hpl. unfold lift, bind, ret. now rewrite Hc.
Qed.

(** X17: an instance whose class has a list of ranks under ['class'] that
    holds values of [cgmesProfile] only and of which no profile is active
    is skipped: the step of the loop over the instances leaves both plans
    as they are and logs the warning that the class is skipped; the store
    is as it was up to sorting. With a rank that is no value of
    [cgmesProfile] in the list the step raises instead (X18). *)
Theorem instance_without_active_profile_is_skipped :
  forall klass rp pl active st w d ranks,
    get_readInProfile klass = inr rp ->
    get_possibleProfileList klass = inr pl ->
    str_in (name klass) pl = true ->
    get (store w) (name klass) = Some d ->
    get d "class" = Some ranks ->
    Forall valid_rank ranks ->
    none_active active ranks ->
    exists w',
      klass_step active st klass w = (inr st, w') /\
      In (WARNING, skip_class_message klass) (log w') /\
      evolved w w'.
Proof.
  intros klass rp pl active st w d ranks Hrp Hpl Hin Hd Hranks Hvalid Hnone.
  destruct (class_profile_scan klass rp pl active w d ranks Hin Hd Hranks)
    as (w1 & Hs & Hrun).
  assert (Hname : first_active_name active (sort ranks) = "").
  { apply first_active_none; [now apply valid_sort |].
    intros r n Hr. apply Hnone. now apply In_sort. }
  rewrite (bind_inr _ _ _ _ _
             (first_active_run _ _ _ (valid_sort _ Hvalid))) in Hrun.
  rewrite Hname in Hrun. simpl in Hrun.
  eexists. split; [exact (klass_step_skipped _ _ _ _ _ _ _ Hrp Hpl Hrun) |].
  split.
  - simpl. apply in_or_app. right. now left.
  - pose proof (class_profile_evolved klass rp pl active w) as He.
    unfold post in He. rewrite Hrun in He. exact He.
Qed.

Lemma instance_without_active_profile_is_skipped_witness :
  exists w',
    klass_step ["GL"] ([], []) terminal (mkWorld terminal_store [])
    = (inr ([], []), w') /\
    In (WARNING, skip_class_message terminal) (log w') /\
    evolved (mkWorld terminal_store []) w'.
Proof.
  apply (instance_without_active_profile_is_skipped terminal
           [("class", "SSH")] ["Terminal"] ["GL"] ([], [])
           (mkWorld terminal_store [])
           [("class", [4; 0; 1; 3; 2]%Z); ("connected", [1%Z]);
            ("sequenceNumber", [0%Z])] [4; 0; 1; 3; 2]%Z);
    try reflexivity.
  - repeat constructor; discriminate.
  - intros r n [<- | [<- | [<- | [<- | [<- | []]]]]] [= <-]; reflexivity.
Defined.

(** X18: when the list under ['class'] holds a value that is no value of
    [cgmesProfile] and no profile of the list is active, the scan of the
    sorted list reaches that value and the step raises [ValueError]. *)
Theorem rank_outside_enum_raises :
  forall klass rp pl active st w d ranks r,
    get_readInProfile klass = inr rp ->
    get_possibleProfileList klass = inr pl ->
    str_in (name klass) pl = true ->
    get (store w) (name klass) = Some d ->
    get d "class" = Some ranks ->
    In r ranks -> cgmesProfile_name r = None ->
    none_active active ranks ->
    exists w', klass_step active st klass w = (inl ValueError, w').
Proof.
  intros klass rp pl active st w d ranks r Hrp Hpl Hin Hd Hranks Hr Hinv
    Hnone.
  destruct (class_profile_scan klass rp pl active w d ranks Hin Hd Hranks)
    as (w1 & Hs & Hrun).
  assert (Hscan : forall w2,
             first_active active (sort ranks) w2 = (inl ValueError, w2)).
  { intro w2. apply (first_active_invalid active (sort ranks) r);
      [now apply In_sort | exact Hinv |].
    intros r' n' Hr'. apply Hnone. now apply In_sort. }
  unfold bind in Hrun. rewrite Hscan in Hrun.
  eexists. exact (klass_step_raised _ _ _ _ _ _ _ _ Hrp Hpl Hrun).
Qed.

Lemma rank_outside_enum_raises_witness :
  exists w',
    klass_step ["EQ"] ([], [])
      (mkClass "Terminal" "T1"
         [MetaRecord ReadInProfileKey (VReadIn []);
          MetaRecord PossibleProfileListKey (VPossible ["Terminal"])])
      (mkWorld [("Terminal", [("class", [7; 1]%Z)])] [])
    = (inl ValueError, w').
Proof.
  apply (rank_outside_enum_raises
           (mkClass "Terminal" "T1"
              [MetaRecord ReadInProfileKey (VReadIn []);
               MetaRecord PossibleProfileListKey (VPossible ["Terminal"])])
           [] ["Terminal"] ["EQ"] ([], [])
           (mkWorld [("Terminal", [("class", [7; 1]%Z)])] [])
           [("class", [7; 1]%Z)] [7; 1]%Z 7%Z);
    try reflexivity.
  - left. reflexivity.
  - intros r n [<- | [<- | []]] [= <-]. reflexivity.
Defined.

(** X19: when the provenance names an active profile for the class and
    the possibleProfileList of the instance has no list for the class
    under ['class'], the lookup of line 169 raises [KeyError] and the
    world is as it was; without the provenance entry the same instance
    only gets a warning. *)
Theorem missing_class_list_raises_with_provenance :
  forall klass rp pl active st w p,
    get_readInProfile klass = inr rp ->
    get_possibleProfileList klass = inr pl ->
    get rp "class" = Some p -> str_in p active = true ->
    allowed (store w) pl (name klass) "class" = None ->
    klass_step active st klass w = (inl KeyError, w).
Proof.
  intros klass rp pl active st w p Hrp Hpl Hp Hact Hallowed.
  apply (klass_step_raised _ _ _ rp pl); auto.
  unfold class_profile. rewrite Hp, Hact. unfold allowed in Hallowed.
  unfold bind at 1. unfold bind at 1. unfold class_profiles.
  destruct (str_in (name klass) pl); [| reflexivity].
  destruct (get (store w) (name klass)) as [d |]; simpl; [| reflexivity].
  unfold bind. rewrite Hallowed. reflexivity.
Qed.

Lemma missing_class_list_raises_with_provenance_witness :
  klass_step ["SSH"] ([], [])
    (mkClass "Terminal" "T1"
       [MetaRecord ReadInProfileKey (VReadIn [("class", "SSH")]);
        MetaRecord PossibleProfileListKey (VPossible ["Terminal"])])
    (mkWorld bare_store [])
  = (inl KeyError, mkWorld bare_store []).
Proof.
  apply (missing_class_list_raises_with_provenance
           (mkClass "Terminal" "T1"
              [MetaRecord ReadInProfileKey (VReadIn [("class", "SSH")]);
               MetaRecord PossibleProfileListKey (VPossible ["Terminal"])])
           [("class", "SSH")] ["Terminal"] ["SSH"] ([], [])
           (mkWorld bare_store []) "SSH"); reflexivity.
Defined.

(** ** The shape of the plans *)

Lemma subsequence_refl {A} (l : list A) : subsequence l l.
Proof. induction l; constructor; assumption. Qed.

Lemma subsequence_app {A} (a b c d : list A) :
  subsequence a b -> subsequence c d -> subsequence (a ++ c) (b ++ d).
Proof.
  intros Hab Hcd. induction Hab; simpl; [exact Hcd | |]; now constructor.
Qed.

Lemma subsequence_app_nil {A} (a b c : list A) :
  subsequence a b -> subsequence a (b ++ c).
Proof.
  intro H. rewrite <- (app_nil_r a). apply subsequence_app; [exact H |].
  apply subsequence_nil.
Qed.

Lemma keys_set {V} (d : dict V) k v :
  keys (set d k v) = if has d k then keys d else keys d ++ [k].
Proof.
  unfold has, keys. induction d as [| [k' v'] d IH]; simpl; [reflexivity |].
  destruct (String.eqb k' k); simpl; [reflexivity |].
  rewrite IH. now destruct (get d k).
Qed.

Lemma has_keys {V} (d : dict V) k : has d k = true <-> In k (keys d).
Proof.
  unfold has, keys. induction d as [| [k' v'] d IH]; simpl.
  - split; [discriminate | intros []].
  - destruct (String.eqb_spec k' k) as [-> | Hne].
    + split; auto.
    + rewrite IH. split; [now right | intros [H | H]; [contradiction | exact H]].
Qed.

Lemma set_keeps_keys {V} (d : dict V) k v x :
  NoDup (keys d) -> ~ In x (keys d) -> x <> k ->
  NoDup (keys (set d k v)) /\ ~ In x (keys (set d k v)).
Proof.
  intros Hnd Hx Hne. rewrite keys_set.
  destruct (has d k) eqn:Hk; [now split |].
  split.
  - apply NoDup_app; [exact Hnd | repeat constructor; intros [] |].
    intros y Hy [<- | []]. apply has_keys in Hy. congruence.
  - intro H. apply in_app_or in H. destruct H as [H | [H | []]]; auto.
Qed.

Lemma plan_append_In (d : plan) q c p l :
  In (p, l) (plan_append d q c) ->
  In (p, l) d \/
  (p = q /\ exists l0, l = l0 ++ [c] /\ (In (q, l0) d \/ l0 = [])).
Proof.
  unfold plan_append. destruct (get d q) as [l0 |] eqn:Hg; intro Hin;
    apply In_set in Hin; destruct Hin as [[-> ->] | Hin]; auto; right;
    (split; [reflexivity |]).
  - exists l0. split; [reflexivity |]. left. now apply get_In.
  - exists []. auto.
Qed.

Lemma about_loop_In klass about_dict :
  NoDup (keys about_dict) ->
  forall a p l,
    In (p, l) (about_loop klass about_dict a) ->
    In (p, l) a \/
    (In p (keys about_dict) /\
     exists l0 attrs,
       l = l0 ++ [mkClass (name klass) (mRID klass) attrs] /\
       (In (p, l0) a \/ l0 = [])).
Proof.
  induction about_dict as [| [q attrs] rest IH]; intros Hnd a p l Hin;
    simpl in *; [now left |].
  inversion Hnd as [| ? ? Hq Hrest]; subst.
  destruct (IH Hrest _ _ _ Hin) as [H | (Hp & l0 & attrs' & -> & H)].
  - apply plan_append_In in H.
    destruct H as [H | (-> & l0 & -> & H)]; [now left | right].
    split; [now left |]. now exists l0, attrs.
  - right. split; [now right |]. exists l0, attrs'. split; [reflexivity |].
    destruct H as [H | ->]; [| now right].
    apply plan_append_In in H.
    destruct H as [H | (-> & _)]; [now left | contradiction].
Qed.

Lemma entries_plan_append (d : plan) p c :
  Permutation (entries (plan_append d p c)) (c :: entries d).
Proof.
  unfold plan_append, entries.
  induction d as [| [k l] d IH]; simpl; [reflexivity |].
  destruct (String.eqb k p) eqn:Hk; simpl.
  - rewrite <- app_assoc. simpl. symmetry. apply Permutation_middle.
  - destruct (get d p) as [l0 |]; simpl in *; rewrite ?Hk; simpl;
      rewrite IH; symmetry; apply Permutation_middle.
Qed.

(** The about dictionary of an instance has each profile once, and never
    the profile of the class. *)
Lemma attribute_loop_keys klass rp pl active csp attrs :
  forall st w,
    NoDup (keys (snd st)) -> ~ In csp (keys (snd st)) ->
    post (attribute_loop klass rp pl active csp attrs st) w
      (fun st' _ =>
         NoDup (keys (snd st')) /\ ~ In csp (keys (snd st')))
      (fun _ => True).
Proof.
  induction attrs as [| attribute attrs IH]; intros st w Hnd Hc; simpl.
  - step. auto.
  - step. eapply post_mono; [apply attribute_step_spec | | auto].
    intros st' w' (_ & [-> | (p & _ & ->)]); [now apply IH |].
    unfold filed. destruct (String.eqb_spec p csp) as [-> | Hne];
      [now apply IH |].
    assert (Hk : forall v,
               NoDup (keys (set (snd st) p v)) /\
               ~ In csp (keys (set (snd st) p v))).
    { intro v. apply set_keeps_keys; auto. }
    apply IH; simpl; unfold about_append; destruct (get (snd st) p);
      apply Hk.
Qed.

(** What a step of the loop over the instances does to the plans. *)
Lemma klass_step_shape active ex ab klass w :
  post (klass_step active (ex, ab) klass) w
    (fun st' _ =>
       st' = (ex, ab) \/
       exists csp same about_dict,
         st' = (plan_append ex csp
                  (mkClass (name klass) (mRID klass) same),
                about_loop klass about_dict ab) /\
         NoDup (keys about_dict) /\ ~ In csp (keys about_dict))
    (fun _ => True).
Proof.
  unfold klass_step. step. step; [| exact I]. step. step; [| exact I]. step.
  eapply post_mono; [apply post_any | | auto].
  intros [csp |] w1 _; [| step; now left].
  step.
  eapply post_mono;
    [apply (attribute_loop_keys klass a a0 active csp (attributes klass)
              ([], []) w1); [constructor | intros []] | | auto].
  intros [same about_dict] w2 [Hnd Hc]. step. right.
  now exists csp, same, about_dict.
Qed.

Lemma klass_loop_invariant (I : list class_dict -> plan * plan -> Prop)
  active whole :
  (forall done klass rest st,
      whole = done ++ klass :: rest -> I done st -> I (done ++ [klass]) st) ->
  (forall done klass rest ex ab csp same about_dict,
      whole = done ++ klass :: rest -> I done (ex, ab) ->
      NoDup (keys about_dict) -> ~ In csp (keys about_dict) ->
      I (done ++ [klass])
        (plan_append ex csp (mkClass (name klass) (mRID klass) same),
         about_loop klass about_dict ab)) ->
  forall klasses done st w,
    whole = done ++ klasses -> I done st ->
    post (klass_loop active klasses st) w (fun st' _ => I whole st')
      (fun _ => True).
Proof.
  intros Hskip Hadd klasses.
  induction klasses as [| klass klasses IH]; intros done st w Hwhole Hst;
    simpl.
  - step. rewrite app_nil_r in Hwhole. now subst.
  - step. destruct st as [ex ab].
    eapply post_mono; [apply klass_step_shape | | auto].
    assert (Hwhole' : whole = (done ++ [klass]) ++ klasses).
    { rewrite Hwhole, <- app_assoc. reflexivity. }
    intros st' w' [-> | (csp & same & ad & -> & Hnd & Hc)];
      apply (IH (done ++ [klass])); eauto.
Qed.

Lemma run_klass_loop_invariant (I : list class_dict -> plan * plan -> Prop)
  active klasses w st' w' :
  (forall done klass rest st,
      klasses = done ++ klass :: rest -> I done st ->
      I (done ++ [klass]) st) ->
  (forall done klass rest ex ab csp same about_dict,
      klasses = done ++ klass :: rest -> I done (ex, ab) ->
      NoDup (keys about_dict) -> ~ In csp (keys about_dict) ->
      I (done ++ [klass])
        (plan_append ex csp (mkClass (name klass) (mRID klass) same),
         about_loop klass about_dict ab)) ->
  I [] ([], []) ->
  _sort_classes_to_profile klasses active w = (inr st', w') ->
  I klasses st'.
Proof.
  intros Hskip Hadd Hinit Hrun.
  exact (post_run _ _ _ _ _ _
           (klass_loop_invariant I active klasses Hskip Hadd klasses []
              ([], []) w eq_refl Hinit) Hrun).
Qed.

Lemma kept_extended klasses klass kept (l0 : list class_dict) attrs :
  subsequence kept klasses -> map ident l0 = map ident kept ->
  exists kept',
    subsequence kept' (klasses ++ [klass]) /\
    map ident (l0 ++ [mkClass (name klass) (mRID klass) attrs])
    = map ident kept'.
Proof.
  intros Hsub Hmap. exists (kept ++ [klass]). split.
  - apply subsequence_app; [exact Hsub | apply subsequence_refl].
  - rewrite !map_app, Hmap. reflexivity.
Qed.

Lemma ordered_plan_more klasses klass d :
  ordered_plan klasses d -> ordered_plan (klasses ++ [klass]) d.
Proof.
  intros H p l Hin. destruct (H p l Hin) as (kept & Hsub & Hmap).
  exists kept. split; [now apply subsequence_app_nil | exact Hmap].
Qed.

Lemma ordered_plan_entry klasses klass d p l l0 attrs :
  ordered_plan klasses d ->
  l = l0 ++ [mkClass (name klass) (mRID klass) attrs] ->
  In (p, l0) d \/ l0 = [] ->
  exists kept,
    subsequence kept (klasses ++ [klass]) /\ map ident l = map ident kept.
Proof.
  intros Hd -> [Hin | ->].
  - destruct (Hd p l0 Hin) as (kept & Hsub & Hmap).
    exact (kept_extended klasses klass kept l0 attrs Hsub Hmap).
  - exact (kept_extended klasses klass [] [] attrs (subsequence_nil _)
             eq_refl).
Qed.

(** X20: in both plans that [_sort_classes_to_profile] returns, the list
    of every profile holds instances of the input in the order of the
    input, and each instance at most once for each time it is in the
    input. *)
Theorem plans_keep_input_order :
  forall klasses active w ex ab w',
    _sort_classes_to_profile klasses active w = (inr (ex, ab), w') ->
    forall p l,
      get ex p = Some l \/ get ab p = Some l ->
      exists kept,
        subsequence kept klasses /\ map ident l = map ident kept.
Proof.
  intros klasses active w ex ab w' Hrun.
  assert (H : ordered_plan klasses ex /\ ordered_plan klasses ab).
  { apply (run_klass_loop_invariant
             (fun done st => ordered_plan done (fst st) /\
                             ordered_plan done (snd st))
             active klasses w (ex, ab) w'); auto.
    - intros done klass rest st _ [He Ha].
      split; now apply ordered_plan_more.
    - intros done klass rest ex0 ab0 csp same ad _ [He Ha] Hnd Hc.
      simpl in *. split; intros p l Hin.
      + apply plan_append_In in Hin.
        destruct Hin as [Hin | (-> & l0 & Hl & Hin)].
        * now apply (ordered_plan_more done klass ex0 He p l).
        * exact (ordered_plan_entry _ _ _ _ _ _ _ He Hl Hin).
      + apply about_loop_In in Hin; [| exact Hnd].
        destruct Hin as [Hin | (_ & l0 & attrs & Hl & Hin)].
        * now apply (ordered_plan_more done klass ab0 Ha p l).
        * exact (ordered_plan_entry _ _ _ _ _ _ _ Ha Hl Hin).
    - split; intros p l []. }
  intros p l [Hg | Hg]; apply get_In in Hg;
    [exact (proj1 H p l Hg) | exact (proj2 H p l Hg)].
Qed.

Lemma plans_keep_input_order_witness :
  exists kept,
    subsequence kept [line; terminal]
    /\ map ident [mkClass "Terminal" "T1"
                     [AttrRecord (VBool true) "Terminal.connected"]]
       = map ident kept.
Proof.
  eapply (plans_keep_input_order [line; terminal] ["SSH"; "SV"]
            (mkWorld (line_store ++ terminal_store) []))
    with (p := "SSH").
  - vm_compute. reflexivity.
  - left. reflexivity.
Defined.

(** X21: the entries of the export plan that [_sort_classes_to_profile]
    returns, all profiles together, are instances of the input, each at
    most once for each time it is in the input: no instance is owned by
    two profiles. *)
Theorem no_instance_is_owned_twice :
  forall klasses active w ex ab w',
    _sort_classes_to_profile klasses active w = (inr (ex, ab), w') ->
    exists kept,
      subsequence kept klasses /\
      Permutation (map ident (entries ex)) (map ident kept).
Proof.
  intros klasses active w ex ab w' Hrun.
  apply (run_klass_loop_invariant
           (fun done st => owned_once done (fst st))
           active klasses w (ex, ab) w'); auto.
  - intros done klass rest st _ (kept & Hsub & Hperm). exists kept.
    split; [now apply subsequence_app_nil | exact Hperm].
  - intros done klass rest ex0 ab0 csp same ad _ (kept & Hsub & Hperm) _ _.
    exists (kept ++ [klass]). split.
    + apply subsequence_app; [exact Hsub | apply subsequence_refl].
    + simpl. rewrite entries_plan_append, map_app. simpl.
      rewrite Hperm. apply Permutation_cons_append.
  - exists []. split; [constructor | reflexivity].
Qed.

Lemma no_instance_is_owned_twice_witness :
  exists kept,
    subsequence kept [line; terminal] /\
    Permutation
      (map ident
         (entries
            [("EQ", [mkClass "ACLineSegment" "L1"
                       [AttrRecord (VInt 3) "ACLineSegment.r";
                        AttrRecord (VInt 7) "ACLineSegment.x"];
                     mkClass "Terminal" "T1" []])]))
      (map ident kept).
Proof.
  eapply (no_instance_is_owned_twice [line; terminal] ["EQ"]
            (mkWorld (line_store ++ terminal_store) [])).
  vm_compute. reflexivity.
Defined.

Lemma plans_apart_step done klass ex ab csp same about_dict :
  ~ In (mRID klass) (map mRID done) ->
  plans_apart done (ex, ab) ->
  NoDup (keys about_dict) -> ~ In csp (keys about_dict) ->
  plans_apart (done ++ [klass])
    (plan_append ex csp (mkClass (name klass) (mRID klass) same),
     about_loop klass about_dict ab).
Proof.
  intros Hfresh (He & Ha & Hsep) Hnd Hc. simpl in He, Ha, Hsep.
  assert (Hmore : forall x, In x (map mRID done) ->
                            In x (map mRID (done ++ [klass]))).
  { intros x Hx. rewrite map_app. apply in_or_app. now left. }
  assert (Hnew : In (mRID klass) (map mRID (done ++ [klass]))).
  { rewrite map_app. apply in_or_app. right. now left. }
  (* where an entry of the new plans comes from *)
  assert (Hex : forall p l c,
             In (p, l) (plan_append ex csp
                          (mkClass (name klass) (mRID klass) same)) ->
             In c l ->
             (exists l0, In (p, l0) ex /\ In c l0)
             \/ (p = csp /\ mRID c = mRID klass)).
  { intros p l c Hin Hcl. apply plan_append_In in Hin.
    destruct Hin as [Hin | (-> & l0 & -> & Hin)]; [eauto |].
    apply in_app_or in Hcl. destruct Hcl as [Hcl | [<- | []]]; [| now right].
    destruct Hin as [Hin | ->]; [eauto | destruct Hcl]. }
  assert (Hab : forall p l c,
             In (p, l) (about_loop klass about_dict ab) -> In c l ->
             (exists l0, In (p, l0) ab /\ In c l0)
             \/ (In p (keys about_dict) /\ mRID c = mRID klass)).
  { intros p l c Hin Hcl. apply about_loop_In in Hin; [| exact Hnd].
    destruct Hin as [Hin | (Hp & l0 & attrs & -> & Hin)]; [eauto |].
    apply in_app_or in Hcl. destruct Hcl as [Hcl | [<- | []]]; [| now right].
    destruct Hin as [Hin | ->]; [eauto | destruct Hcl]. }
  split; [| split]; simpl.
  - intros p l c Hin Hcl.
    destruct (Hex p l c Hin Hcl) as [(l0 & Hin0 & Hc0) | [_ ->]]; eauto.
  - intros p l c Hin Hcl.
    destruct (Hab p l c Hin Hcl) as [(l0 & Hin0 & Hc0) | [_ ->]]; eauto.
  - intros p l l' c c' Hin Hin' Hcl Hcl'.
    destruct (Hex p l c Hin Hcl) as [(l0 & Hin0 & Hc0) | [-> Hm]];
      destruct (Hab _ l' c' Hin' Hcl') as [(l1 & Hin1 & Hc1) | [Hp Hm']].
    + eauto.
    + rewrite Hm'. intro Heq. apply Hfresh. rewrite <- Heq. eauto.
    + rewrite Hm. intro Heq. apply Hfresh. rewrite Heq. eauto.
    + contradiction.
Qed.

(** X22: when the instances of the input have different [mRID]s, no
    instance is both in the list of a profile in the export plan and in
    the list of that profile in the about plan: the about entries of an
    instance are filed under other profiles than the one that owns it. *)
Theorem owner_profile_has_no_about_entry :
  forall klasses active w ex ab w',
    NoDup (map mRID klasses) ->
    _sort_classes_to_profile klasses active w = (inr (ex, ab), w') ->
    forall p l l' c c',
      get ex p = Some l -> get ab p = Some l' ->
      In c l -> In c' l' ->
      mRID c <> mRID c'.
Proof.
  intros klasses active w ex ab w' Hnd Hrun.
  assert (H : plans_apart klasses (ex, ab)).
  { apply (run_klass_loop_invariant plans_apart active klasses w
             (ex, ab) w'); auto.
    - intros done klass rest st _ (He & Ha & Hsep).
      repeat split; auto; intros p l c Hin Hc; rewrite map_app;
        apply in_or_app; left; eauto.
    - intros done klass rest ex0 ab0 csp same ad Hwhole Hst Hk Hc.
      apply plans_apart_step; auto.
      rewrite Hwhole, map_app in Hnd. simpl in Hnd.
      apply NoDup_remove_2 in Hnd. intro Hin. apply Hnd.
      apply in_or_app. now left.
    - repeat split; simpl; intros; contradiction. }
  destruct H as (_ & _ & Hsep). intros p l l' c c' Hg Hg'.
  apply get_In in Hg, Hg'. exact (Hsep p l l' c c' Hg Hg').
Qed.

Lemma owner_profile_has_no_about_entry_witness :
  mRID (mkClass "Switch" "S1" [])
  <> mRID (mkClass "Terminal" "T1"
             [AttrRecord (VBool true) "Terminal.connected"]).
Proof.
  eapply (owner_profile_has_no_about_entry
            [mkClass "Switch" "S1"
               [MetaRecord ReadInProfileKey (VReadIn []);
                MetaRecord PossibleProfileListKey (VPossible ["Switch"])];
             terminal]
            ["EQ"; "SSH"]
            (mkWorld (("Switch", [("class", [1%Z])]) :: terminal_store) []))
    with (p := "SSH").
  - repeat constructor; simpl; intuition discriminate.
  - vm_compute. reflexivity.
  - reflexivity.
  - reflexivity.
  - left. reflexivity.
  - left. reflexivity.
Defined.

(** ** The records of the plans *)

Lemma plan_append_entry (d : plan) q c p l e :
  In (p, l) (plan_append d q c) -> In e l ->
  (exists l0, In (p, l0) d /\ In e l0) \/ e = c.
Proof.
  intros Hin He. apply plan_append_In in Hin.
  destruct Hin as [Hin | (-> & l0 & -> & Hin)]; [eauto |].
  apply in_app_or in He. destruct He as [He | [<- | []]]; [| now right].
  destruct Hin as [Hin | ->]; [eauto | destruct He].
Qed.

Lemma about_loop_entry klass about_dict :
  forall a p l e,
    In (p, l) (about_loop klass about_dict a) -> In e l ->
    (exists l0, In (p, l0) a /\ In e l0)
    \/ (exists q attrs, In (q, attrs) about_dict /\
                        e = mkClass (name klass) (mRID klass) attrs).
Proof.
  induction about_dict as [| [q attrs] rest IH]; intros a p l e Hin He;
    simpl in *; [eauto |].
  destruct (IH _ _ _ _ Hin He) as [(l0 & Hin0 & He0) | (q' & attrs' & H & ->)].
  - destruct (plan_append_entry _ _ _ _ _ _ Hin0 He0)
      as [(l1 & Hin1 & He1) | ->]; [eauto |].
    right. exists q, attrs. auto.
  - right. exists q', attrs'. auto.
Qed.

Lemma attribute_loop_sub klass rp pl active csp attrs :
  forall done st w,
    subsequence (fst st) done ->
    (forall p l, In (p, l) (snd st) -> subsequence l done) ->
    post (attribute_loop klass rp pl active csp attrs st) w
      (fun st' _ =>
         subsequence (fst st') (done ++ attrs) /\
         forall p l, In (p, l) (snd st') -> subsequence l (done ++ attrs))
      (fun _ => True).
Proof.
  induction attrs as [| attribute attrs IH]; intros done st w Hs Ha; simpl.
  - step. rewrite app_nil_r. auto.
  - step. eapply post_mono; [apply attribute_step_spec | | auto].
    assert (Happ : done ++ attribute :: attrs = (done ++ [attribute]) ++ attrs).
    { now rewrite <- app_assoc. }
    rewrite Happ.
    intros st' w' (_ & [-> | (p & _ & ->)]).
    + apply IH; [now apply subsequence_app_nil |].
      intros q l Hin. apply subsequence_app_nil. eauto.
    + unfold filed. destruct (String.eqb p csp); apply IH; simpl.
      * apply subsequence_app; [exact Hs | apply subsequence_refl].
      * intros q l Hin. apply subsequence_app_nil. eauto.
      * now apply subsequence_app_nil.
      * intros q l Hin. revert Hin. unfold about_append.
        destruct (get _ p) as [l0 |] eqn:Hg; intro Hin;
          apply In_set in Hin; destruct Hin as [[-> ->] | Hin];
          try (apply subsequence_app_nil; now eauto).
        -- apply subsequence_app; [| apply subsequence_refl].
           apply get_In in Hg. eauto.
        -- apply (subsequence_app [] done); [apply subsequence_nil
                                           | apply subsequence_refl].
Qed.

Lemma klass_step_entries active klasses st klass w :
  In klass klasses -> entries_from klasses st ->
  post (klass_step active st klass) w
    (fun st' _ => entries_from klasses st') (fun _ => True).
Proof.
  intros Hk Hst. unfold klass_step. destruct st as [ex ab].
  step. step; [| exact I]. step. step; [| exact I]. step.
  eapply post_mono; [apply post_any | | auto].
  intros [csp |] w1 _; [| now step].
  step.
  eapply post_mono;
    [apply (attribute_loop_sub klass a a0 active csp (attributes klass)
              [] ([], []) w1); [constructor | intros p l []] | | auto].
  intros [same about_dict] w2 [Hsame Habout]. simpl in Hsame, Habout.
  step. intros p l e Hin He. simpl in Hin.
  assert (Hnew : forall attrs,
             subsequence attrs (attributes klass) ->
             exists k,
               In k klasses /\
               ident (mkClass (name klass) (mRID klass) attrs) = ident k /\
               subsequence
                 (attributes (mkClass (name klass) (mRID klass) attrs))
                 (attributes k)).
  { intros attrs Hsub. exists klass. auto. }
  destruct Hin as [Hin | Hin].
  - destruct (plan_append_entry _ _ _ _ _ _ Hin He)
      as [(l0 & Hin0 & He0) | ->]; [| now apply Hnew].
    apply (Hst p l0 e); simpl; auto.
  - destruct (about_loop_entry _ _ _ _ _ _ Hin He)
      as [(l0 & Hin0 & He0) | (q & attrs & Hq & ->)].
    + apply (Hst p l0 e); simpl; auto.
    + apply Hnew. eauto.
Qed.

Lemma klass_loop_entries active klasses todo :
  forall st w,
    incl todo klasses -> entries_from klasses st ->
    post (klass_loop active todo st) w
      (fun st' _ => entries_from klasses st') (fun _ => True).
Proof.
  induction todo as [| klass todo IH]; intros st w Hincl Hst; simpl.
  - now step.
  - step. eapply post_mono; [apply klass_step_entries | | auto].
    + apply Hincl. now left.
    + exact Hst.
    + intros st' w' Hst'. apply IH; [| exact Hst'].
      intros k Hin. apply Hincl. now right.
Qed.

(** X23: every entry of the two plans that [_sort_classes_to_profile]
    returns has the class name and the [mRID] of an instance of the input,
    and its attributes are records of that instance, in the order they
    have there and none of them twice: the plans hold nothing that the
    input does not hold. *)
Theorem plans_hold_input_records :
  forall klasses active w ex ab w',
    _sort_classes_to_profile klasses active w = (inr (ex, ab), w') ->
    forall p l e,
      get ex p = Some l \/ get ab p = Some l -> In e l ->
      exists klass,
        In klass klasses /\ ident e = ident klass /\
        subsequence (attributes e) (attributes klass).
Proof.
  intros klasses active w ex ab w' Hrun p l e Hg He.
  assert (H : entries_from klasses (ex, ab)).
  { apply (post_run _ _ _ _ _ _
             (klass_loop_entries active klasses klasses ([], []) w
                (incl_refl _)
                (fun p l e H => match H with
                                | or_introl F | or_intror F =>
                                    match F with end
                                end)) Hrun). }
  apply (H p l e); [| exact He].
  destruct Hg as [Hg | Hg]; apply get_In in Hg; auto.
Qed.

Lemma plans_hold_input_records_witness :
  exists klass,
    In klass [line] /\
    ident (mkClass "ACLineSegment" "L1"
             [AttrRecord (VInt 7) "ACLineSegment.x"]) = ident klass /\
    subsequence
      (attributes (mkClass "ACLineSegment" "L1"
                     [AttrRecord (VInt 7) "ACLineSegment.x"]))
      (attributes klass).
Proof.
  eapply (plans_hold_input_records [line] ["EQ"; "SV"]
            (mkWorld line_store [])) with (p := "EQ").
  - vm_compute. reflexivity.
  - left. reflexivity.
  - left. reflexivity.
Defined.

(** ** The exceptions of the export *)

Lemma bind_raised {A B} (m : M A) (k : A -> M B) w e w' :
  bind m k w = (inl e, w') ->
  m w = (inl e, w') \/ exists a w1, m w = (inr a, w1) /\ k a w1 = (inl e, w').
Proof.
  unfold bind. destruct (m w) as [[e1 | a] w1]; intro H.
  - left. injection H as -> ->. reflexivity.
  - right. exists a, w1. split; [reflexivity | exact H].
Qed.

Lemma bind_returned {A B} (m : M A) (k : A -> M B) w b w' :
  bind m k w = (inr b, w') ->
  exists a w1, m w = (inr a, w1) /\ k a w1 = (inr b, w').
Proof.
  unfold bind. destruct (m w) as [[e1 | a] w1]; intro H; [discriminate H |].
  exists a, w1. split; [reflexivity | exact H].
Qed.

Lemma raises_only_class_profiles pl c :
  raises_only sort_error (class_profiles pl c).
Proof.
  unfold class_profiles. destruct (str_in c pl).
  - intros w e w'. destruct (get (store w) c); intros [= <- _]. now left.
  - apply raises_only_raise. now left.
Qed.

Lemma raises_only_sort_in_place pl c a :
  raises_only sort_error (sort_in_place pl c a).
Proof.
  unfold sort_in_place.
  apply raises_only_bind; [apply raises_only_class_profiles | intro d].
  apply raises_only_bind; [apply raises_only_orelse; now left | intro l].
  intros w e w' H. discriminate H.
Qed.

Lemma raises_only_first_active active ranks :
  raises_only sort_error (first_active active ranks).
Proof.
  induction ranks as [| r ranks IH]; simpl; [apply raises_only_ret |].
  apply raises_only_bind; [apply raises_only_orelse; now right | intro n].
  destruct (str_in n active); [apply raises_only_ret | exact IH].
Qed.

Ltac raises :=
  repeat first
    [ apply raises_only_ret
    | apply raises_only_logger
    | apply raises_only_class_profiles
    | apply raises_only_sort_in_place
    | apply raises_only_first_active
    | apply raises_only_orelse; solve [unfold sort_error; auto]
    | apply raises_only_raise; solve [unfold sort_error; auto]
    | apply raises_only_bind; [| intro]
    | match goal with
      | |- raises_only _ (if ?b then _ else _) => destruct b
      | |- raises_only _ (match ?o with Some _ => _ | None => _ end) =>
          destruct o
      end ].

Lemma raises_only_class_profile klass rp pl active :
  raises_only sort_error (class_profile klass rp pl active).
Proof. unfold class_profile. raises. Qed.

Lemma raises_only_attribute_profile klass rp pl active c a :
  raises_only sort_error (attribute_profile klass rp pl active c a).
Proof. unfold attribute_profile. raises. Qed.

Lemma raises_only_attribute_step klass rp pl active csp st attribute :
  dotted_records [attribute] ->
  raises_only sort_error
    (attribute_step klass rp pl active csp st attribute).
Proof.
  intro Hd. unfold attribute_step. destruct st as [same about_dict].
  destruct attribute as [k v | v attr_name]; [apply raises_only_ret |].
  apply Forall_inv in Hd.
  destruct (split_with_sep _ _ Hd) as (h1 & h2 & t & Hs).
  unfold attr_part. rewrite Hs. simpl nth_error. unfold orelse.
  apply raises_only_bind; [apply raises_only_ret | intro c].
  apply raises_only_bind; [apply raises_only_ret | intro a].
  destruct (String.eqb a "mRID"); [apply raises_only_ret |].
  apply raises_only_bind; [apply raises_only_attribute_profile | intro r].
  raises.
Qed.

Lemma raises_only_attribute_loop klass rp pl active csp attrs :
  forall st,
    dotted_records attrs ->
    raises_only sort_error (attribute_loop klass rp pl active csp attrs st).
Proof.
  induction attrs as [| attribute attrs IH]; intros st Hd; simpl.
  - apply raises_only_ret.
  - apply raises_only_bind.
    + apply raises_only_attribute_step. constructor; [| constructor].
      exact (Forall_inv Hd).
    + intro st'. apply IH. exact (Forall_inv_tail Hd).
Qed.

Lemma raises_only_klass_step active st klass :
  readable klass -> raises_only sort_error (klass_step active st klass).
Proof.
  intros ((rp & Hrp) & (pl & Hpl) & Hd). unfold klass_step.
  destruct st as [ex ab]. rewrite Hrp, Hpl. unfold lift.
  apply raises_only_bind; [apply raises_only_ret | intro rp'].
  apply raises_only_bind; [apply raises_only_ret | intro pl'].
  apply raises_only_bind; [apply raises_only_class_profile | intro c].
  destruct c as [csp |]; [| apply raises_only_ret].
  apply raises_only_bind; [now apply raises_only_attribute_loop | intro r].
  destruct r. apply raises_only_ret.
Qed.

Lemma raises_only_klass_loop active klasses :
  forall st,
    Forall readable klasses ->
    raises_only sort_error (klass_loop active klasses st).
Proof.
  induction klasses as [| klass klasses IH]; intros st Hr; simpl.
  - apply raises_only_ret.
  - apply raises_only_bind.
    + apply raises_only_klass_step. exact (Forall_inv Hr).
    + intro st'. apply IH. exact (Forall_inv_tail Hr).
Qed.

Lemma class_dict_of_readable s kv klass :
  class_dict_of s kv klass -> readable klass.
Proof.
  intros (_ & _ & Hrp & (cs & Hpl & _) & Hd).
  split; [eauto | split; [eauto | exact Hd]].
Qed.

Lemma class_list_readable res w klasses w1 :
  _get_class_attributes_with_references res w = (inr klasses, w1) ->
  Forall readable klasses.
Proof.
  intro Hrun.
  destruct (ends_returned _ _ _ _ _ _
              (class_attributes_loop_spec res res [] w) Hrun)
    as (_ & new & -> & Hnew).
  simpl. clear Hrun. induction Hnew; constructor; [| assumption].
  eapply class_dict_of_readable; eassumption.
Qed.

Section ProfileLoop.

Variable cwd : string.
Variable path_join : string -> string -> string.
Variable path_exists : string -> bool.
Variable now : string.
Variable namespaces_dict : dict string.
Variable file_name : string.

Lemma raises_only_profile_loop ex ab profiles :
  forall rendered,
    raises_only (fun _ => False)
      (profile_loop cwd path_join path_exists now namespaces_dict file_name
         ex ab profiles rendered).
Proof.
  induction profiles as [| [profile_name short_name] profiles IH];
    intro rendered; simpl; [apply raises_only_ret |].
  apply raises_only_bind; [| exact IH].
  unfold profile_step.
  destruct (negb (has ex short_name) && negb (has ab short_name));
    [apply raises_only_ret |].
  cbv zeta. destruct (negb _);
    (apply raises_only_bind;
     [apply raises_only_logger | intro; apply raises_only_ret]).
Qed.

Lemma fresh_not_in (x : string) (paths : list string) (new : list payload) :
  Forall (fun p => ~ In (full_path_name p) (paths ++ [x])) new ->
  ~ In x (map full_path_name new).
Proof.
  intros Hnew Hin. apply in_map_iff in Hin. destruct Hin as (p & Hp & Hin).
  rewrite Forall_forall in Hnew. apply (Hnew p Hin). rewrite Hp.
  apply in_or_app. right. now left.
Qed.

Lemma profile_loop_spec ex ab profiles :
  forall rendered w,
    post (profile_loop cwd path_join path_exists now namespaces_dict
            file_name ex ab profiles rendered) w
      (fun rendered' _ =>
         exists new,
           rendered' = rendered ++ new /\
           Forall (payload_for profiles cwd path_join now namespaces_dict
                     file_name ex ab) new /\
           Forall (fun p =>
                     path_exists (full_path_name p) = false /\
                     ~ In (full_path_name p) (map full_path_name rendered))
             new /\
           NoDup (map full_path_name new) /\
           forall profile_name short_name,
             In (profile_name, short_name) profiles ->
             has ex short_name = true \/ has ab short_name = true ->
             path_exists (profile_path cwd path_join file_name profile_name)
             = false ->
             In (profile_path cwd path_join file_name profile_name)
               (map full_path_name rendered'))
      (fun _ => True).
Proof.
  induction profiles as [| [profile_name short_name] profiles IH];
    intros rendered w; simpl.
  - step. exists []. rewrite app_nil_r.
    repeat (split; [now constructor |]). intros pn sn [].
  - assert (Hmore : forall new,
               Forall (payload_for profiles cwd path_join now
                         namespaces_dict file_name ex ab) new ->
               Forall (payload_for ((profile_name, short_name) :: profiles)
                         cwd path_join now namespaces_dict file_name ex ab)
                 new).
    { intros new Hnew. eapply Forall_impl; [| exact Hnew].
      intros p (pn & sn & Hin & Hhas & Hp). exists pn, sn.
      split; [now right | auto]. }
    step. unfold profile_step.
    destruct (negb (has ex short_name) && negb (has ab short_name)) eqn:Hnone.
    + step. eapply post_mono; [apply IH | | auto].
      intros rendered' _ (new & -> & Hfor & Hfresh & Hnd & Hall).
      exists new. split; [reflexivity |]. split; [now apply Hmore |].
      split; [exact Hfresh |]. split; [exact Hnd |].
      intros pn sn [[= <- <-] | Hin] Hhas Hpath; [| now apply (Hall pn sn)].
      apply andb_prop in Hnone. destruct Hnone as [Hex Hab].
      apply negb_true_iff in Hex, Hab. destruct Hhas; congruence.
    + assert (Hhas : has ex short_name = true \/ has ab short_name = true).
      { apply andb_false_iff in Hnone.
        destruct Hnone as [H | H]; apply negb_false_iff in H; auto. }
      cbv zeta. clear Hnone. destruct (negb (path_exists _ || _)) eqn:Hfree;
        set (path := path_join cwd _) in *;
        change (profile_path cwd path_join file_name profile_name) with path.
      * apply negb_true_iff, orb_false_elim in Hfree.
        destruct Hfree as [Hex Hseen]. apply str_in_not_In in Hseen.
        step. step. step. eapply post_mono; [apply IH | | auto].
        intros rendered' _ (new & -> & Hfor & Hfresh & Hnd & Hall).
        eexists (_ :: new). rewrite <- app_assoc.
        split; [reflexivity |]. split.
        { constructor; [| now apply Hmore].
          exists profile_name, short_name.
          split; [now left | split; [exact Hhas | reflexivity]]. }
        split.
        { constructor; [split; assumption |].
          eapply Forall_impl; [| exact Hfresh].
          intros p [Hp Hnot]. split; [exact Hp |].
          intro Hin. apply Hnot. rewrite map_app. apply in_or_app. now left. }
        split.
        { simpl. constructor; [| exact Hnd].
          apply (fresh_not_in path (map full_path_name rendered)).
          eapply Forall_impl; [| exact Hfresh].
          intros p [_ Hnot]. now rewrite map_app in Hnot. }
        intros pn sn [[= <- <-] | Hin] Hhas' Hpath.
        -- rewrite map_app. apply in_or_app. right. now left.
        -- rewrite <- app_assoc in Hall. now apply (Hall pn sn).
      * apply negb_false_iff in Hfree.
        step. step. step. eapply post_mono; [apply IH | | auto].
        intros rendered' _ (new & -> & Hfor & Hfresh & Hnd & Hall).
        exists new. split; [reflexivity |]. split; [now apply Hmore |].
        split; [exact Hfresh |]. split; [exact Hnd |].
        intros pn sn [[= <- <-] | Hin] Hhas' Hpath; [| now apply (Hall pn sn)].
        change (path_exists path = false) in Hpath.
        rewrite Hpath in Hfree. simpl in Hfree.
        apply str_in_In in Hfree. rewrite map_app. apply in_or_app.
        now left.
Qed.

End ProfileLoop.

Section ExportRuns.

Variable cwd : string.
Variable path_join : string -> string -> string.
Variable path_exists : string -> bool.
Variable now : string.
Variable elapsed : string.
Variable namespaces_dict : dict string.
Variable file_name : string.

Let cim_export' :=
  cim_export cwd path_join path_exists now elapsed namespaces_dict file_name.
Let profile_loop' :=
  profile_loop cwd path_join path_exists now namespaces_dict file_name.

Lemma cim_export_returned res active w rendered w' :
  cim_export' res active w = (inr rendered, w') ->
  exists klasses w1 ex ab w2 w3,
    _get_class_attributes_with_references res (started w)
    = (inr klasses, w1) /\
    _sort_classes_to_profile klasses active w1 = (inr (ex, ab), w2) /\
    profile_loop' ex ab short_profile_name [] w2 = (inr rendered, w3).
Proof.
  unfold cim_export', cim_export. intro H.
  apply bind_returned in H. destruct H as ([] & w0 & [= <-] & H).
  apply bind_returned in H. destruct H as (klasses & w1 & H1 & H).
  apply bind_returned in H. destruct H as ([ex ab] & w2 & H2 & H).
  apply bind_returned in H. destruct H as (r & w3 & H3 & H).
  apply bind_returned in H. destruct H as ([] & w4 & _ & [= <- _]).
  now exists klasses, w1, ex, ab, w2, w3.
Qed.

Lemma cim_export_raised res active w e w' :
  cim_export' res active w = (inl e, w') ->
  _get_class_attributes_with_references res (started w) = (inl e, w')
  \/ exists klasses w1,
       _get_class_attributes_with_references res (started w)
       = (inr klasses, w1) /\
       _sort_classes_to_profile klasses active w1 = (inl e, w').
Proof.
  unfold cim_export', cim_export. intro H.
  apply bind_raised in H.
  destruct H as [H | ([] & w0 & [= <-] & H)]; [discriminate H |].
  apply bind_raised in H.
  destruct H as [H | (klasses & w1 & H1 & H)]; [now left |].
  right. exists klasses, w1. split; [exact H1 |].
  apply bind_raised in H.
  destruct H as [H | (plans & w2 & H2 & H)]; [exact H |].
  exfalso. apply bind_raised in H.
  destruct H as [H | (r & w3 & H3 & H)].
  - exact (raises_only_profile_loop _ _ _ _ _ _ _ _ _ _ _ _ _ H).
  - apply bind_raised in H.
    destruct H as [H | ([] & w4 & _ & H)]; discriminate H.
Qed.

Lemma cim_export_returns res active w klasses w1 ex ab w2 :
  _get_class_attributes_with_references res (started w)
  = (inr klasses, w1) ->
  _sort_classes_to_profile klasses active w1 = (inr (ex, ab), w2) ->
  exists rendered w3 w',
    profile_loop' ex ab short_profile_name [] w2 = (inr rendered, w3) /\
    cim_export' res active w = (inr rendered, w').
Proof.
  intros H1 H2.
  destruct (profile_loop' ex ab short_profile_name [] w2)
    as [[e | rendered] w3] eqn:H3.
  - destruct (raises_only_profile_loop _ _ _ _ _ _ _ _ _ _ _ _ _ H3).
  - exists rendered, w3. eexists. split; [reflexivity |].
    unfold cim_export', cim_export.
    rewrite (bind_inr _ _ w tt (started w) eq_refl).
    rewrite (bind_inr _ _ _ _ _ H1), (bind_inr _ _ _ _ _ H2).
    simpl fst. simpl snd. fold profile_loop'.
    rewrite (bind_inr _ _ _ _ _ H3). reflexivity.
Qed.

End ExportRuns.

(** X24: of the exceptions of the model, [cim_export] raises only the
    [AttributeError] of the attribute extractor, the [UnboundLocalError]
    of the reference resolver, and the [KeyError] and [ValueError] of the
    profile resolution. It raises no [IndexError] and no [TypeError]: the
    dictionaries that [_get_class_attributes_with_references] makes have
    the two metadata records where [_sort_classes_to_profile] reads them
    and a dot in every attribute name it splits; the loop over the
    profiles raises nothing. *)
Theorem cim_export_raises_only :
  forall cwd path_join path_exists now elapsed namespaces_dict file_name
         res active w e w',
    cim_export cwd path_join path_exists now elapsed namespaces_dict
      file_name res active w = (inl e, w') ->
    export_error e.
Proof.
  intros cwd path_join path_exists now elapsed namespaces_dict file_name
    res active w e w' Hrun.
  apply cim_export_raised in Hrun.
  destruct Hrun as [H1 | (klasses & w1 & H1 & H2)].
  - destruct (ends_raised _ _ _ _ _ _
                (class_attributes_loop_spec res res [] (started w)) H1)
      as [[-> | ->] _]; unfold export_error; auto.
  - apply class_list_readable in H1.
    destruct (raises_only_klass_loop active klasses ([], []) H1 _ _ _ H2)
      as [-> | ->]; unfold export_error; auto.
Qed.

Lemma cim_export_raises_only_witness : export_error UnboundLocalError.
Proof.
  apply (cim_export_raises_only "/out"
           (fun d f => d ++ "/" ++ f)%string (fun _ => false)
           "04/11/2026 12:00:00" "0.1" [] "grid"
           [("V1", mkModel (mkObj 2 "SvVoltage" true None) []
                     [("Base", []); ("SvVoltage", ["TopologicalNode"])]
                     [("TopologicalNode", VObj node)])]
           ["SV"] (mkWorld grid_store []) UnboundLocalError
           (started (mkWorld grid_store []))).
  reflexivity.
Defined.

(** X25: [cim_export] writes no file twice and no file that exists when
    it starts: the paths of the payloads it renders are pairwise distinct
    and none of them exists. *)
Theorem cim_export_writes_fresh_files :
  forall cwd path_join path_exists now elapsed namespaces_dict file_name
         res active w rendered w',
    cim_export cwd path_join path_exists now elapsed namespaces_dict
      file_name res active w = (inr rendered, w') ->
    NoDup (map full_path_name rendered) /\
    Forall (fun p => path_exists (full_path_name p) = false) rendered.
Proof.
  intros cwd path_join path_exists now elapsed namespaces_dict file_name
    res active w rendered w' Hrun.
  apply cim_export_returned in Hrun.
  destruct Hrun as (klasses & w1 & ex & ab & w2 & w3 & _ & _ & H3).
  destruct (post_run _ _ _ _ _ _
              (profile_loop_spec cwd path_join path_exists now
                 namespaces_dict file_name ex ab short_profile_name [] w2)
              H3)
    as (new & -> & _ & Hfresh & Hnd & _).
  split; [exact Hnd |].
  eapply Forall_impl; [| exact Hfresh]. now intros p [Hp _].
Qed.

Lemma cim_export_writes_fresh_files_witness :
  NoDup
    (map full_path_name
       (match fst (cim_export "/out" (fun d f => d ++ "/" ++ f)%string
                     (String.eqb "/out/grid_Topology.xml")
                     "04/11/2026 12:00:00" "0.1" [] "grid" grid
                     ["TP"; "SV"] (mkWorld grid_store [])) with
        | inr rendered => rendered
        | inl _ => []
        end)) /\
  Forall
    (fun p => String.eqb "/out/grid_Topology.xml" (full_path_name p) = false)
    (match fst (cim_export "/out" (fun d f => d ++ "/" ++ f)%string
                  (String.eqb "/out/grid_Topology.xml")
                  "04/11/2026 12:00:00" "0.1" [] "grid" grid
                  ["TP"; "SV"] (mkWorld grid_store [])) with
     | inr rendered => rendered
     | inl _ => []
     end).
Proof.
  eapply (cim_export_writes_fresh_files "/out"
            (fun d f => d ++ "/" ++ f)%string
            (String.eqb "/out/grid_Topology.xml")
            "04/11/2026 12:00:00" "0.1" [] "grid" grid ["TP"; "SV"]
            (mkWorld grid_store [])).
  vm_compute. reflexivity.
Defined.

(** X26: every payload that [cim_export] renders is the payload of a
    profile of the table [short_profile_name] that has entries in one of
    the two plans of [_sort_classes_to_profile], run on the dictionaries
    of [_get_class_attributes_with_references]: its path is the file name,
    an underscore, the name of the profile and [.xml] in the working
    directory, its classes and about entries are those of the plans under
    the short name of the profile ([False] where a plan has none), and its
    header holds the creation time, the authority and the profile. *)
Theorem payloads_carry_the_plans :
  forall cwd path_join path_exists now elapsed namespaces_dict file_name
         res active w rendered w' p,
    cim_export cwd path_join path_exists now elapsed namespaces_dict
      file_name res active w = (inr rendered, w') ->
    In p rendered ->
    exists klasses w1 ex ab w2,
      _get_class_attributes_with_references res (started w)
      = (inr klasses, w1) /\
      _sort_classes_to_profile klasses active w1 = (inr (ex, ab), w2) /\
      payload_for short_profile_name cwd path_join now namespaces_dict
        file_name ex ab p.
Proof.
  intros cwd path_join path_exists now elapsed namespaces_dict file_name
    res active w rendered w' p Hrun Hin.
  apply cim_export_returned in Hrun.
  destruct Hrun as (klasses & w1 & ex & ab & w2 & w3 & H1 & H2 & H3).
  exists klasses, w1, ex, ab, w2. split; [exact H1 |]. split; [exact H2 |].
  destruct (post_run _ _ _ _ _ _
              (profile_loop_spec cwd path_join path_exists now
                 namespaces_dict file_name ex ab short_profile_name [] w2)
              H3)
    as (new & -> & Hfor & _).
  rewrite Forall_forall in Hfor. exact (Hfor p Hin).
Qed.

Lemma payloads_carry_the_plans_witness :
  exists klasses w1 ex ab w2,
    _get_class_attributes_with_references grid
      (started (mkWorld grid_store []))
    = (inr klasses, w1) /\
    _sort_classes_to_profile klasses ["TP"; "SV"] w1 = (inr (ex, ab), w2) /\
    payload_for short_profile_name "/out" (fun d f => d ++ "/" ++ f)%string
      "04/11/2026 12:00:00" [] "grid" ex ab
      (mkPayload "/out/grid_Topology.xml"
         (Some [mkClass "TopologicalNode" "N1"
                  [AttrRecord (VStr "north") "TopologicalNode.name"]])
         None [] "grid"
         [("created", "04/11/2026 12:00:00");
          ("modelingAuthoritySet", "www.acs.eonerc.rwth-aachen.de");
          ("profile", "Topology")]).
Proof.
  eapply (payloads_carry_the_plans "/out"
            (fun d f => d ++ "/" ++ f)%string (fun _ => false)
            "04/11/2026 12:00:00" "0.1" [] "grid" grid ["TP"; "SV"]
            (mkWorld grid_store [])).
  - vm_compute. reflexivity.
  - right. left. reflexivity.
Defined.

(** X27: when the two passes return, [cim_export] returns, and every
    profile of the table [short_profile_name] that has entries in one of
    the plans and whose file does not exist is written: a payload with the
    path of its file is rendered. *)
Theorem profile_with_entries_gets_a_file :
  forall cwd path_join path_exists now elapsed namespaces_dict file_name
         res active w klasses w1 ex ab w2 profile_name short_name,
    _get_class_attributes_with_references res (started w)
    = (inr klasses, w1) ->
    _sort_classes_to_profile klasses active w1 = (inr (ex, ab), w2) ->
    In (profile_name, short_name) short_profile_name ->
    has ex short_name = true \/ has ab short_name = true ->
    path_exists (profile_path cwd path_join file_name profile_name)
    = false ->
    exists rendered w',
      cim_export cwd path_join path_exists now elapsed namespaces_dict
        file_name res active w = (inr rendered, w') /\
      In (profile_path cwd path_join file_name profile_name)
        (map full_path_name rendered).
Proof.
  intros cwd path_join path_exists now elapsed namespaces_dict file_name
    res active w klasses w1 ex ab w2 profile_name short_name H1 H2 Hin Hhas
    Hpath.
  destruct (cim_export_returns cwd path_join path_exists now elapsed
              namespaces_dict file_name res active w klasses w1 ex ab w2
              H1 H2)
    as (rendered & w3 & w' & H3 & Hrun).
  exists rendered, w'. split; [exact Hrun |].
  destruct (post_run _ _ _ _ _ _
              (profile_loop_spec cwd path_join path_exists now
                 namespaces_dict file_name ex ab short_profile_name [] w2)
              H3)
    as (new & _ & _ & _ & _ & Hall).
  exact (Hall profile_name short_name Hin Hhas Hpath).
Qed.

Lemma profile_with_entries_gets_a_file_witness :
  exists rendered w',
    cim_export "/out" (fun d f => d ++ "/" ++ f)%string
      (String.eqb "/out/grid_Topology.xml") "04/11/2026 12:00:00" "0.1" []
      "grid" grid ["TP"; "SV"] (mkWorld grid_store [])
    = (inr rendered, w') /\
    In (profile_path "/out" (fun d f => d ++ "/" ++ f)%string "grid"
          "StateVariables")
      (map full_path_name rendered).
Proof.
  eapply (profile_with_entries_gets_a_file "/out"
            (fun d f => d ++ "/" ++ f)%string
            (String.eqb "/out/grid_Topology.xml") "04/11/2026 12:00:00"
            "0.1" [] "grid" grid ["TP"; "SV"] (mkWorld grid_store []))
    with (short_name := "SV").
  - vm_compute. reflexivity.
  - vm_compute. reflexivity.
  - simpl. auto 10.
  - left. reflexivity.
  - reflexivity.
Defined.
